(** * go-access: checking a *nix user's permissions on a path

    A shallow embedding of [access.go] (package [access]) and the proofs of
    its specification.  The operating system and the Go standard library are
    an environment [Env]: [os.Lstat], [os.Readlink], [filepath.Abs], the
    [os/user] lookups and [strconv].  Every [Lstat] and [Readlink] call is
    recorded in a trace, and the answer of the environment may depend on the
    calls made so far, so that a file tree that changes during a walk is
    covered as well as a fixed one. *)

From Stdlib Require Import ZArith Ascii String List Bool Arith Lia.
Import ListNotations.

Set Implicit Arguments.

(** ** Strings

    A Go string is a sequence of bytes, indexed and sliced by byte. *)

Definition path := list ascii.

Definition str (s : string) : path := list_ascii_of_string s.

(** [os.PathSeparator] and [os.IsPathSeparator] on *nix. *)
Definition PathSeparator : ascii := "/"%char.

Definition IsPathSeparator (c : ascii) : bool := Ascii.eqb c PathSeparator.

Definition pathSeparator : path := [PathSeparator].

(** [a == b] on strings. *)
Fixpoint path_eqb (a b : path) : bool :=
  match a, b with
  | [], [] => true
  | x :: a', y :: b' => Ascii.eqb x y && path_eqb a' b'
  | _, _ => false
  end.

(** [s[i:j]], [s[:j]] and [s[i:]]. *)
Definition slice (s : path) (i j : nat) : path := firstn (j - i) (skipn i s).
Definition upto (s : path) (j : nat) : path := firstn j s.
Definition from (s : path) (i : nat) : path := skipn i s.

(** [s[i]], read only where [i < len(s)]. *)
Definition byteAt (s : path) (i : nat) : ascii := nth i s "000"%char.

(** ** Modes, metadata and errors *)

(** [os.FileMode] is a [uint32]. *)
Definition wrap32 (z : Z) : Z := (z mod 2 ^ 32)%Z.
Definition shl32 (m k : Z) : Z := wrap32 (Z.shiftl m k).

Definition Read : Z := 4%Z.
Definition Write : Z := 2%Z.
Definition Execute : Z := 1%Z.

(** The two type bits of [os.FileMode] that the walk reads. *)
Definition ModeDir : Z := (2 ^ 31)%Z.
Definition ModeSymlink : Z := (2 ^ 27)%Z.

(** What [checkPath] and [access] read of an [os.FileInfo]:
    [fi.Mode()], and the fields [Uid] and [Gid] (both [uint32]) of the
    [syscall.Stat_t] behind [fi.Sys()]. *)
Record FileInfo := mkFileInfo {
  fiMode : Z;
  fiUid : Z;
  fiGid : Z
}.

Definition IsDir (fi : FileInfo) : bool :=
  negb (Z.land (fiMode fi) ModeDir =? 0)%Z.

Definition IsSymlink (fi : FileInfo) : bool :=
  negb (Z.land (fiMode fi) ModeSymlink =? 0)%Z.

Record PermissionError := mkPermissionError {
  File : path;
  FileMode : Z;
  FileUid : Z;
  FileGid : Z;
  Uid : Z;
  Gid : list Z;
  WantMode : Z
}.

(** An error made outside this package (by the operating system, [os/user],
    [strconv] or [filepath]), known by a code. *)
Definition oserror := nat.

(** The errors a check can return.  [EExternal] is an error made outside
    this package, which the code hands on unchanged. *)
Inductive error :=
| EPermission (e : PermissionError)
| ENoSlash (p : path)
| ENOTDIR
| ETooManyLinks
| EExternal (code : oserror).

(** ** The environment and the monad of traced calls *)

Inductive event :=
| EvLstat (p : path)
| EvReadlink (p : path).

Definition trace := list event.

(** [user.User]: the [Uid] field, and what the method [GroupIds] returns. *)
Record User := mkUser {
  userUid : path;
  GroupIds : oserror + list path
}.

Record Env := mkEnv {
  Lstat : trace -> path -> oserror + FileInfo;
  Readlink : trace -> path -> oserror + path;
  Abs : path -> oserror + path;
  Atoi : path -> oserror + Z;
  Itoa : Z -> path;
  LookupId : path -> oserror + User;
  Lookup : path -> oserror + User
}.

(** The result of a run: a value, a Go error, or a model that ran out of
    fuel (shown below never to happen). *)
Inductive res (A : Type) :=
| Ok (a : A)
| Err (e : error)
| OutOfFuel.

Arguments Ok {A} a.
Arguments Err {A} e.
Arguments OutOfFuel {A}.

Definition M (A : Type) := trace -> trace * res A.

Definition ret {A} (a : A) : M A := fun h => (h, Ok a).

Definition fail {A} (e : error) : M A := fun h => (h, Err e).

Definition outOfFuel {A} : M A := fun h => (h, OutOfFuel).

Definition bind {A B} (m : M A) (k : A -> M B) : M B :=
  fun h =>
    match m h with
    | (h', Ok a) => k a h'
    | (h', Err e) => (h', Err e)
    | (h', OutOfFuel) => (h', OutOfFuel)
    end.

Notation "x <- m ;; k" := (bind m (fun x => k))
  (at level 61, m at next level, right associativity).
Notation "m ;;; k" := (bind m (fun _ => k))
  (at level 61, right associativity).

Definition lift {A} (r : oserror + A) : M A :=
  match r with
  | inl e => fail (EExternal e)
  | inr a => ret a
  end.

Section Engine.

Variable env : Env.

Definition lstat (p : path) : M FileInfo :=
  fun h =>
    (h ++ [EvLstat p],
     match Lstat env h p with
     | inl e => Err (EExternal e)
     | inr fi => Ok fi
     end).

Definition readlink (p : path) : M path :=
  fun h =>
    (h ++ [EvReadlink p],
     match Readlink env h p with
     | inl e => Err (EExternal e)
     | inr l => Ok l
     end).

(** ** checkPath *)

Fixpoint contains (a : list Z) (i : Z) : bool :=
  match a with
  | [] => false
  | e :: a' => if (e =? i)%Z then true else contains a' i
  end.

(** [strings.LastIndexFunc(path, func(r rune) bool { return r == os.PathSeparator })]:
    the index of the last ['/'], or -1.  The separator is an ASCII byte, so
    the index in runes found from the end is the index of that byte. *)
Fixpoint LastIndexSep (p : path) : Z :=
  match p with
  | [] => (-1)%Z
  | c :: q =>
      let r := LastIndexSep q in
      if (0 <=? r)%Z then (r + 1)%Z
      else if IsPathSeparator c then 0%Z else (-1)%Z
  end.

(** The condition of the [if] in [checkPath]: the check is refused. *)
Definition refused (uid : Z) (gid : list Z) (mode : Z) (fi : FileInfo) : bool :=
  let fm := fiMode fi in
  negb (uid =? 0)%Z
  && negb (Z.land fm mode =? mode)%Z
  && (negb (Z.land fm (shl32 mode 6) =? shl32 mode 6)%Z
      || negb (wrap32 uid =? fiUid fi)%Z)
  && (negb (Z.land fm (shl32 mode 3) =? shl32 mode 3)%Z
      || negb (contains gid (fiGid fi))).

Definition denial (uid : Z) (gid : list Z) (mode : Z) (p : path)
    (fi : FileInfo) : PermissionError :=
  {| File := p;
     FileMode := fiMode fi;
     FileUid := fiUid fi;
     FileGid := fiGid fi;
     Uid := uid;
     Gid := gid;
     WantMode := mode |}.

(** The loop of [checkPath]; every turn shortens [path], so [len(path)+1]
    turns of fuel are enough. *)
Fixpoint checkPathLoop (fuel : nat) (uid : Z) (gid : list Z) (mode : Z)
    (p : path) : M unit :=
  match p with
  | [] => ret tt
  | _ :: _ =>
      match fuel with
      | O => outOfFuel
      | S fuel' =>
          fi <- lstat p ;;
          if refused uid gid mode fi
          then fail (EPermission (denial uid gid mode p fi))
          else
            let i := LastIndexSep p in
            if (i <? 0)%Z then fail (ENoSlash p)
            else checkPathLoop fuel' uid gid 1%Z (upto p (Z.to_nat i))
      end
  end.

Definition checkPath (uid : Z) (gid : list Z) (mode : Z) (p : path) : M unit :=
  checkPathLoop (S (length p)) uid gid mode p.

(** ** access: the walk *)

(** The inner scanning loops of the walk: the first index at or after [i]
    whose byte is not (resp. is) a separator, or [len(s)]. *)
Fixpoint skipSeparators (s : path) (i : nat) (fuel : nat) : nat :=
  match fuel with
  | O => i
  | S fuel' =>
      if (i <? length s) && IsPathSeparator (byteAt s i)
      then skipSeparators s (S i) fuel'
      else i
  end.

Fixpoint skipComponent (s : path) (i : nat) (fuel : nat) : nat :=
  match fuel with
  | O => i
  | S fuel' =>
      if (i <? length s) && negb (IsPathSeparator (byteAt s i))
      then skipComponent s (S i) fuel'
      else i
  end.

(** [for r = len(dest) - 1; r >= volLen; r-- { if os.IsPathSeparator(dest[r]) { break } }]:
    the value of [r] after the loop, counted down from [r]. *)
Fixpoint lastSeparator (dest : path) (volLen : Z) (r : Z) (fuel : nat) : Z :=
  match fuel with
  | O => r
  | S fuel' =>
      if (volLen <=? r)%Z
      then if IsPathSeparator (byteAt dest (Z.to_nat r)) then r
           else lastSeparator dest volLen (r - 1)%Z fuel'
      else r
  end.

Definition scanBack (dest : path) (volLen : nat) : Z :=
  lastSeparator dest (Z.of_nat volLen) (Z.of_nat (length dest) - 1)%Z
    (S (length dest)).

(** The variables of the loop that live across its turns ([end] is copied
    to [start] by the post statement). *)
Record walkState := mkWalk {
  wPath : path;
  wStart : nat;
  wDest : path;
  wLinks : nat
}.

(** How a turn of the loop ends: [break] (or the loop condition fails),
    [continue], or the end of the body after a symlink was substituted. *)
Inductive control :=
| Break (st : walkState)
| Continue (st : walkState)
| Followed (st : walkState).

Section Walk.

Variables (uid : Z) (gi : list Z).
Variables (volLen : nat) (vol : path).

Definition dotdot (dest : path) : path :=
  let r := scanBack dest volLen in
  if (r <? Z.of_nat volLen)%Z
     || path_eqb (from dest (Z.to_nat (r + 1))) (str "..")
  then (if volLen <? length dest then dest ++ pathSeparator else dest)
         ++ str ".."
  else upto dest (Z.to_nat r).

(** [if len(dest) > 0 && !os.IsPathSeparator(dest[len(dest)-1]) { dest += pathSeparator }] *)
Definition addSeparator (dest : path) : path :=
  if (0 <? length dest)
     && negb (IsPathSeparator (byteAt dest (length dest - 1)))
  then dest ++ pathSeparator else dest.

(** A symlink to a relative path: the last component of [dest] goes. *)
Definition backUp (dest : path) : path :=
  let r := scanBack dest volLen in
  if (r <? Z.of_nat volLen)%Z then vol else upto dest (Z.to_nat r).

(** The body of the loop from [fi, err := os.Lstat(dest)] on, [err] being
    nil. *)
Definition resolve (p : path) (end_ : nat) (dest : path) (links : nat)
    (fi : FileInfo) : M control :=
  if (Z.land (fiMode fi) ModeSymlink =? 0)%Z then
    if negb (IsDir fi) && (end_ <? length p) then fail ENOTDIR
    else ret (Continue (mkWalk p end_ dest links))
  else
    let linksWalked := S links in
    if 255 <? linksWalked then fail ETooManyLinks
    else
      link <- readlink dest ;;
      let path' := link ++ from p end_ in
      if (0 <? length link) && IsPathSeparator (byteAt link 0) then
        ret (Followed (mkWalk path' 1 (upto link 1) linksWalked))
      else
        ret (Followed (mkWalk path' 0 (backUp dest) linksWalked)).

Definition loopBody (st : walkState) : M control :=
  let path := wPath st in
  let dest := wDest st in
  if negb (wStart st <? length path) then ret (Break st)
  else
    let start := skipSeparators path (wStart st) (length path) in
    let end_ := skipComponent path start (length path) in
    let comp := slice path start end_ in
    if end_ =? start then
      ret (Break (mkWalk path start dest (wLinks st)))
    else if path_eqb comp (str ".") then
      ret (Continue (mkWalk path end_ dest (wLinks st)))
    else if path_eqb comp (str "..") then
      ret (Continue (mkWalk path end_ (dotdot dest) (wLinks st)))
    else
      let dest1 := addSeparator dest in
      let l := length dest1 in
      let dest2 := dest1 ++ comp in
      checkPath uid gi 1%Z (upto dest2 l) ;;;
      fi <- lstat dest2 ;;
      resolve path end_ dest2 (wLinks st) fi.

(** The [for] loop.  A turn that does not follow a link moves [start]
    forward, so [len(path)+1] turns are enough until the next link; at most
    255 links are followed.  The result is [dest] after the loop. *)
Fixpoint walkLinks (budget : nat) : nat -> walkState -> M path :=
  fix walkComponents (fuel : nat) (st : walkState) {struct fuel} : M path :=
    match fuel with
    | O => outOfFuel
    | S fuel' =>
        c <- loopBody st ;;
        match c with
        | Break st' => ret (wDest st')
        | Continue st' => walkComponents fuel' st'
        | Followed st' =>
            match budget with
            | O => outOfFuel
            | S budget' => walkLinks budget' (S (length (wPath st'))) st'
            end
        end
    end.

End Walk.

(** [strconv.Atoi] on every group id, stopping at the first error. *)
Fixpoint atoiAll (gs : list path) : M (list Z) :=
  match gs with
  | [] => ret []
  | g :: gs' =>
      i <- lift (Atoi env g) ;;
      rest <- atoiAll gs' ;;
      ret (i :: rest)
  end.

Definition access (user : User) (uid : Z) (mode : Z) (p : path) : M unit :=
  gs <- lift (GroupIds user) ;;
  gi <- atoiAll gs ;;
  path <- lift (Abs env p) ;;
  let volLen :=
    if (0 <? length path) && IsPathSeparator (byteAt path 0) then 1 else 0 in
  let vol := upto path volLen in
  dest <- walkLinks uid gi volLen vol 256 (S (length path))
            (mkWalk path volLen vol 0) ;;
  checkPath uid gi mode dest.

(** The two exported functions, [Uid] and [Username] in the source (the
    name [Uid] is the field of [PermissionError] here). *)
Definition AccessUid (uid : Z) (mode : Z) (p : path) : M unit :=
  u <- lift (LookupId env (Itoa env uid)) ;;
  access u uid mode p.

Definition AccessUsername (username : path) (mode : Z) (p : path) : M unit :=
  u <- lift (Lookup env username) ;;
  uid <- lift (Atoi env (userUid u)) ;;
  access u uid mode p.

End Engine.

(** ** A file tree given as a table

    An environment for running the code on concrete trees: [Lstat] and
    [Readlink] look the path up in a table, byte for byte (a table lists
    the spellings with a trailing separator that it wants answered), and do
    not depend on the calls made before. *)

Module Table.

Record entry := mkEntry {
  ePath : string;
  eInfo : FileInfo;
  eLink : option string
}.

Definition ENOENT : oserror := 2.
Definition EINVAL : oserror := 22.

Definition lookup (tbl : list entry) (p : path) : option entry :=
  find (fun e => path_eqb (str (ePath e)) p) tbl.

Definition tLstat (tbl : list entry) (_ : trace) (p : path)
    : oserror + FileInfo :=
  match lookup tbl p with
  | Some e => inr (eInfo e)
  | None => inl ENOENT
  end.

Definition tReadlink (tbl : list entry) (_ : trace) (p : path)
    : oserror + path :=
  match lookup tbl p with
  | Some e =>
      match eLink e with
      | Some l => inr (str l)
      | None => inl EINVAL
      end
  | None => inl ENOENT
  end.

(** [filepath.Clean] on a rooted path, by components: empty components and
    [.] go away, [..] removes the component before it and goes away at the
    root; the result is the root followed by what is left, joined by single
    separators. *)
Fixpoint components (p : path) (cur : path) : list path :=
  match p with
  | [] => [rev cur]
  | c :: q =>
      if IsPathSeparator c then rev cur :: components q []
      else components q (c :: cur)
  end.

Fixpoint cleanStack (cs : list path) (stack : list path) : list path :=
  match cs with
  | [] => rev stack
  | c :: cs' =>
      if path_eqb c [] || path_eqb c (str ".") then cleanStack cs' stack
      else if path_eqb c (str "..") then cleanStack cs' (tl stack)
      else cleanStack cs' (c :: stack)
  end.

Fixpoint joinSep (cs : list path) : path :=
  match cs with
  | [] => []
  | [c] => c
  | c :: cs' => c ++ pathSeparator ++ joinSep cs'
  end.

Definition Clean (p : path) : path :=
  pathSeparator ++ joinSep (cleanStack (components p []) []).

(** [filepath.Abs] with the working directory [cwd] (a rooted path). *)
Definition tAbs (cwd : string) (p : path) : oserror + path :=
  match p with
  | c :: _ => if IsPathSeparator c then inr (Clean p)
              else inr (Clean (str cwd ++ pathSeparator ++ p))
  | [] => inr (Clean (str cwd))
  end.

(** [strconv.Atoi] on the numerals that the examples use: a string of at
    most 18 decimal digits gives its number; every other string is
    answered with an error here. *)
Definition digit (c : ascii) : option Z :=
  let n := nat_of_ascii c in
  if (48 <=? n) && (n <=? 57) then Some (Z.of_nat (n - 48)) else None.

Fixpoint digits (s : path) (acc : Z) : option Z :=
  match s with
  | [] => Some acc
  | c :: s' =>
      match digit c with
      | Some d => digits s' (10 * acc + d)%Z
      | None => None
      end
  end.

Definition tAtoi (s : path) : oserror + Z :=
  match s with
  | [] => inl EINVAL
  | _ :: _ =>
      if length s <=? 18 then
        match digits s 0%Z with
        | Some z => inr z
        | None => inl EINVAL
        end
      else inl EINVAL
  end.

(** A tree and a working directory make an environment; the user database
    is empty. *)
Definition tableEnv (tbl : list entry) (cwd : string) : Env :=
  {| Lstat := tLstat tbl;
     Readlink := tReadlink tbl;
     Abs := tAbs cwd;
     Atoi := tAtoi;
     Itoa := fun _ => [];
     LookupId := fun _ => inl ENOENT;
     Lookup := fun _ => inl ENOENT |}.

Definition dir (name : string) (perm : Z) (u g : Z) : entry :=
  mkEntry name (mkFileInfo (ModeDir + perm) u g) None.

Definition file (name : string) (perm : Z) (u g : Z) : entry :=
  mkEntry name (mkFileInfo perm u g) None.

Definition symlink (name : string) (target : string) (u g : Z) : entry :=
  mkEntry name (mkFileInfo (ModeSymlink + 511) u g) (Some target).

(** A user whose groups are [gs]. *)
Definition userOf (uid : string) (gs : list string) : User :=
  mkUser (str uid) (inr (map str gs)).

End Table.

(** ** Paths by components, and the check of one component *)

(** The rooted path with the components [cs]: a separator before each. *)
Fixpoint rooted (cs : list path) : path :=
  match cs with
  | [] => []
  | c :: cs' => PathSeparator :: c ++ rooted cs'
  end.



(** The non-empty prefixes of a list of components, shortest first. *)
Fixpoint inits (cs : list path) : list (list path) :=
  match cs with
  | [] => []
  | c :: cs' => [c] :: map (cons c) (inits cs')
  end.

(** A rooted path and its ancestors above the root, longest first. *)
Definition chain (cs : list path) : list path := rev (map rooted (inits cs)).

(** One permission check: fetch the metadata of [p], refuse or go on. *)
Definition checkOne (env : Env) (uid : Z) (gid : list Z) (mode : Z) (p : path)
    : M unit :=
  fi <- lstat env p ;;
  if refused uid gid mode fi
  then fail (EPermission (denial uid gid mode p fi))
  else ret tt.

(** The checks of [ps] one after the other, each with the mode [Execute]. *)
Fixpoint checkEach (env : Env) (uid : Z) (gid : list Z) (ps : list path)
    : M unit :=
  match ps with
  | [] => ret tt
  | p :: ps' => checkOne env uid gid Execute p ;;; checkEach env uid gid ps'
  end.

(** A component holds no separator. *)
Definition noSep (c : path) : Prop :=
  Forall (fun x => IsPathSeparator x = false) c.

(** The environment answers [Lstat p] with [fi] whatever was asked before. *)
Definition Stat (env : Env) (p : path) (fi : FileInfo) : Prop :=
  forall h, Lstat env h p = inr fi.

(** A run of separators, and a remainder that is empty or begins with one. *)
Definition allSep (s : path) : Prop :=
  Forall (fun x => IsPathSeparator x = true) s.

Definition atSep (s : path) : Prop :=
  match s with
  | [] => True
  | x :: _ => IsPathSeparator x = true
  end.

(** An ordinary component: not empty, no separator, neither [.] nor [..]. *)
Definition ordinary (c : path) : Prop :=
  c <> [] /\ noSep c /\ c <> str "." /\ c <> str "..".

(** A run came to an end: it returned nil or an error. *)
Definition returned {A} (r : res A) : Prop :=
  match r with
  | Ok _ => True
  | Err _ => True
  | OutOfFuel => False
  end.

(** What a turn of the loop that goes on has done: it moved [start] forward
    in the same path, or it followed one more link, of at most 255. *)
Definition progress (st : walkState) (c : control) : Prop :=
  match c with
  | Break _ => True
  | Continue st' =>
      wPath st' = wPath st /\ wStart st < length (wPath st)
      /\ wStart st < wStart st' /\ wLinks st' = wLinks st
  | Followed st' => wLinks st' = S (wLinks st) /\ wLinks st' <= 255
  end.

(** ** The permission rule in the words of the specification

    The three classes of permission bits of a mode, and the rule: the owner
    bits include the mode asked and the principal owns the file, or the
    group bits include it and the file's group is one of the principal's,
    or the other bits include it. *)

Definition ownerBits (fm : Z) : Z := Z.land (Z.shiftr fm 6) 7.
Definition groupBits (fm : Z) : Z := Z.land (Z.shiftr fm 3) 7.
Definition otherBits (fm : Z) : Z := Z.land fm 7.

Definition includes (bits mode : Z) : Prop := Z.land bits mode = mode.

Definition granted (uid : Z) (gids : list Z) (mode : Z) (fi : FileInfo) : Prop :=
  (includes (ownerBits (fiMode fi)) mode /\ uid = fiUid fi)
  \/ (includes (groupBits (fiMode fi)) mode /\ In (fiGid fi) gids)
  \/ includes (otherBits (fiMode fi)) mode.

(** A principal other than the superuser, with an id that fits [uint32],
    and a mode made of [Read], [Write] and [Execute]. *)
Definition plainUid (uid : Z) : Prop := (0 < uid < 2 ^ 32)%Z.
Definition rwx (mode : Z) : Prop := (0 <= mode <= 7)%Z.

(** ** Paths without links

    The path of the components [cs] as the walk builds it ([dest]): the
    root alone, or a separator before each component. *)
Definition destOf (cs : list path) : path :=
  match cs with
  | [] => pathSeparator
  | _ :: _ => rooted cs
  end.

(** What is left of a path when the walk stands before the components
    [todo], the separator before the first of them apart. *)
Definition tailPath (todo : list path) : path :=
  match todo with
  | [] => []
  | c :: t => c ++ rooted t
  end.

(** The paths that the loop of the walk asks the environment about, in
    order, when it has the components [done] behind it and [todo] before
    it, none a link and every check passing: for each component, the prefix
    with a separator and its chain of ancestors, then the prefix with the
    component. *)
Fixpoint walkTrace (done todo : list path) : list path :=
  match todo with
  | [] => []
  | c :: t =>
      ((rooted done ++ pathSeparator) :: chain done)
      ++ [rooted (done ++ [c])]
      ++ walkTrace (done ++ [c]) t
  end.

(** A tree in which the path of the components [cs] holds no link: the
    environment answers for the root, for every prefix of the path (none a
    link, all but the last a directory) and for the spelling of a directory
    with a separator after it, always the same and as [meta] says. *)
Definition plainTree (env : Env) (meta : path -> FileInfo) (cs : list path)
    : Prop :=
  Stat env pathSeparator (meta pathSeparator)
  /\ forall k, k < length cs ->
       let q := rooted (firstn (S k) cs) in
       Stat env q (meta q)
       /\ IsSymlink (meta q) = false
       /\ (S k < length cs ->
           IsDir (meta q) = true /\ Stat env (q ++ pathSeparator) (meta q)).

(** The rule of the specification along such a path: the mode asked on the
    path itself, Execute on the root and on every directory between. *)
Definition allowed (uid : Z) (gi : list Z) (mode : Z) (meta : path -> FileInfo)
    (cs : list path) : Prop :=
  granted uid gi mode (meta (destOf cs))
  /\ (cs <> [] -> granted uid gi Execute (meta pathSeparator))
  /\ forall k, S k < length cs ->
       granted uid gi Execute (meta (rooted (firstn (S k) cs))).

(** The same with the test of the code. *)
Definition passes (uid : Z) (gi : list Z) (mode : Z) (meta : path -> FileInfo)
    (cs : list path) : Prop :=
  refused uid gi mode (meta (destOf cs)) = false
  /\ (cs <> [] -> refused uid gi Execute (meta pathSeparator) = false)
  /\ forall k, S k < length cs ->
       refused uid gi Execute (meta (rooted (firstn (S k) cs))) = false.

(** The checks of the loop of the walk from the components [done] on all
    pass, or one of them is refused. *)
Definition walkPasses (uid : Z) (gi : list Z) (meta : path -> FileInfo)
    (done todo : list path) : Prop :=
  todo <> [] ->
  refused uid gi Execute (meta (destOf done)) = false
  /\ forall k, S k < length (done ++ todo) ->
       refused uid gi Execute (meta (rooted (firstn (S k) (done ++ todo))))
       = false.

Definition walkFails (uid : Z) (gi : list Z) (meta : path -> FileInfo)
    (done todo : list path) : Prop :=
  todo <> []
  /\ (refused uid gi Execute (meta (destOf done)) = true
      \/ exists k, S k < length (done ++ todo)
           /\ refused uid gi Execute
                (meta (rooted (firstn (S k) (done ++ todo)))) = true).

(** The principal that [access] works with: the groups of [user] read as
    numbers are [gi]. *)
Definition groupsOf (env : Env) (user : User) (gi : list Z) : Prop :=
  exists gs, GroupIds user = inr gs /\ Forall2 (fun g z => Atoi env g = inr z) gs gi.

(** The calls of the whole check of a path of components [cs] without
    links, every check passing: those of the walk, then the path itself and
    its ancestors above the root. *)
Definition accessTrace (cs : list path) : list path :=
  walkTrace [] cs ++ destOf cs :: chain (removelast cs).

(** ** Trees for the examples *)

Module Trees.

Import Table.

Local Open Scope string_scope.

(** The metadata that a table gives for a path. *)
Definition metaOf (tbl : list entry) (q : path) : FileInfo :=
  match lookup tbl q with
  | Some e => eInfo e
  | None => mkFileInfo 0 0 0
  end.

(** A directory [/a] with a file [f] of the user 1000, mode 0644; the
    directories are root's, mode 0755. *)
Definition home : list entry :=
  [ dir "/" 493 0 0;
    dir "/a" 493 0 0;
    dir "/a/" 493 0 0;
    file "/a/f" 420 1000 1000 ].

(** A file without any permission bit, of the user 1000, under the root. *)
Definition sealed : list entry :=
  [ dir "/" 493 0 0;
    file "/f" 0 1000 1000 ].

(** A directory of the user 1000, mode 0700, with a file mode 0600. *)
Definition vault : list entry :=
  [ dir "/" 493 0 0;
    dir "/d" 448 1000 1000;
    dir "/d/" 448 1000 1000;
    file "/d/f" 384 1000 1000 ].

(** A file directly under the root. *)
Definition flat : list entry :=
  [ dir "/" 493 0 0;
    file "/f" 420 1000 1000 ].

(** A link [/l] to [/d/x/../f], where [/d/x] is a directory without any
    permission bit. *)
Definition detour : list entry :=
  [ dir "/" 493 0 0;
    symlink "/l" "/d/x/../f" 0 0;
    dir "/d" 493 0 0;
    dir "/d/" 493 0 0;
    dir "/d/x" 0 0 0;
    file "/d/f" 420 1000 1000 ].

(** A link [/m] to [/x/../f], where [/x] is a directory without any
    permission bit; the spellings [/x/..] and [/x/../] name the root. *)
Definition shortcut : list entry :=
  [ dir "/" 493 0 0;
    symlink "/m" "/x/../f" 0 0;
    dir "/x" 0 0 0;
    dir "/x/.." 493 0 0;
    dir "/x/../" 493 0 0;
    file "/x/../f" 420 1000 1000;
    file "/f" 420 1000 1000 ].

(** A link [/up] to [..]; the spelling [/..] names the root. *)
Definition climb : list entry :=
  [ dir "/" 493 0 0;
    symlink "/up" ".." 0 0;
    dir "/.." 493 0 0 ].

(** A root of mode 0700 that only the superuser can pass. *)
Definition locked : list entry :=
  [ dir "/" 448 0 0;
    file "/f" 420 1000 1000 ].

(** A link [/s] to [f] whose own mode holds no permission bit. *)
Definition bare : list entry :=
  [ dir "/" 493 0 0;
    mkEntry "/s" (mkFileInfo ModeSymlink 0 0) (Some "f");
    file "/f" 420 1000 1000 ].

(** A link [/s] to [/a/t], itself a link to [f] beside it, a file of the
    user 1000 in the directory [/a]. *)
Definition relay : list entry :=
  [ dir "/" 493 0 0;
    symlink "/s" "/a/t" 0 0;
    dir "/a" 493 0 0;
    dir "/a/" 493 0 0;
    symlink "/a/t" "f" 0 0;
    file "/a/f" 420 1000 1000 ].

(** A link [/l] to itself. *)
Definition loop : list entry :=
  [ dir "/" 493 0 0;
    symlink "/l" "l" 0 0 ].

(** The directory [/d] without any permission bit, and a file [/f]. *)
Definition closed : list entry :=
  [ dir "/" 493 0 0;
    dir "/d" 0 0 0;
    file "/f" 420 1000 1000 ].

Definition alice : User := userOf "1000" ["1000"].
Definition root : User := userOf "0" ["0"].

End Trees.

(** A resolved prefix that the walk can append to: the root, or a path
    that does not end in a separator. *)
Definition cleanDest (dest : path) : Prop :=
  dest = pathSeparator
  \/ exists a x, dest = a ++ [x] /\ IsPathSeparator x = false.

(** A link target that begins with a separator. *)
Definition isAbsLink (link : path) : bool :=
  (0 <? length link) && IsPathSeparator (byteAt link 0).

(** ** Chains of links

    Directories that the principal can pass: the root and every prefix of
    the path of the components [ds] answer, always the same and as [meta]
    says, are directories and no links, answer the same with a separator
    after their name, and pass the Execute test. *)
Definition traversable (env : Env) (uid : Z) (gi : list Z)
    (meta : path -> FileInfo) (ds : list path) : Prop :=
  Stat env pathSeparator (meta pathSeparator)
  /\ refused uid gi Execute (meta pathSeparator) = false
  /\ forall k, k < length ds ->
       let q := rooted (firstn (S k) ds) in
       Stat env q (meta q)
       /\ IsSymlink (meta q) = false
       /\ IsDir (meta q) = true
       /\ Stat env (q ++ pathSeparator) (meta q)
       /\ refused uid gi Execute (meta q) = false.

(** The path of the components [cs] is a symlink in a directory that the
    principal can pass, and following it leads to the path of the
    components [cs']: the target is that path (a target that begins with a
    separator), or the relative path of the ordinary components [es],
    which takes the place of the last component of [cs]. *)
Definition linkTo (env : Env) (uid : Z) (gi : list Z)
    (meta : path -> FileInfo) (cs cs' : list path) : Prop :=
  exists ds c link,
    cs = ds ++ [c]
    /\ Forall ordinary cs /\ Forall ordinary cs' /\ cs' <> []
    /\ traversable env uid gi meta ds
    /\ Stat env (rooted cs) (meta (rooted cs))
    /\ IsSymlink (meta (rooted cs)) = true
    /\ (forall h, Readlink env h (rooted cs) = inr link)
    /\ (link = rooted cs'
        \/ exists es, es <> [] /\ link = tailPath es /\ cs' = ds ++ es).

(** Following [n] links, one after the other, leads from the path of the
    components [cs] to that of [cs']. *)
Inductive follows (env : Env) (uid : Z) (gi : list Z)
    (meta : path -> FileInfo) : nat -> list path -> list path -> Prop :=
| follows_here cs : follows env uid gi meta 0 cs cs
| follows_link n cs cs' cs'' :
    linkTo env uid gi meta cs cs' ->
    follows env uid gi meta n cs' cs'' ->
    follows env uid gi meta (S n) cs cs''.

(** The end of a chain: a path that answers, in a directory that the
    principal can pass, and that is no link. *)
Definition target (env : Env) (uid : Z) (gi : list Z)
    (meta : path -> FileInfo) (cs : list path) : Prop :=
  exists ds c,
    cs = ds ++ [c]
    /\ Forall ordinary cs
    /\ traversable env uid gi meta ds
    /\ Stat env (rooted cs) (meta (rooted cs))
    /\ IsSymlink (meta (rooted cs)) = false.

(** ** Paths without links in a tree with missing or unreadable files

    What [Lstat] answers for a path, an error included: the environment
    answers for the root and for every prefix of the path of the components
    [cs] always the same, as [meta] says; a prefix that is there is no
    link, and one that is there before the last is a directory, which
    answers the same with a separator after its name. *)
Definition linkFree (env : Env) (meta : path -> oserror + FileInfo)
    (cs : list path) : Prop :=
  (forall h, Lstat env h pathSeparator = meta pathSeparator)
  /\ forall k, k < length cs ->
       let q := rooted (firstn (S k) cs) in
       (forall h, Lstat env h q = meta q)
       /\ forall fi, meta q = inr fi ->
            IsSymlink fi = false
            /\ (S k < length cs ->
                IsDir fi = true /\ Stat env (q ++ pathSeparator) fi).

(** The metadata of the paths that are there. *)
Definition known (meta : path -> oserror + FileInfo) (q : path) : FileInfo :=
  match meta q with
  | inr fi => fi
  | inl _ => mkFileInfo 0 0 0
  end.

(** The root and every prefix of the path are there. *)
Definition available (meta : path -> oserror + FileInfo) (cs : list path)
    : Prop :=
  (exists fi, meta pathSeparator = inr fi)
  /\ forall k, k < length cs ->
       exists fi, meta (rooted (firstn (S k) cs)) = inr fi.

(** How often the path [q] is asked for in a list of calls. *)
Definition path_eq_dec : forall a b : path, {a = b} + {a <> b} :=
  list_eq_dec ascii_dec.

Definition occurrences (q : path) (l : list path) : nat :=
  count_occ path_eq_dec l q.

(** ** A tree that changes during the walk

    The directory [/a] with the directory [/a/b]; from the fourth call of
    the environment on, [Lstat] of [/a] fails with the error 5 (EIO). *)

Module Flaky.

Import Table.

Local Open Scope string_scope.

Definition tree : list entry :=
  [ dir "/" 493 0 0;
    dir "/a" 493 0 0;
    dir "/a/" 493 0 0;
    dir "/a/b" 493 0 0 ].

Definition fLstat (h : trace) (p : path) : oserror + FileInfo :=
  if path_eqb p (str "/a") && Nat.leb 3 (length h) then inl 5
  else tLstat tree h p.

Definition env : Env :=
  {| Lstat := fLstat;
     Readlink := tReadlink tree;
     Abs := tAbs "/";
     Atoi := tAtoi;
     Itoa := fun _ => [];
     LookupId := fun _ => inl ENOENT;
     Lookup := fun _ => inl ENOENT |}.

End Flaky.

(** ** Notions for further properties of the code *)

(** A path that begins with a separator. *)
Definition absolute (p : path) : Prop :=
  match p with
  | [] => False
  | c :: _ => IsPathSeparator c = true
  end.

(** The number of calls of [Readlink] in a trace. *)
Fixpoint readlinks (t : trace) : nat :=
  match t with
  | [] => 0
  | EvReadlink _ :: t' => S (readlinks t')
  | EvLstat _ :: t' => readlinks t'
  end.

(** A result that is not the error of [checkPath] for a path without any
    separator. *)
Definition noSlashFree {A} (r : res A) : Prop :=
  match r with
  | Err (ENoSlash _) => False
  | _ => True
  end.

(** What is left of a path that holds only [.] components: a [.], a run
    of separators, and so on; a run that another [.] follows is not
    empty. *)
Fixpoint dots (runs : list path) : path :=
  match runs with
  | [] => []
  | s :: rs => str "." ++ s ++ dots rs
  end.

Fixpoint dotRuns (runs : list path) : Prop :=
  match runs with
  | [] => True
  | s :: rs => allSep s /\ (rs <> [] -> s <> []) /\ dotRuns rs
  end.

(** A turn of the loop that keeps [dest] beginning with a separator and
    does not end in the error for a path without any separator. *)
Definition keepsAbsolute (r : res control) : Prop :=
  match r with
  | Ok (Break st') => absolute (wDest st')
  | Ok (Continue st') => absolute (wDest st')
  | Ok (Followed st') => absolute (wDest st')
  | Err (ENoSlash _) => False
  | _ => True
  end.

(** The same for the whole loop, whose value is [dest]. *)
Definition endsAbsolute (r : res path) : Prop :=
  match r with
  | Ok d => absolute d
  | Err (ENoSlash _) => False
  | _ => True
  end.

(** A turn of the loop that reads no more links than the counter of links
    leaves room for, up to 255. *)
Definition linksKept (h : trace) (links : nat) (r : trace * res control) : Prop :=
  match snd r with
  | Ok (Break st') =>
      readlinks (fst r) + (255 - wLinks st') <= readlinks h + (255 - links)
  | Ok (Continue st') =>
      readlinks (fst r) + (255 - wLinks st') <= readlinks h + (255 - links)
  | Ok (Followed st') =>
      readlinks (fst r) + (255 - wLinks st') <= readlinks h + (255 - links)
  | _ => readlinks (fst r) <= readlinks h + (255 - links)
  end.

(** A result that is no denial. *)
Definition noDenial {A} (r : res A) : Prop :=
  match r with
  | Err (EPermission _) => False
  | _ => True
  end.

(** ** A user database for the examples

    The tree of a table, with the user [alice] of uid 1000, and a user
    whose second group is not a number. *)

Module People.

Import Table.

Definition env (tbl : list entry) : Env :=
  {| Lstat := tLstat tbl;
     Readlink := tReadlink tbl;
     Abs := tAbs "/";
     Atoi := tAtoi;
     Itoa := fun z => if (z =? 1000)%Z then str "1000" else [];
     LookupId := fun s =>
       if path_eqb s (str "1000") then inr Trees.alice else inl ENOENT;
     Lookup := fun n =>
       if path_eqb n (str "alice") then inr Trees.alice else inl ENOENT |}.

Definition mallory : User :=
  mkUser (str "1001") (inr [str "1001"; str "wheel"]).

End People.

(** ** Tactics *)

(** Two traces that hold the same calls, grouped differently. *)
Ltac same_trace :=
  repeat first [rewrite map_app | rewrite <- app_assoc | progress cbn [map app]];
  reflexivity.

(* ================================================================== *)
(** * Properties *)
(* ================================================================== *)

(** ** The monad *)

Lemma bind_ret_l {A B} (a : A) (k : A -> M B) h : bind (ret a) k h = k a h.
Proof. reflexivity. Qed.

Lemma bind_assoc {A B C} (m : M A) (k : A -> M B) (k' : B -> M C) h :
  bind (bind m k) k' h = bind m (fun a => bind (k a) k') h.
Proof. unfold bind. destruct (m h) as [h1 [a|e|]]; reflexivity. Qed.

Lemma bind_ok {A B} (m : M A) (k : A -> M B) h h1 a :
  m h = (h1, Ok a) -> bind m k h = k a h1.
Proof. unfold bind. intros ->. reflexivity. Qed.

Lemma bind_err {A B} (m : M A) (k : A -> M B) h h1 e :
  m h = (h1, Err e) -> bind m k h = (h1, Err e).
Proof. unfold bind. intros ->. reflexivity. Qed.

(** ** Strings *)

Lemma path_eqb_eq a b : path_eqb a b = true <-> a = b.
Proof.
  revert b. induction a as [|x a IH]; intros [|y b]; simpl; split;
    try congruence; try reflexivity.
  - intros H. apply andb_true_iff in H as [H1 H2].
    apply Ascii.eqb_eq in H1. apply IH in H2. congruence.
  - intros H. injection H as -> ->. rewrite Ascii.eqb_refl. simpl.
    apply IH. reflexivity.
Qed.

Lemma path_eqb_refl a : path_eqb a a = true.
Proof. apply path_eqb_eq. reflexivity. Qed.

Lemma path_eqb_neq a b : a <> b -> path_eqb a b = false.
Proof.
  intros H. destruct (path_eqb a b) eqn:E; [|reflexivity].
  apply path_eqb_eq in E. contradiction.
Qed.

Lemma LastIndexSep_noSep c : noSep c -> LastIndexSep c = (-1)%Z.
Proof.
  induction 1 as [|x c Hx _ IH]; simpl; [reflexivity|].
  rewrite IH, Hx. reflexivity.
Qed.

Lemma LastIndexSep_app a c :
  noSep c ->
  LastIndexSep (a ++ PathSeparator :: c) = Z.of_nat (length a).
Proof.
  intros Hc. induction a as [|x a IH].
  - simpl. rewrite (LastIndexSep_noSep Hc). reflexivity.
  - cbn [app LastIndexSep length]. rewrite IH.
    destruct (0 <=? Z.of_nat (length a))%Z eqn:E; [lia|].
    apply Z.leb_gt in E. lia.
Qed.

Lemma LastIndexSep_bound p : (-1 <= LastIndexSep p < Z.of_nat (length p))%Z.
Proof.
  induction p as [|x p IH]; cbn [LastIndexSep length]; [lia|].
  destruct (0 <=? LastIndexSep p)%Z eqn:E.
  - apply Z.leb_le in E. lia.
  - destruct (IsPathSeparator x); lia.
Qed.

(** ** checkPath *)

Section CheckPath.

Variable env : Env.

Lemma checkPathLoop_fuel n :
  forall fuel1 fuel2 uid gid mode p h,
    length p <= n -> length p < fuel1 -> length p < fuel2 ->
    checkPathLoop env fuel1 uid gid mode p h
    = checkPathLoop env fuel2 uid gid mode p h.
Proof.
  induction n as [|n IH]; intros fuel1 fuel2 uid gid mode p h Hn H1 H2.
  - destruct p; [|simpl in Hn; lia].
    destruct fuel1, fuel2; reflexivity.
  - destruct p as [|x p]; [destruct fuel1, fuel2; reflexivity|].
    destruct fuel1 as [|f1]; [lia|]. destruct fuel2 as [|f2]; [lia|].
    cbn [checkPathLoop]. unfold bind.
    destruct (lstat env (x :: p) h) as [h1 [fi|e|]]; try reflexivity.
    destruct (refused uid gid mode fi); [reflexivity|].
    destruct (LastIndexSep (x :: p) <? 0)%Z eqn:E; [reflexivity|].
    apply Z.ltb_ge in E.
    pose proof (LastIndexSep_bound (x :: p)) as Hb.
    assert (Hl : length (upto (x :: p) (Z.to_nat (LastIndexSep (x :: p))))
                 < length (x :: p)).
    { unfold upto. rewrite length_firstn. lia. }
    simpl in Hn, H1, H2, Hl.
    apply IH; simpl; lia.
Qed.

(** One turn of the loop of [checkPath]. *)
Lemma checkPath_unfold uid gid mode p h :
  p <> [] ->
  checkPath env uid gid mode p h
  = (fi <- lstat env p ;;
     if refused uid gid mode fi
     then fail (EPermission (denial uid gid mode p fi))
     else if (LastIndexSep p <? 0)%Z then fail (ENoSlash p)
          else checkPath env uid gid 1%Z (upto p (Z.to_nat (LastIndexSep p)))) h.
Proof.
  intros Hp. destruct p as [|x p]; [contradiction|].
  unfold checkPath at 1. cbn [checkPathLoop]. unfold bind.
  destruct (lstat env (x :: p) h) as [h1 [fi|e|]]; try reflexivity.
  destruct (refused uid gid mode fi); [reflexivity|].
  destruct (LastIndexSep (x :: p) <? 0)%Z eqn:E; [reflexivity|].
  apply Z.ltb_ge in E.
  pose proof (LastIndexSep_bound (x :: p)) as Hb.
  unfold checkPath.
  apply checkPathLoop_fuel with (n := length (x :: p)).
  - unfold upto. rewrite length_firstn. lia.
  - unfold upto. rewrite length_firstn. simpl. simpl in Hb. lia.
  - lia.
Qed.

Lemma checkPath_nil uid gid mode h : checkPath env uid gid mode [] h = (h, Ok tt).
Proof. reflexivity. Qed.

End CheckPath.

(** ** Rooted paths and their chains of ancestors *)

Lemma rooted_app a b : rooted (a ++ b) = rooted a ++ rooted b.
Proof.
  induction a as [|c a IH]; simpl; [reflexivity|].
  rewrite IH, app_assoc. reflexivity.
Qed.

Lemma rooted_snoc cs c : rooted (cs ++ [c]) = rooted cs ++ PathSeparator :: c.
Proof. rewrite rooted_app. simpl. rewrite app_nil_r. reflexivity. Qed.

Lemma inits_snoc cs c : inits (cs ++ [c]) = inits cs ++ [cs ++ [c]].
Proof.
  induction cs as [|x cs IH]; simpl; [reflexivity|].
  rewrite IH, map_app. reflexivity.
Qed.

Lemma chain_snoc cs c : chain (cs ++ [c]) = rooted (cs ++ [c]) :: chain cs.
Proof.
  unfold chain. rewrite inits_snoc, map_app, rev_app_distr. reflexivity.
Qed.

Lemma chain_nil : chain [] = [].
Proof. reflexivity. Qed.

Lemma length_inits cs : length (inits cs) = length cs.
Proof.
  induction cs as [|c cs IH]; simpl; [reflexivity|].
  rewrite length_map, IH. reflexivity.
Qed.

Lemma length_chain cs : length (chain cs) = length cs.
Proof. unfold chain. rewrite length_rev, length_map. apply length_inits. Qed.

Lemma in_inits cs l : In l (inits cs) <-> exists k, k < length cs /\ l = firstn (S k) cs.
Proof.
  revert l. induction cs as [|c cs IH]; intros l; simpl.
  - split; [contradiction|]. intros (k & Hk & _). lia.
  - split.
    + intros [<-|H].
      * exists 0. split; [lia|]. reflexivity.
      * apply in_map_iff in H as (l' & <- & H). apply IH in H as (k & Hk & ->).
        exists (S k). split; [lia|]. reflexivity.
    + intros (k & Hk & ->). destruct k as [|k].
      * left. reflexivity.
      * right. apply in_map_iff. exists (firstn (S k) cs). split; [reflexivity|].
        apply IH. exists k. split; [lia|reflexivity].
Qed.

Lemma in_chain cs q :
  In q (chain cs) <-> exists k, k < length cs /\ q = rooted (firstn (S k) cs).
Proof.
  unfold chain. rewrite <- in_rev, in_map_iff. split.
  - intros (l & <- & H). apply in_inits in H as (k & Hk & ->). eauto.
  - intros (k & Hk & ->). exists (firstn (S k) cs). split; [reflexivity|].
    apply in_inits. eauto.
Qed.

Section CheckChain.

Variable env : Env.

Lemma lstat_fst p h : fst (lstat env p h) = h ++ [EvLstat p].
Proof. reflexivity. Qed.

Lemma lstat_Stat p fi h : Stat env p fi -> lstat env p h = (h ++ [EvLstat p], Ok fi).
Proof. intros H. unfold lstat. rewrite H. reflexivity. Qed.

(** [checkPath] on a path that ends in a component [c] after the rooted
    path [rooted cs]: the check of the path itself, then [checkPath] with
    the mode [Execute] on [rooted cs]. *)
Lemma checkPath_snoc uid gid mode cs c h :
  noSep c ->
  checkPath env uid gid mode (rooted (cs ++ [c])) h
  = (checkOne env uid gid mode (rooted (cs ++ [c])) ;;;
     checkPath env uid gid Execute (rooted cs)) h.
Proof.
  intros Hc. rewrite checkPath_unfold.
  2:{ rewrite rooted_snoc. destruct (rooted cs); discriminate. }
  unfold checkOne, bind, fail, ret.
  destruct (lstat env (rooted (cs ++ [c])) h) as [h1 [fi|e|]]; try reflexivity.
  destruct (refused uid gid mode fi); [reflexivity|].
  rewrite rooted_snoc, (LastIndexSep_app _ Hc).
  destruct (Z.of_nat (length (rooted cs)) <? 0)%Z eqn:E; [apply Z.ltb_lt in E; lia|].
  rewrite Nat2Z.id. unfold upto. rewrite firstn_app, Nat.sub_diag, firstn_all.
  simpl. rewrite app_nil_r. reflexivity.
Qed.

(** [checkPath] checks the path with the mode asked, then every ancestor
    above the root with [Execute], nearest first. *)
Lemma checkPath_chain uid gid mode cs c h :
  Forall noSep cs -> noSep c ->
  checkPath env uid gid mode (rooted (cs ++ [c])) h
  = (checkOne env uid gid mode (rooted (cs ++ [c])) ;;;
     checkEach env uid gid (chain cs)) h.
Proof.
  intros Hcs Hc. rewrite checkPath_snoc by assumption.
  unfold bind.
  destruct (checkOne env uid gid mode (rooted (cs ++ [c])) h) as [h1 [[]|e|]];
    try reflexivity.
  clear h Hc c mode. revert h1.
  induction cs as [|c cs IH] using rev_ind; intros h.
  - reflexivity.
  - apply Forall_app in Hcs as [Hcs Hc]. inversion Hc; subst.
    rewrite checkPath_snoc by assumption. rewrite chain_snoc.
    cbn [checkEach]. unfold bind.
    destruct (checkOne env uid gid Execute (rooted (cs ++ [c])) h) as [h1 [[]|e|]];
      try reflexivity.
    apply IH. assumption.
Qed.

Lemma checkOne_Stat uid gid mode p fi h :
  Stat env p fi ->
  checkOne env uid gid mode p h
  = (h ++ [EvLstat p],
     if refused uid gid mode fi
     then Err (EPermission (denial uid gid mode p fi)) else Ok tt).
Proof.
  intros H. unfold checkOne, bind. rewrite (lstat_Stat _ H).
  destruct (refused uid gid mode fi); reflexivity.
Qed.

Lemma checkOne_fst uid gid mode p h :
  fst (checkOne env uid gid mode p h) = h ++ [EvLstat p].
Proof.
  unfold checkOne, bind, lstat.
  destruct (Lstat env h p) as [e|fi]; [reflexivity|].
  destruct (refused uid gid mode fi); reflexivity.
Qed.

Lemma checkOne_not_fuel uid gid mode p h :
  snd (checkOne env uid gid mode p h) <> OutOfFuel.
Proof.
  unfold checkOne, bind, lstat.
  destruct (Lstat env h p) as [e|fi]; [discriminate|].
  destruct (refused uid gid mode fi); discriminate.
Qed.

End CheckChain.

(** ** The scanning loops of the walk *)

Lemma byteAt_app pre x tl : byteAt (pre ++ x :: tl) (length pre) = x.
Proof. unfold byteAt. apply nth_middle. Qed.

Lemma skipSeparators_spec seps :
  forall pre tl fuel,
    allSep seps ->
    match tl with [] => True | x :: _ => IsPathSeparator x = false end ->
    length seps <= fuel ->
    skipSeparators (pre ++ seps ++ tl) (length pre) fuel
    = length pre + length seps.
Proof.
  induction seps as [|s seps IH]; intros pre tl fuel Hs Htl Hf.
  - simpl. rewrite Nat.add_0_r. destruct fuel as [|fuel]; [reflexivity|].
    cbn [skipSeparators]. destruct tl as [|x tl].
    + rewrite app_nil_r, Nat.ltb_irrefl. reflexivity.
    + rewrite byteAt_app, Htl, andb_false_r. reflexivity.
  - inversion Hs as [|? ? Hx Hs']; subst.
    destruct fuel as [|fuel]; [simpl in Hf; lia|].
    cbn [skipSeparators]. rewrite <- !app_comm_cons.
    rewrite byteAt_app, Hx, andb_true_r.
    replace (length pre <? length (pre ++ s :: seps ++ tl)) with true
      by (symmetry; apply Nat.ltb_lt; rewrite length_app; simpl; lia).
    replace (pre ++ s :: seps ++ tl) with ((pre ++ [s]) ++ seps ++ tl)
      by (rewrite <- app_assoc; reflexivity).
    replace (S (length pre)) with (length (pre ++ [s]))
      by (rewrite length_app; simpl; lia).
    rewrite IH; try assumption.
    + rewrite length_app. simpl. lia.
    + simpl in Hf. lia.
Qed.

Lemma skipComponent_spec c :
  forall pre tl fuel,
    noSep c -> atSep tl -> length c <= fuel ->
    skipComponent (pre ++ c ++ tl) (length pre) fuel = length pre + length c.
Proof.
  induction c as [|x c IH]; intros pre tl fuel Hc Htl Hf.
  - simpl. rewrite Nat.add_0_r. destruct fuel as [|fuel]; [reflexivity|].
    cbn [skipComponent]. destruct tl as [|y tl].
    + rewrite app_nil_r, Nat.ltb_irrefl. reflexivity.
    + simpl in Htl. rewrite byteAt_app, Htl, andb_false_r. reflexivity.
  - inversion Hc as [|? ? Hx Hc']; subst.
    destruct fuel as [|fuel]; [simpl in Hf; lia|].
    cbn [skipComponent]. rewrite <- !app_comm_cons.
    rewrite byteAt_app, Hx, andb_true_r.
    replace (length pre <? length (pre ++ x :: c ++ tl)) with true
      by (symmetry; apply Nat.ltb_lt; rewrite length_app; simpl; lia).
    replace (pre ++ x :: c ++ tl) with ((pre ++ [x]) ++ c ++ tl)
      by (rewrite <- app_assoc; reflexivity).
    replace (S (length pre)) with (length (pre ++ [x]))
      by (rewrite length_app; simpl; lia).
    rewrite IH; try assumption.
    + rewrite length_app. simpl. lia.
    + simpl in Hf. lia.
Qed.

Lemma slice_app pre c tl :
  slice (pre ++ c ++ tl) (length pre) (length pre + length c) = c.
Proof.
  unfold slice. rewrite skipn_app, Nat.sub_diag, skipn_all. simpl.
  replace (length pre + length c - length pre) with (length c) by lia.
  rewrite firstn_app, Nat.sub_diag, firstn_all. simpl. apply app_nil_r.
Qed.

Lemma from_app pre tl : from (pre ++ tl) (length pre) = tl.
Proof. unfold from. rewrite skipn_app, Nat.sub_diag, skipn_all. reflexivity. Qed.

Lemma upto_app pre tl : upto (pre ++ tl) (length pre) = pre.
Proof.
  unfold upto. rewrite firstn_app, Nat.sub_diag, firstn_all. simpl.
  apply app_nil_r.
Qed.

(** What the two scans find where the rest of the path is a run of
    separators, a component and a remainder. *)
Lemma scan_component pre seps c tl :
  allSep seps -> noSep c -> c <> [] -> atSep tl ->
  let p := pre ++ seps ++ c ++ tl in
  let start := skipSeparators p (length pre) (length p) in
  let end_ := skipComponent p start (length p) in
  start = length pre + length seps
  /\ end_ = length pre + length seps + length c
  /\ slice p start end_ = c
  /\ from p end_ = tl.
Proof.
  intros Hs Hc Hne Htl p start end_.
  assert (H1 : start = length pre + length seps).
  { subst start p. apply skipSeparators_spec; [assumption| |].
    - destruct c as [|x c]; [contradiction|]. simpl. inversion Hc; assumption.
    - rewrite !length_app. lia. }
  assert (H2 : end_ = length pre + length seps + length c).
  { subst end_. rewrite H1. subst p.
    replace (pre ++ seps ++ c ++ tl) with ((pre ++ seps) ++ c ++ tl)
      by (rewrite <- app_assoc; reflexivity).
    rewrite <- length_app.
    rewrite skipComponent_spec; try assumption; [reflexivity|].
    rewrite !length_app. lia. }
  split; [assumption|]. split; [assumption|].
  rewrite H2, H1. subst p.
  replace (pre ++ seps ++ c ++ tl) with ((pre ++ seps) ++ c ++ tl)
    by (rewrite <- app_assoc; reflexivity).
  rewrite <- length_app. split; [apply slice_app|].
  replace ((pre ++ seps) ++ c ++ tl) with (((pre ++ seps) ++ c) ++ tl)
    by (rewrite <- !app_assoc; reflexivity).
  rewrite <- length_app. apply from_app.
Qed.

(** ** One turn of the loop of the walk *)

Section LoopBody.

Variable env : Env.
Variables (uid : Z) (gi : list Z).
Variables (volLen : nat) (vol : path).


(** The loop is left when the path is used up. *)
Lemma loopBody_end p start dest links h :
  length p <= start ->
  loopBody env uid gi volLen vol (mkWalk p start dest links) h
  = (h, Ok (Break (mkWalk p start dest links))).
Proof.
  intros H. unfold loopBody. cbn [wPath wStart wDest wLinks].
  replace (start <? length p) with false
    by (symmetry; apply Nat.ltb_ge; assumption).
  reflexivity.
Qed.

(** An ordinary component: the check of the prefix it is appended to, then
    its own metadata. *)
Lemma loopBody_ordinary pre seps c tl dest links h :
  allSep seps -> ordinary c -> atSep tl ->
  let p := pre ++ seps ++ c ++ tl in
  loopBody env uid gi volLen vol (mkWalk p (length pre) dest links) h
  = (checkPath env uid gi Execute (addSeparator dest) ;;;
     fi <- lstat env (addSeparator dest ++ c) ;;
     resolve env volLen vol p (length pre + length seps + length c)
       (addSeparator dest ++ c) links fi) h.
Proof.
  intros Hs (Hne & Hc & Hdot & Hdd) Htl p.
  destruct (@scan_component pre _ _ _ Hs Hc Hne Htl) as (H1 & H2 & H3 & H4).
  fold p in H1, H2, H3, H4.
  unfold loopBody. cbn [wPath wStart wDest wLinks]. cbv zeta.
  rewrite H3, H2, H1.
  replace (length pre <? length p) with true.
  2:{ symmetry. apply Nat.ltb_lt. subst p. rewrite !length_app.
      destruct c; [contradiction|]. simpl. lia. }
  cbn [negb].
  replace (length pre + length seps + length c =? length pre + length seps)
    with false.
  2:{ symmetry. apply Nat.eqb_neq. destruct c; [contradiction|]. simpl. lia. }
  rewrite (path_eqb_neq Hdot), (path_eqb_neq Hdd).
  rewrite upto_app. reflexivity.
Qed.

(** The component [.] is passed over. *)
Lemma loopBody_dot pre seps tl dest links h :
  allSep seps -> atSep tl ->
  let p := pre ++ seps ++ str "." ++ tl in
  loopBody env uid gi volLen vol (mkWalk p (length pre) dest links) h
  = (h, Ok (Continue (mkWalk p (length pre + length seps + 1) dest links))).
Proof.
  intros Hs Htl p.
  assert (Hc : noSep (str ".")) by (repeat constructor).
  assert (Hne : str "." <> []) by discriminate.
  destruct (@scan_component pre _ _ _ Hs Hc Hne Htl) as (H1 & H2 & H3 & H4).
  fold p in H1, H2, H3, H4.
  unfold loopBody. cbn [wPath wStart wDest wLinks]. cbv zeta.
  rewrite H3, H2, H1.
  replace (length pre <? length p) with true.
  2:{ symmetry. apply Nat.ltb_lt. subst p. rewrite !length_app. simpl. lia. }
  cbn [negb].
  replace (length pre + length seps + length (str ".") =? length pre + length seps)
    with false by (symmetry; apply Nat.eqb_neq; simpl; lia).
  reflexivity.
Qed.

(** The component [..] changes [dest] only, with no call of the
    environment. *)
Lemma loopBody_dotdot pre seps tl dest links h :
  allSep seps -> atSep tl ->
  let p := pre ++ seps ++ str ".." ++ tl in
  loopBody env uid gi volLen vol (mkWalk p (length pre) dest links) h
  = (h, Ok (Continue (mkWalk p (length pre + length seps + 2)
                        (dotdot volLen dest) links))).
Proof.
  intros Hs Htl p.
  assert (Hc : noSep (str "..")) by (repeat constructor).
  assert (Hne : str ".." <> []) by discriminate.
  destruct (@scan_component pre _ _ _ Hs Hc Hne Htl) as (H1 & H2 & H3 & H4).
  fold p in H1, H2, H3, H4.
  unfold loopBody. cbn [wPath wStart wDest wLinks]. cbv zeta.
  rewrite H3, H2, H1.
  replace (length pre <? length p) with true.
  2:{ symmetry. apply Nat.ltb_lt. subst p. rewrite !length_app. simpl. lia. }
  cbn [negb].
  replace (length pre + length seps + length (str "..") =? length pre + length seps)
    with false by (symmetry; apply Nat.eqb_neq; simpl; lia).
  reflexivity.
Qed.

End LoopBody.

(** ** Termination *)

Section Termination.

Variable env : Env.

Lemma checkPath_returned uid gid mode p h :
  returned (snd (checkPath env uid gid mode p h)).
Proof.
  remember (length p) as n eqn:Hn. revert mode p h Hn.
  induction n as [n IH] using lt_wf_ind. intros mode p h Hn.
  destruct p as [|x p]; [exact I|].
  rewrite checkPath_unfold by discriminate.
  unfold bind, lstat. destruct (Lstat env h (x :: p)) as [e|fi]; [exact I|].
  destruct (refused uid gid mode fi); [exact I|].
  destruct (LastIndexSep (x :: p) <? 0)%Z eqn:E; [exact I|].
  apply Z.ltb_ge in E. pose proof (LastIndexSep_bound (x :: p)) as Hb.
  eapply IH; [|reflexivity].
  unfold upto. rewrite length_firstn. subst n. lia.
Qed.

Lemma skipSeparators_ge s fuel : forall i, i <= skipSeparators s i fuel.
Proof.
  induction fuel as [|fuel IH]; intros i; simpl; [lia|].
  destruct ((i <? length s) && IsPathSeparator (byteAt s i)); [|lia].
  specialize (IH (S i)). lia.
Qed.

Lemma skipComponent_ge s fuel : forall i, i <= skipComponent s i fuel.
Proof.
  induction fuel as [|fuel IH]; intros i; simpl; [lia|].
  destruct ((i <? length s) && negb (IsPathSeparator (byteAt s i))); [|lia].
  specialize (IH (S i)). lia.
Qed.

Section Loop.

Variables (uid : Z) (gi : list Z).
Variables (volLen : nat) (vol : path).

Lemma resolve_progress st p end_ dest fi h :
  p = wPath st -> wStart st < length (wPath st) /\ wStart st < end_ ->
  match resolve env volLen vol p end_ dest (wLinks st) fi h with
  | (_, Ok c) => progress st c
  | (_, Err _) => True
  | (_, OutOfFuel) => False
  end.
Proof.
  intros Hp (Hlt & He). unfold resolve.
  destruct (Z.land (fiMode fi) ModeSymlink =? 0)%Z.
  - destruct (negb (IsDir fi) && (end_ <? length p)); simpl; [exact I|].
    auto.
  - cbv zeta. destruct (255 <? S (wLinks st)) eqn:E; [exact I|].
    apply Nat.ltb_ge in E.
    unfold bind, readlink. destruct (Readlink env h dest) as [e|link]; [exact I|].
    destruct ((0 <? length link) && IsPathSeparator (byteAt link 0)); simpl; auto.
Qed.

(** Every turn of the loop returns, and one that goes on makes progress. *)
Lemma loopBody_progress st h :
  match loopBody env uid gi volLen vol st h with
  | (_, Ok c) => progress st c
  | (_, Err _) => True
  | (_, OutOfFuel) => False
  end.
Proof.
  unfold loopBody.
  destruct (wStart st <? length (wPath st)) eqn:Hlt; [|exact I].
  apply Nat.ltb_lt in Hlt. cbn [negb]. cbv zeta.
  set (start := skipSeparators (wPath st) (wStart st) (length (wPath st))).
  set (end_ := skipComponent (wPath st) start (length (wPath st))).
  assert (H1 : wStart st <= start) by apply skipSeparators_ge.
  assert (H2 : start <= end_) by apply skipComponent_ge.
  destruct (end_ =? start) eqn:E; [exact I|]. apply Nat.eqb_neq in E.
  destruct (path_eqb (slice (wPath st) start end_) (str ".")).
  { simpl. repeat split; lia. }
  destruct (path_eqb (slice (wPath st) start end_) (str "..")).
  { simpl. repeat split; lia. }
  unfold bind at 1.
  pose proof (checkPath_returned uid gi 1
    (upto (addSeparator (wDest st) ++ slice (wPath st) start end_)
       (length (addSeparator (wDest st)))) h) as Hc.
  destruct (checkPath env uid gi 1 _ h) as [h1 [[]|e|]]; [|exact I|exact Hc].
  unfold bind, lstat. destruct (Lstat env h1 _) as [e|fi]; [exact I|].
  apply resolve_progress; [reflexivity|lia].
Qed.

Lemma walkLinks_unfold budget fuel st h :
  walkLinks env uid gi volLen vol budget (S fuel) st h
  = (c <- loopBody env uid gi volLen vol st ;;
     match c with
     | Break st' => ret (wDest st')
     | Continue st' => walkLinks env uid gi volLen vol budget fuel st'
     | Followed st' =>
         match budget with
         | O => outOfFuel
         | S budget' =>
             walkLinks env uid gi volLen vol budget' (S (length (wPath st'))) st'
         end
     end) h.
Proof. destruct budget; reflexivity. Qed.

(** The fuel and the budget of links that [access] gives are enough. *)
Lemma walkLinks_returned budget :
  forall fuel st h,
    length (wPath st) - wStart st < fuel ->
    256 <= wLinks st + budget ->
    returned (snd (walkLinks env uid gi volLen vol budget fuel st h)).
Proof.
  induction budget as [|budget IHb].
  - induction fuel as [|fuel IHf]; intros st h Hf Hl; [lia|].
    rewrite walkLinks_unfold. unfold bind.
    pose proof (loopBody_progress st h) as Hp.
    destruct (loopBody env uid gi volLen vol st h) as [h1 [[st'|st'|st']|e|]];
      simpl in Hp; try exact I; try contradiction.
    + destruct Hp as (Hpath & Hlt & Hs & Hlk). apply IHf; [rewrite Hpath|]; lia.
    + lia.
  - induction fuel as [|fuel IHf]; intros st h Hf Hl; [lia|].
    rewrite walkLinks_unfold. unfold bind.
    pose proof (loopBody_progress st h) as Hp.
    destruct (loopBody env uid gi volLen vol st h) as [h1 [[st'|st'|st']|e|]];
      simpl in Hp; try exact I; try contradiction.
    + destruct Hp as (Hpath & Hlt & Hs & Hlk). apply IHf; [rewrite Hpath|]; lia.
    + apply IHb; lia.
Qed.

End Loop.

Lemma bind_returned {A B} (m : M A) (k : A -> M B) h :
  returned (snd (m h)) ->
  (forall a h1, returned (snd (k a h1))) ->
  returned (snd (bind m k h)).
Proof.
  intros Hm Hk. unfold bind. destruct (m h) as [h1 [a|e|]]; auto.
Qed.

Lemma lift_returned {A} (r : oserror + A) h : returned (snd (lift r h)).
Proof. destruct r; exact I. Qed.

Lemma atoiAll_returned gs h : returned (snd (atoiAll env gs h)).
Proof.
  revert h. induction gs as [|g gs IH]; intros h; [exact I|].
  cbn [atoiAll]. apply bind_returned; [apply lift_returned|].
  intros i h1. apply bind_returned; [apply IH|]. intros; exact I.
Qed.

Lemma access_returned user uid mode p h :
  returned (snd (access env user uid mode p h)).
Proof.
  unfold access.
  apply bind_returned; [apply lift_returned|]. intros gs h1.
  apply bind_returned; [apply atoiAll_returned|]. intros gi h2.
  apply bind_returned; [apply lift_returned|]. intros q h3.
  apply bind_returned; [|intros; apply checkPath_returned].
  apply walkLinks_returned; cbn [wPath wStart wLinks]; lia.
Qed.

End Termination.

(** ** The bit test *)

Lemma land_includes a b :
  Z.land a b = b <->
  (forall n, (0 <= n)%Z -> Z.testbit b n = true -> Z.testbit a n = true).
Proof.
  split.
  - intros H n Hn Hb. rewrite <- H, Z.land_spec in Hb.
    apply andb_true_iff in Hb. tauto.
  - intros H. apply Z.bits_inj'. intros n Hn. rewrite Z.land_spec.
    destruct (Z.testbit b n) eqn:E.
    + rewrite (H n Hn E). reflexivity.
    + apply andb_false_r.
Qed.

Lemma rwx_bit mode n :
  rwx mode -> (0 <= n)%Z -> Z.testbit mode n = true -> (n < 3)%Z.
Proof.
  intros [H0 H7] Hn Hb.
  destruct (Z.ltb_spec n 3) as [|Hge]; [assumption|].
  assert (H : Z.testbit mode n = false); [|congruence].
  destruct (Z.eq_dec mode 0) as [->|Hz]; [apply Z.bits_0|].
  apply Z.bits_above_log2; [assumption|].
  assert (Z.log2 mode < 3)%Z; [|lia].
  apply Z.log2_lt_pow2; simpl; lia.
Qed.

Lemma shl32_rwx mode k :
  rwx mode -> (0 <= k <= 6)%Z -> shl32 mode k = Z.shiftl mode k.
Proof.
  intros [H0 H7] Hk. unfold shl32, wrap32. apply Z.mod_small.
  rewrite Z.shiftl_mul_pow2 by lia. split; [apply Z.mul_nonneg_nonneg; lia|].
  assert (2 ^ k <= 2 ^ 6)%Z by (apply Z.pow_le_mono_r; lia).
  assert (0 < 2 ^ k)%Z by (apply Z.pow_pos_nonneg; lia).
  change (2 ^ 32)%Z with 4294967296%Z. change (2 ^ 6)%Z with 64%Z in *. nia.
Qed.

(** The test of the code on the shifted mode is the test of the class of
    bits against the mode. *)
Lemma class_test fm mode k :
  rwx mode -> (0 <= k <= 6)%Z ->
  Z.land fm (shl32 mode k) = shl32 mode k
  <-> includes (Z.land (Z.shiftr fm k) 7) mode.
Proof.
  intros Hm Hk. rewrite (shl32_rwx Hm Hk). unfold includes.
  rewrite !land_includes. split.
  - intros H n Hn Hb. rewrite Z.land_spec, Z.shiftr_spec by assumption.
    pose proof (rwx_bit Hm Hn Hb) as H3.
    specialize (H (n + k)%Z ltac:(lia)).
    rewrite Z.shiftl_spec, Z.add_simpl_r in H by lia.
    rewrite (H Hb). change 7%Z with (Z.ones 3).
    rewrite Z.ones_spec_low by lia. reflexivity.
  - intros H n Hn Hb. rewrite Z.shiftl_spec in Hb by assumption.
    destruct (Z.ltb_spec n k) as [Hlt|Hge].
    + rewrite Z.testbit_neg_r in Hb by lia. discriminate.
    + specialize (H (n - k)%Z ltac:(lia) Hb).
      rewrite Z.land_spec, Z.shiftr_spec, Z.sub_add in H by lia.
      apply andb_true_iff in H. tauto.
Qed.

Lemma other_test fm mode :
  rwx mode -> Z.land fm mode = mode <-> includes (otherBits fm) mode.
Proof.
  intros Hm. unfold includes, otherBits. rewrite !land_includes. split.
  - intros H n Hn Hb. rewrite Z.land_spec, (H n Hn Hb).
    change 7%Z with (Z.ones 3).
    rewrite Z.ones_spec_low by (pose proof (rwx_bit Hm Hn Hb); lia).
    reflexivity.
  - intros H n Hn Hb. specialize (H n Hn Hb). rewrite Z.land_spec in H.
    apply andb_true_iff in H. tauto.
Qed.

Lemma contains_In a i : contains a i = true <-> In i a.
Proof.
  induction a as [|e a IH]; simpl; [split; [discriminate|contradiction]|].
  destruct (Z.eqb_spec e i) as [->|Hne].
  - split; auto.
  - rewrite IH. split; [auto|]. intros [H|H]; [contradiction|assumption].
Qed.

(** For a principal other than the superuser the code refuses exactly
    where the rule of the specification does not grant. *)
Lemma refused_granted uid gid mode fi :
  plainUid uid -> rwx mode ->
  refused uid gid mode fi = false <-> granted uid gid mode fi.
Proof.
  intros Hu Hm. unfold refused, granted. cbv zeta.
  assert (H6 : (0 <= 6 <= 6)%Z) by lia. assert (H3 : (0 <= 3 <= 6)%Z) by lia.
  pose proof (class_test (fiMode fi) Hm H6) as Ho.
  pose proof (class_test (fiMode fi) Hm H3) as Hg.
  pose proof (other_test (fiMode fi) Hm) as Hx.
  fold (ownerBits (fiMode fi)) in Ho. fold (groupBits (fiMode fi)) in Hg.
  assert (Hw : wrap32 uid = uid).
  { unfold wrap32. apply Z.mod_small. unfold plainUid in Hu. lia. }
  rewrite Hw.
  replace (uid =? 0)%Z with false
    by (symmetry; apply Z.eqb_neq; unfold plainUid in Hu; lia).
  cbn [negb andb].
  destruct (Z.eqb_spec (Z.land (fiMode fi) mode) mode) as [E1|E1];
  destruct (Z.eqb_spec (Z.land (fiMode fi) (shl32 mode 6)) (shl32 mode 6)) as [E2|E2];
  destruct (Z.eqb_spec (Z.land (fiMode fi) (shl32 mode 3)) (shl32 mode 3)) as [E3|E3];
  destruct (Z.eqb_spec uid (fiUid fi)) as [E4|E4];
  destruct (contains gid (fiGid fi)) eqn:E5;
  cbn [negb andb orb];
  try (apply contains_In in E5);
  try (assert (Hni : ~ In (fiGid fi) gid)
         by (rewrite <- contains_In; congruence));
  split; intros Hyp; try reflexivity; try discriminate; tauto.
Qed.

Lemma refused_root gid mode fi : refused 0 gid mode fi = false.
Proof. reflexivity. Qed.

(** ** What a denial carries *)

Section Denials.

Variable env : Env.

Lemma checkOne_denial uid gid mode p h h' e :
  checkOne env uid gid mode p h = (h', Err (EPermission e)) ->
  exists fi, Lstat env h p = inr fi /\ refused uid gid mode fi = true
             /\ e = denial uid gid mode p fi.
Proof.
  unfold checkOne, bind, lstat. destruct (Lstat env h p) as [c|fi].
  - discriminate.
  - destruct (refused uid gid mode fi) eqn:E; [|discriminate].
    unfold fail. intros H. injection H as _ <-. eauto.
Qed.

Lemma checkEach_denial uid gid ps :
  forall h h' e,
    checkEach env uid gid ps h = (h', Err (EPermission e)) ->
    In (File e) ps /\ WantMode e = Execute /\ Uid e = uid /\ Gid e = gid.
Proof.
  induction ps as [|p ps IH]; intros h h' e; [discriminate|].
  cbn [checkEach]. unfold bind.
  destruct (checkOne env uid gid Execute p h) as [h1 [[]|e1|]] eqn:E.
  - intros H. apply IH in H. simpl. tauto.
  - intros H. injection H as <- ->. apply checkOne_denial in E as (fi & _ & _ & ->).
    simpl. auto.
  - discriminate.
Qed.

(** The superuser is never refused. *)
Lemma checkOne_root gid mode p h :
  checkOne env 0 gid mode p h
  = (h ++ [EvLstat p],
     match Lstat env h p with inl c => Err (EExternal c) | inr _ => Ok tt end).
Proof.
  unfold checkOne, bind, lstat. destruct (Lstat env h p); reflexivity.
Qed.

Lemma checkEach_root gid ps :
  forall h,
    (forall h0 q, In q ps -> exists fi, Lstat env h0 q = inr fi) ->
    checkEach env 0 gid ps h = (h ++ map EvLstat ps, Ok tt).
Proof.
  induction ps as [|p ps IH]; intros h H.
  - simpl. rewrite app_nil_r. reflexivity.
  - cbn [checkEach]. unfold bind. rewrite checkOne_root.
    destruct (H h p (or_introl eq_refl)) as (fi & ->).
    rewrite IH by (intros; apply H; right; assumption).
    simpl. rewrite <- app_assoc. reflexivity.
Qed.

Lemma checkPath_root_no_denial gid mode p h h' e :
  checkPath env 0 gid mode p h <> (h', Err (EPermission e)).
Proof.
  remember (length p) as n eqn:Hn. revert mode p h Hn.
  induction n as [n IH] using lt_wf_ind. intros mode p h Hn.
  destruct p as [|x p]; [discriminate|].
  rewrite checkPath_unfold by discriminate.
  unfold bind, lstat. destruct (Lstat env h (x :: p)) as [c|fi]; [discriminate|].
  rewrite refused_root.
  destruct (LastIndexSep (x :: p) <? 0)%Z eqn:E; [discriminate|].
  apply Z.ltb_ge in E. pose proof (LastIndexSep_bound (x :: p)) as Hb.
  eapply IH; [|reflexivity].
  unfold upto. rewrite length_firstn. subst n. lia.
Qed.

End Denials.

(** ** The check of one component (claims C2 and C4) *)

(** C4, as the code has it: for every principal other than the superuser
    (uid in the range of uint32, not 0), every mode of Read, Write and
    Execute, and every metadata: the component is granted (and checkPath goes
    on to its ancestors with Execute) iff the owner bits include the mode and
    the uid is the file's owner, or the group bits include it and the file's
    gid is one of the principal's, or the other bits include it; otherwise
    checkPath returns a PermissionError with the path, the file's mode, uid
    and gid, the principal's uid and gids and the mode asked.  Every
    PermissionError of checkPath is about the path with the mode asked or
    about an ancestor with Execute. *)
Theorem C4_component_check :
  forall env uid gid mode cs c fi h,
    plainUid uid -> rwx mode -> Forall noSep cs -> noSep c ->
    Lstat env h (rooted (cs ++ [c])) = inr fi ->
    (granted uid gid mode fi ->
     checkPath env uid gid mode (rooted (cs ++ [c])) h
     = checkPath env uid gid Execute (rooted cs)
         (h ++ [EvLstat (rooted (cs ++ [c]))]))
    /\ (~ granted uid gid mode fi ->
        checkPath env uid gid mode (rooted (cs ++ [c])) h
        = (h ++ [EvLstat (rooted (cs ++ [c]))],
           Err (EPermission
                  {| File := rooted (cs ++ [c]);
                     FileMode := fiMode fi;
                     FileUid := fiUid fi;
                     FileGid := fiGid fi;
                     Uid := uid;
                     Gid := gid;
                     WantMode := mode |})))
    /\ (forall h' e,
          checkPath env uid gid mode (rooted (cs ++ [c])) h
          = (h', Err (EPermission e)) ->
          Uid e = uid /\ Gid e = gid
          /\ ((File e = rooted (cs ++ [c]) /\ WantMode e = mode)
              \/ (In (File e) (chain cs) /\ WantMode e = Execute))).
Proof.
  intros env uid gid mode cs c fi h Hu Hm Hcs Hc HL.
  pose proof (refused_granted gid fi Hu Hm) as Hrg.
  split; [|split].
  - intros Hg. apply Hrg in Hg.
    rewrite checkPath_snoc by assumption.
    unfold checkOne, bind, lstat. rewrite HL, Hg. reflexivity.
  - intros Hg.
    assert (Hr : refused uid gid mode fi = true).
    { destruct (refused uid gid mode fi); [reflexivity|].
      exfalso. apply Hg, Hrg. reflexivity. }
    rewrite checkPath_snoc by assumption.
    unfold checkOne, bind, lstat. rewrite HL, Hr. reflexivity.
  - intros h' e. rewrite checkPath_chain by assumption. unfold bind.
    destruct (checkOne env uid gid mode (rooted (cs ++ [c])) h)
      as [h1 [[]|e1|]] eqn:E.
    + intros H. apply checkEach_denial in H. tauto.
    + intros H. injection H as <- ->.
      apply checkOne_denial in E as (fi' & _ & _ & ->). simpl. auto.
    + discriminate.
Qed.

(** C2, as the code has it: the check special-cases the superuser.  For
    uid 0 checkPath never returns a PermissionError, yet it makes every
    metadata query: where Lstat succeeds it asks for the path and each of its
    ancestors above the root.  For every other principal a check that
    succeeds implies the owner/group/other bit test on the path. *)
Theorem C2_superuser :
  forall env gid mode,
    (forall p h h' e,
        checkPath env 0 gid mode p h <> (h', Err (EPermission e)))
    /\ (forall cs c h,
          Forall noSep cs -> noSep c ->
          (forall h0 q, In q (chain (cs ++ [c])) ->
                        exists fi, Lstat env h0 q = inr fi) ->
          checkPath env 0 gid mode (rooted (cs ++ [c])) h
          = (h ++ map EvLstat (chain (cs ++ [c])), Ok tt))
    /\ (forall uid cs c fi h,
          plainUid uid -> rwx mode -> Forall noSep cs -> noSep c ->
          Lstat env h (rooted (cs ++ [c])) = inr fi ->
          snd (checkPath env uid gid mode (rooted (cs ++ [c])) h) = Ok tt ->
          granted uid gid mode fi).
Proof.
  intros env gid mode. split; [|split].
  - intros p h h' e. apply checkPath_root_no_denial.
  - intros cs c h Hcs Hc HL. rewrite checkPath_chain by assumption.
    rewrite chain_snoc in *. unfold bind. rewrite checkOne_root.
    destruct (HL h (rooted (cs ++ [c])) (or_introl eq_refl)) as (fi & ->).
    rewrite checkEach_root by (intros; apply HL; right; assumption).
    simpl. rewrite <- app_assoc. reflexivity.
  - intros uid cs c fi h Hu Hm Hcs Hc HL Hok.
    apply (refused_granted gid fi Hu Hm).
    rewrite checkPath_snoc in Hok by assumption.
    unfold checkOne, bind, lstat in Hok. rewrite HL in Hok.
    destruct (refused uid gid mode fi); [discriminate|reflexivity].
Qed.

(** ** Termination (claim C9) *)

(** C9: for every environment (every answer of Lstat and Readlink, which
    may change from call to call), every principal, mode and path, the check
    comes to an end with nil or an error; every turn of the loop of the walk
    comes to an end, and a turn after which the loop goes on has moved start
    forward in the same path or has followed one more link, of at most 255. *)
Theorem C9_walk_terminates :
  forall env,
    (forall user uid mode p h,
        returned (snd (access env user uid mode p h)))
    /\ (forall uid mode p h, returned (snd (AccessUid env uid mode p h)))
    /\ (forall name mode p h, returned (snd (AccessUsername env name mode p h)))
    /\ (forall uid gi volLen vol st h,
          match loopBody env uid gi volLen vol st h with
          | (_, Ok c) => progress st c
          | (_, Err _) => True
          | (_, OutOfFuel) => False
          end).
Proof.
  intros env. repeat split.
  - intros. apply access_returned.
  - intros. unfold AccessUid. apply bind_returned; [apply lift_returned|].
    intros. apply access_returned.
  - intros. unfold AccessUsername. apply bind_returned; [apply lift_returned|].
    intros. apply bind_returned; [apply lift_returned|].
    intros. apply access_returned.
  - intros. apply loopBody_progress.
Qed.

(** ** The walk along a path without links *)

Lemma byteAt_last a x : byteAt (a ++ [x]) (length (a ++ [x]) - 1) = x.
Proof.
  rewrite length_app. simpl.
  replace (length a + 1 - 1) with (length a) by lia. apply byteAt_app.
Qed.

Lemma rooted_last cs c x :
  rooted (cs ++ [c ++ [x]]) = (rooted cs ++ PathSeparator :: c) ++ [x].
Proof. rewrite rooted_snoc, <- app_assoc. reflexivity. Qed.

Lemma ordinary_last c : ordinary c ->
  exists c' x, c = c' ++ [x] /\ IsPathSeparator x = false.
Proof.
  intros (Hne & Hc & _). destruct (exists_last Hne) as (c' & x & ->).
  exists c', x. split; [reflexivity|].
  apply Forall_app in Hc as [_ Hx]. inversion Hx; assumption.
Qed.

Lemma addSeparator_root : addSeparator pathSeparator = pathSeparator.
Proof. reflexivity. Qed.

Lemma addSeparator_rooted cs c :
  ordinary c ->
  addSeparator (rooted (cs ++ [c])) = rooted (cs ++ [c]) ++ pathSeparator.
Proof.
  intros Hc. destruct (ordinary_last Hc) as (c' & x & -> & Hx).
  unfold addSeparator. rewrite rooted_last, byteAt_last, Hx.
  replace (0 <? length ((rooted cs ++ PathSeparator :: c') ++ [x])) with true.
  - reflexivity.
  - symmetry. apply Nat.ltb_lt. rewrite length_app. simpl. lia.
Qed.

Lemma addSeparator_destOf done :
  Forall ordinary done ->
  addSeparator (destOf done) = rooted done ++ pathSeparator.
Proof.
  intros H. destruct done as [|c done] using rev_ind.
  - reflexivity.
  - apply Forall_app in H as [_ Hc]. inversion Hc; subst.
    replace (destOf (done ++ [c])) with (rooted (done ++ [c]))
      by (destruct done; reflexivity).
    apply addSeparator_rooted. assumption.
Qed.

Lemma destOf_snoc done c : destOf (done ++ [c]) = rooted (done ++ [c]).
Proof. destruct done; reflexivity. Qed.

Lemma rooted_sep cs : rooted (cs ++ [[]]) = rooted cs ++ pathSeparator.
Proof. apply rooted_snoc. Qed.

Lemma ordinary_noSep cs : Forall ordinary cs -> Forall noSep cs.
Proof. apply Forall_impl. intros c H. apply H. Qed.

(** [checkPath] on a rooted path with a separator after it. *)
Lemma checkPath_slash env uid gid mode done h :
  Forall noSep done ->
  checkPath env uid gid mode (rooted done ++ pathSeparator) h
  = (checkOne env uid gid mode (rooted done ++ pathSeparator) ;;;
     checkEach env uid gid (chain done)) h.
Proof.
  intros H. rewrite <- rooted_sep. apply checkPath_chain; [assumption|].
  constructor.
Qed.

Section Plain.

Variable env : Env.
Variables (uid : Z) (gi : list Z).

Lemma resolve_plain volLen vol p end_ dest links fi h :
  IsSymlink fi = false ->
  IsDir fi = true \/ length p <= end_ ->
  resolve env volLen vol p end_ dest links fi h
  = (h, Ok (Continue (mkWalk p end_ dest links))).
Proof.
  intros Hs Hd. unfold resolve. unfold IsSymlink in Hs.
  apply negb_false_iff in Hs. rewrite Hs.
  destruct Hd as [Hd|Hd].
  - rewrite Hd. reflexivity.
  - replace (end_ <? length p) with false
      by (symmetry; apply Nat.ltb_ge; assumption).
    rewrite andb_false_r. reflexivity.
Qed.

(** Checks that all pass leave the trace of their calls. *)
Lemma checkEach_pass (meta : path -> FileInfo) ps :
  forall h,
    (forall q, In q ps ->
               Stat env q (meta q) /\ refused uid gi Execute (meta q) = false) ->
    checkEach env uid gi ps h = (h ++ map EvLstat ps, Ok tt).
Proof.
  induction ps as [|p ps IH]; intros h H.
  - simpl. rewrite app_nil_r. reflexivity.
  - destruct (H p (or_introl eq_refl)) as [Hs Hr].
    cbn [checkEach]. unfold bind. rewrite (checkOne_Stat _ _ _ _ Hs), Hr.
    rewrite IH by (intros; apply H; right; assumption).
    simpl. rewrite <- app_assoc. reflexivity.
Qed.

(** Where the metadata is there, checks all pass, or one is refused and
    the result is a denial. *)
Lemma checkEach_result (meta : path -> FileInfo) ps :
  forall h,
    (forall q, In q ps -> Stat env q (meta q)) ->
    (checkEach env uid gi ps h = (h ++ map EvLstat ps, Ok tt)
     /\ forall q, In q ps -> refused uid gi Execute (meta q) = false)
    \/ ((exists h' e, checkEach env uid gi ps h = (h', Err (EPermission e)))
        /\ exists q, In q ps /\ refused uid gi Execute (meta q) = true).
Proof.
  induction ps as [|p ps IH]; intros h H.
  - left. split; [simpl; rewrite app_nil_r; reflexivity|]. intros q [].
  - cbn [checkEach]. unfold bind.
    rewrite (checkOne_Stat _ _ _ _ (H p (or_introl eq_refl))).
    destruct (refused uid gi Execute (meta p)) eqn:Hr.
    + right. split; [eauto|]. exists p. split; [left; reflexivity|assumption].
    + destruct (IH (h ++ [EvLstat p])) as [[Hok Hall]|[(h' & e & He) (q & Hq & Hqr)]].
      * intros; apply H; right; assumption.
      * left. split.
        -- rewrite Hok. simpl. rewrite <- app_assoc. reflexivity.
        -- intros q [<-|Hq]; auto.
      * right. split; [eauto|]. exists q. split; [right; assumption|assumption].
Qed.

(** The turn of the loop for an ordinary component [c] that is no link,
    after the components [done], in a tree that answers: the prefix with a
    separator and its ancestors are checked, then the metadata of the new
    path is fetched; a check refused ends the walk with a denial. *)
Lemma turn_plain (meta : path -> FileInfo) volLen vol
    pre seps c t done links m0 h :
  Forall ordinary done -> ordinary c -> allSep seps ->
  Stat env (rooted done ++ pathSeparator) m0 ->
  (forall q, In q (chain done) -> Stat env q (meta q)) ->
  Stat env (rooted (done ++ [c])) (meta (rooted (done ++ [c]))) ->
  IsSymlink (meta (rooted (done ++ [c]))) = false ->
  (t <> [] -> IsDir (meta (rooted (done ++ [c]))) = true) ->
  let p := pre ++ seps ++ c ++ rooted t in
  let st := mkWalk p (length pre) (destOf done) links in
  (loopBody env uid gi volLen vol st h
   = (h ++ map EvLstat ((rooted done ++ pathSeparator) :: chain done
                        ++ [rooted (done ++ [c])]),
      Ok (Continue (mkWalk p (length pre + length seps + length c)
                      (rooted (done ++ [c])) links)))
   /\ refused uid gi Execute m0 = false
   /\ forall q, In q (chain done) -> refused uid gi Execute (meta q) = false)
  \/ ((exists h' e, loopBody env uid gi volLen vol st h
                    = (h', Err (EPermission e)))
      /\ (refused uid gi Execute m0 = true
          \/ exists q, In q (chain done)
                       /\ refused uid gi Execute (meta q) = true)).
Proof.
  intros Hdone Hc Hs H0 Hch H1 Hsym Hdir p st.
  assert (Hat : atSep (rooted t)) by (destruct t; [exact I|reflexivity]).
  set (R := loopBody env uid gi volLen vol st h).
  assert (HR : R = (checkOne env uid gi Execute (rooted done ++ pathSeparator) ;;;
                    checkEach env uid gi (chain done) ;;;
                    fi <- lstat env (rooted (done ++ [c])) ;;
                    resolve env volLen vol p
                      (length pre + length seps + length c)
                      (rooted (done ++ [c])) links fi) h).
  { subst R st p.
    rewrite (@loopBody_ordinary env uid gi volLen vol pre seps c (rooted t)
               (destOf done) links h Hs Hc Hat).
    rewrite (addSeparator_destOf Hdone).
    replace ((rooted done ++ pathSeparator) ++ c) with (rooted (done ++ [c]))
      by (rewrite rooted_snoc, <- app_assoc; reflexivity).
    unfold bind at 1.
    rewrite checkPath_slash by (apply ordinary_noSep; assumption).
    unfold bind.
    destruct (checkOne env uid gi Execute (rooted done ++ pathSeparator) h)
      as [h1 [[]|e|]]; reflexivity. }
  clearbody R. subst R.
  pose proof (checkOne_Stat uid gi Execute h H0) as E0.
  destruct (refused uid gi Execute m0) eqn:Hr0.
  { right. rewrite (@bind_err _ _ _ _ _ _ _ E0). split; [eauto|]. left. reflexivity. }
  rewrite (@bind_ok _ _ _ _ _ _ _ E0).
  destruct (checkEach_result meta (chain done)
              (h ++ [EvLstat (rooted done ++ pathSeparator)]) Hch)
    as [[Hok Hall]|[(h' & e & He) Hq]].
  2:{ right. rewrite (@bind_err _ _ _ _ _ _ _ He). split; [eauto|]. right. assumption. }
  left. rewrite (@bind_ok _ _ _ _ _ _ _ Hok). split; [|split; [reflexivity|assumption]].
  rewrite (@bind_ok _ _ _ _ _ _ _ (lstat_Stat _ H1)).
  rewrite resolve_plain.
  - f_equal. cbn [map]. rewrite map_app. cbn [map].
    rewrite <- !app_assoc. reflexivity.
  - assumption.
  - destruct t as [|c' t].
    + right. subst p. cbn [rooted]. rewrite !length_app. simpl. lia.
    + left. apply Hdir. discriminate.
Qed.

End Plain.

Section PlainWalk.

Variable env : Env.
Variables (uid : Z) (gi : list Z).
Variable meta : path -> FileInfo.
Variables (volLen : nat) (vol : path).

Lemma firstn_app_le {A} (a b : list A) k :
  k <= length a -> firstn k (a ++ b) = firstn k a.
Proof.
  intros H. rewrite firstn_app.
  replace (k - length a) with 0 by lia. simpl. apply app_nil_r.
Qed.

Lemma firstn_snoc {A} (a : list A) x b :
  firstn (S (length a)) (a ++ x :: b) = a ++ [x].
Proof.
  rewrite firstn_app. replace (S (length a) - length a) with 1 by lia.
  rewrite firstn_all2 by lia. reflexivity.
Qed.

Lemma plainTree_slash done c t :
  plainTree env meta (done ++ c :: t) ->
  Stat env (rooted done ++ pathSeparator) (meta (destOf done)).
Proof.
  intros [Hroot H]. destruct done as [|x d] using rev_ind; [exact Hroot|].
  clear IHd. rewrite destOf_snoc.
  specialize (H (length d)). rewrite <- app_assoc in H. simpl app in H.
  rewrite firstn_snoc in H.
  destruct H as (_ & _ & H); [rewrite length_app; simpl; lia|].
  apply H. rewrite length_app. simpl. lia.
Qed.

Lemma plainTree_chain done todo q :
  plainTree env meta (done ++ todo) -> In q (chain done) ->
  Stat env q (meta q).
Proof.
  intros [_ H] Hq. apply in_chain in Hq as (k & Hk & ->).
  specialize (H k). rewrite firstn_app_le in H by lia.
  apply H. rewrite length_app. lia.
Qed.

Lemma plainTree_next done c t :
  plainTree env meta (done ++ c :: t) ->
  Stat env (rooted (done ++ [c])) (meta (rooted (done ++ [c])))
  /\ IsSymlink (meta (rooted (done ++ [c]))) = false
  /\ (t <> [] -> IsDir (meta (rooted (done ++ [c]))) = true).
Proof.
  intros [_ H]. specialize (H (length done)). rewrite firstn_snoc in H.
  destruct H as (H1 & H2 & H3); [rewrite length_app; simpl; lia|].
  split; [assumption|]. split; [assumption|]. intros Ht. apply H3.
  rewrite length_app. destruct t; [contradiction|]. simpl. lia.
Qed.

(** The loop of the walk over components that are no links: it ends with
    the whole path as [dest] and the trace [walkTrace], or with a denial
    where a check is refused. *)
Lemma walk_plain todo :
  forall done pre seps links budget fuel h,
    Forall ordinary (done ++ todo) -> allSep seps ->
    (todo = [] -> seps = []) -> length todo < fuel ->
    plainTree env meta (done ++ todo) ->
    let st := mkWalk (pre ++ seps ++ tailPath todo) (length pre)
                (destOf done) links in
    (walkLinks env uid gi volLen vol budget fuel st h
     = (h ++ map EvLstat (walkTrace done todo), Ok (destOf (done ++ todo)))
     /\ walkPasses uid gi meta done todo)
    \/ ((exists h' e, walkLinks env uid gi volLen vol budget fuel st h
                      = (h', Err (EPermission e)))
        /\ walkFails uid gi meta done todo).
Proof.
  induction todo as [|c t IH];
    intros done pre seps links budget fuel h Hord Hs Hseps Hfuel Htree st.
  - left. split; [|intros Hne; contradiction].
    destruct fuel as [|fuel]; [simpl in Hfuel; lia|].
    rewrite walkLinks_unfold. subst st. rewrite (Hseps eq_refl).
    erewrite bind_ok.
    2:{ apply loopBody_end. simpl. rewrite !app_nil_r. lia. }
    simpl. rewrite !app_nil_r. reflexivity.
  - destruct fuel as [|fuel]; [simpl in Hfuel; lia|].
    assert (Hdone : Forall ordinary done) by (apply Forall_app in Hord; tauto).
    assert (Hc : ordinary c).
    { apply Forall_app in Hord as [_ H]. inversion H; assumption. }
    destruct (plainTree_next _ _ _ Htree) as (H1 & Hsym & Hdir).
    pose proof (plainTree_slash _ _ _ Htree) as H0.
    pose proof (fun q => @plainTree_chain done (c :: t) q Htree) as Hch.
    destruct (@turn_plain env uid gi meta volLen vol pre seps c t done links
                (meta (destOf done)) h Hdone Hc Hs H0 Hch H1 Hsym Hdir)
      as [(Hturn & Hr0 & Hrch)|((h' & e & Hturn) & Hfail)].
    + (* the turn goes on *)
      set (pre' := pre ++ seps ++ c).
      set (seps' := match t with [] => [] | _ :: _ => pathSeparator end).
      assert (Hp : pre ++ seps ++ c ++ rooted t = pre' ++ seps' ++ tailPath t).
      { subst pre' seps'. rewrite <- !app_assoc. destruct t; reflexivity. }
      assert (Hl : length pre + length seps + length c = length pre').
      { subst pre'. rewrite !length_app. lia. }
      assert (Hcs : (done ++ [c]) ++ t = done ++ c :: t)
        by (rewrite <- app_assoc; reflexivity).
      specialize (IH (done ++ [c]) pre' seps' links budget fuel
                    (h ++ map EvLstat ((rooted done ++ pathSeparator)
                                       :: chain done ++ [rooted (done ++ [c])]))).
      rewrite Hcs in IH. rewrite destOf_snoc in IH.
      assert (Hs' : allSep seps').
      { subst seps'. destruct t; repeat constructor. }
      assert (Hseps' : t = [] -> seps' = []) by (intros ->; reflexivity).
      specialize (IH Hord Hs' Hseps' ltac:(simpl in Hfuel; lia) Htree).
      cbv zeta in IH. rewrite <- Hp, <- Hl in IH.
      subst st. rewrite walkLinks_unfold. cbn [tailPath].
      rewrite (@bind_ok _ _ _ _ _ _ _ Hturn).
      destruct IH as [(Hw & Hpass)|((h' & e & Hw) & Hf)].
      * left. split.
        -- rewrite Hw. f_equal. cbn [walkTrace app map].
           rewrite !map_app. cbn [app map].
           rewrite <- !app_assoc. cbn [app].
           rewrite <- !app_assoc. reflexivity.
        -- intros _. split; [assumption|]. intros k Hk.
           destruct t as [|c' t].
           ++ rewrite firstn_app_le by (rewrite length_app in Hk; simpl in Hk; lia).
              apply Hrch, in_chain. exists k. split; [|reflexivity].
              rewrite length_app in Hk. simpl in Hk. lia.
           ++ destruct (Hpass ltac:(discriminate)) as [_ Hall].
              rewrite Hcs in Hall. apply Hall. assumption.
      * right. split; [eauto|]. split; [discriminate|].
        destruct Hf as (Ht & [Hf|(k & Hk & Hf)]).
        -- right. exists (length done). split.
           ++ rewrite length_app. destruct t; [contradiction|]. simpl. lia.
           ++ rewrite firstn_snoc. rewrite destOf_snoc in Hf. assumption.
        -- right. exists k. rewrite Hcs in Hk, Hf. split; assumption.
    + (* a check of the turn is refused *)
      right. subst st. split.
      * rewrite walkLinks_unfold. cbn [tailPath].
        rewrite (@bind_err _ _ _ _ _ _ _ Hturn). eauto.
      * split; [discriminate|]. destruct Hfail as [Hf|(q & Hq & Hf)].
        -- left. assumption.
        -- right. apply in_chain in Hq as (k & Hk & ->). exists k. split.
           ++ rewrite length_app. simpl. lia.
           ++ rewrite firstn_app_le by lia. assumption.
Qed.

End PlainWalk.

(** ** The whole check of a path without links *)

Section PlainAccess.

Variable env : Env.

Lemma atoiAll_ok gs gi h :
  Forall2 (fun g z => Atoi env g = inr z) gs gi ->
  atoiAll env gs h = (h, Ok gi).
Proof.
  induction 1 as [|g z gs gi Hg _ IH]; [reflexivity|].
  cbn [atoiAll]. unfold bind, lift. rewrite Hg. cbn [ret].
  rewrite IH. reflexivity.
Qed.

Lemma length_rooted_ge cs : Forall ordinary cs -> length cs <= length (rooted cs).
Proof.
  induction 1 as [|c cs Hc _ IH]; simpl; [lia|].
  rewrite length_app. lia.
Qed.

Lemma destOf_root cs : destOf cs = pathSeparator ++ [] ++ tailPath cs.
Proof. destruct cs; reflexivity. Qed.

(** [access] from the point where the walk starts, for a path that
    [filepath.Abs] leaves as it is. *)
Lemma access_start user uid gi mode cs h :
  groupsOf env user gi ->
  Abs env (destOf cs) = inr (destOf cs) ->
  access env user uid mode (destOf cs) h
  = (dest <- walkLinks env uid gi 1 pathSeparator 256
               (S (length (destOf cs)))
               (mkWalk (destOf cs) 1 pathSeparator 0) ;;
     checkPath env uid gi mode dest) h.
Proof.
  intros (gs & Hgs & Hgi) Habs. unfold access.
  rewrite Hgs. cbn [lift]. rewrite bind_ret_l.
  rewrite (@bind_ok _ _ _ _ _ _ _ (atoiAll_ok h Hgi)).
  rewrite Habs. cbn [lift]. rewrite bind_ret_l.
  destruct cs; reflexivity.
Qed.

Lemma passes_root gi mode meta cs : passes 0 gi mode meta cs.
Proof. repeat split. Qed.

Lemma removelast_snoc {A} (l : list A) x : removelast (l ++ [x]) = l.
Proof. apply removelast_last. Qed.

(** The last check of [access], on the whole path. *)
Lemma final_plain uid gi mode meta cs h :
  Forall ordinary cs -> plainTree env meta cs ->
  (forall k, S k < length cs ->
     refused uid gi Execute (meta (rooted (firstn (S k) cs))) = false) ->
  checkPath env uid gi mode (destOf cs) h
  = (if refused uid gi mode (meta (destOf cs))
     then (h ++ [EvLstat (destOf cs)],
           Err (EPermission (denial uid gi mode (destOf cs) (meta (destOf cs)))))
     else (h ++ map EvLstat (destOf cs :: chain (removelast cs)), Ok tt)).
Proof.
  intros Hord Htree Hpass.
  destruct cs as [|c cs'] using rev_ind.
  - destruct Htree as [Hroot _]. cbn [destOf removelast].
    change pathSeparator with (rooted ([] ++ [[]])).
    rewrite checkPath_chain by constructor.
    change (rooted ([] ++ [[]])) with pathSeparator.
    unfold bind. rewrite (checkOne_Stat _ _ _ _ Hroot).
    destruct (refused uid gi mode (meta pathSeparator)); reflexivity.
  - clear IHcs'. rewrite destOf_snoc, removelast_snoc.
    assert (Hn : Forall noSep (cs' ++ [c])) by (apply ordinary_noSep; assumption).
    apply Forall_app in Hn as [Hn Hc]. inversion Hc; subst.
    rewrite checkPath_chain by assumption.
    destruct Htree as [_ Htree].
    assert (Hlast : Stat env (rooted (cs' ++ [c])) (meta (rooted (cs' ++ [c])))).
    { specialize (Htree (length cs')). rewrite firstn_all2 in Htree
        by (rewrite length_app; simpl; lia).
      apply Htree. rewrite length_app. simpl. lia. }
    unfold bind. rewrite (checkOne_Stat _ _ _ _ Hlast).
    destruct (refused uid gi mode (meta (rooted (cs' ++ [c])))); [reflexivity|].
    rewrite (@checkEach_pass env uid gi meta).
    + cbn [map]. rewrite <- app_assoc. reflexivity.
    + intros q Hq. apply in_chain in Hq as (k & Hk & ->). split.
      * specialize (Htree k). rewrite firstn_app_le in Htree by lia.
        apply Htree. rewrite length_app. lia.
      * specialize (Hpass k). rewrite firstn_app_le in Hpass by lia.
        apply Hpass. rewrite length_app. simpl. lia.
Qed.

(** The whole check of a path without links: nil with the trace
    [accessTrace] where every test passes, a denial where one does not. *)
Lemma access_plain user uid gi mode meta cs h :
  groupsOf env user gi ->
  Abs env (destOf cs) = inr (destOf cs) ->
  Forall ordinary cs -> plainTree env meta cs ->
  (access env user uid mode (destOf cs) h
   = (h ++ map EvLstat (accessTrace cs), Ok tt)
   /\ passes uid gi mode meta cs)
  \/ ((exists h' e, access env user uid mode (destOf cs) h
                    = (h', Err (EPermission e)))
      /\ ~ passes uid gi mode meta cs).
Proof.
  intros Hg Habs Hord Htree. rewrite (@access_start user uid gi mode cs h Hg Habs).
  assert (Hst : mkWalk (destOf cs) 1 pathSeparator 0
                = mkWalk (pathSeparator ++ [] ++ tailPath cs)
                    (length pathSeparator) (destOf []) 0)
    by (rewrite <- destOf_root; reflexivity).
  rewrite Hst.
  destruct (@walk_plain env uid gi meta 1 pathSeparator cs [] pathSeparator []
              0 256 (S (length (destOf cs))) h)
    as [(Hw & Hpass)|((h' & e & Hw) & Hfail)]; try assumption.
  - constructor.
  - reflexivity.
  - pose proof (length_rooted_ge Hord). destruct cs; simpl in *; lia.
  - rewrite (@bind_ok _ _ _ _ _ _ _ Hw). cbn [app] in *.
    assert (Hall : forall k, S k < length cs ->
              refused uid gi Execute (meta (rooted (firstn (S k) cs))) = false).
    { intros k Hk. destruct cs as [|c cs]; [simpl in Hk; lia|].
      apply Hpass; [discriminate|assumption]. }
    rewrite (@final_plain uid gi mode meta cs _ Hord Htree Hall).
    destruct (refused uid gi mode (meta (destOf cs))) eqn:Hr.
    + right. split; [eauto|]. intros (Hp & _). congruence.
    + left. split.
      * unfold accessTrace. rewrite map_app, app_assoc. reflexivity.
      * split; [assumption|]. split; [|assumption].
        intros Hne. apply Hpass. assumption.
  - rewrite (@bind_err _ _ _ _ _ _ _ Hw). right. split; [eauto|].
    intros (_ & Hp1 & Hp2). destruct Hfail as (Hne & [Hf|(k & Hk & Hf)]).
    + specialize (Hp1 Hne). cbn [destOf] in Hf. congruence.
    + specialize (Hp2 k Hk). cbn [app] in Hf. congruence.
Qed.

Lemma passes_allowed uid gi mode meta cs :
  plainUid uid -> rwx mode ->
  passes uid gi mode meta cs <-> allowed uid gi mode meta cs.
Proof.
  intros Hu Hm. assert (Hx : rwx Execute) by (unfold rwx, Execute; lia).
  unfold passes, allowed.
  rewrite (refused_granted gi (meta (destOf cs)) Hu Hm).
  rewrite (refused_granted gi (meta pathSeparator) Hu Hx).
  split; intros (H1 & H2 & H3); (split; [assumption|]; split; [assumption|]);
    intros k Hk; apply (refused_granted gi _ Hu Hx); auto.
Qed.

End PlainAccess.

(** ** Paths without links where files are missing or unreadable *)

Section Missing.

Variable env : Env.
Variables (uid : Z) (gi : list Z).
Variable meta : path -> oserror + FileInfo.

Lemma known_inr q fi : meta q = inr fi -> known meta q = fi.
Proof. unfold known. intros ->. reflexivity. Qed.

Lemma linkFree_plain cs :
  linkFree env meta cs -> available meta cs -> plainTree env (known meta) cs.
Proof.
  intros [Hroot H] [(fi0 & H0) Hav]. split.
  - intros h. rewrite Hroot, H0, (known_inr H0). reflexivity.
  - intros k Hk. cbv zeta. destruct (H k Hk) as [HL Hfi].
    destruct (Hav k Hk) as (fi & Hm). rewrite (known_inr Hm).
    destruct (Hfi fi Hm) as [Hsym Hdir].
    split; [intros h; rewrite HL; exact Hm|]. split; [exact Hsym|exact Hdir].
Qed.

Lemma linkFree_slash done c t :
  linkFree env meta (done ++ c :: t) ->
  (exists fi, meta pathSeparator = inr fi) ->
  (forall k, k < length done ->
     exists fi, meta (rooted (firstn (S k) (done ++ c :: t))) = inr fi) ->
  Stat env (rooted done ++ pathSeparator) (known meta (destOf done)).
Proof.
  intros [Hroot H] (fi0 & H0) Hav.
  destruct done as [|x d] using rev_ind.
  - intros h. cbn [rooted app destOf]. rewrite Hroot, H0, (known_inr H0).
    reflexivity.
  - clear IHd. rewrite destOf_snoc.
    assert (Hk : length d < length (d ++ [x]))
      by (rewrite length_app; simpl; lia).
    destruct (Hav _ Hk) as (fi & Hm).
    assert (Hk' : length d < length ((d ++ [x]) ++ c :: t))
      by (rewrite !length_app; simpl; lia).
    destruct (H _ Hk') as [_ Hfi]. cbv zeta in Hfi.
    rewrite <- app_assoc in Hm, Hfi. cbn [app] in Hm, Hfi.
    rewrite firstn_snoc in Hm, Hfi.
    rewrite (known_inr Hm). apply (Hfi fi Hm).
    rewrite !length_app. simpl. lia.
Qed.

Lemma linkFree_chain done todo q :
  linkFree env meta (done ++ todo) ->
  (forall k, k < length done ->
     exists fi, meta (rooted (firstn (S k) (done ++ todo))) = inr fi) ->
  In q (chain done) -> Stat env q (known meta q).
Proof.
  intros [_ H] Hav Hq. apply in_chain in Hq as (k & Hk & ->).
  destruct (Hav k Hk) as (fi & Hm).
  assert (Hk' : k < length (done ++ todo)) by (rewrite length_app; lia).
  destruct (H k Hk') as [HL _]. cbv zeta in HL.
  rewrite firstn_app_le in Hm, HL by lia.
  intros h. rewrite HL, Hm, (known_inr Hm). reflexivity.
Qed.

Lemma linkFree_next done c t fi :
  linkFree env meta (done ++ c :: t) ->
  meta (rooted (done ++ [c])) = inr fi ->
  Stat env (rooted (done ++ [c])) (known meta (rooted (done ++ [c])))
  /\ IsSymlink (known meta (rooted (done ++ [c]))) = false
  /\ (t <> [] -> IsDir (known meta (rooted (done ++ [c]))) = true).
Proof.
  intros [_ H] Hm.
  assert (Hk : length done < length (done ++ c :: t))
    by (rewrite length_app; simpl; lia).
  destruct (H _ Hk) as [HL Hfi]. cbv zeta in HL, Hfi.
  rewrite firstn_snoc in HL, Hfi. destruct (Hfi fi Hm) as [Hsym Hdir].
  rewrite (known_inr Hm).
  split; [intros h; rewrite HL; exact Hm|]. split; [exact Hsym|].
  intros Ht. apply Hdir. rewrite length_app. destruct t; [contradiction|].
  simpl. lia.
Qed.

Lemma linkFree_missing done c t code :
  linkFree env meta (done ++ c :: t) ->
  meta (rooted (done ++ [c])) = inl code ->
  forall h, Lstat env h (rooted (done ++ [c])) = inl code.
Proof.
  intros [_ H] Hm h.
  assert (Hk : length done < length (done ++ c :: t))
    by (rewrite length_app; simpl; lia).
  destruct (H _ Hk) as [HL _]. cbv zeta in HL.
  rewrite firstn_snoc in HL. rewrite HL. exact Hm.
Qed.

(** The check of the prefix before a component, in a tree that answers
    for the prefix: it passes, or it ends in a denial. *)
Lemma prefix_check_result (m : path -> FileInfo) done m0 h :
  Forall noSep done ->
  Stat env (rooted done ++ pathSeparator) m0 ->
  (forall q, In q (chain done) -> Stat env q (m q)) ->
  checkPath env uid gi Execute (rooted done ++ pathSeparator) h
  = (h ++ map EvLstat ((rooted done ++ pathSeparator) :: chain done), Ok tt)
  \/ exists h' e,
       checkPath env uid gi Execute (rooted done ++ pathSeparator) h
       = (h', Err (EPermission e)).
Proof.
  intros Hdone H0 Hch. rewrite checkPath_slash by assumption.
  pose proof (checkOne_Stat uid gi Execute h H0) as E0.
  destruct (refused uid gi Execute m0).
  { right. rewrite (@bind_err _ _ _ _ _ _ _ E0). eauto. }
  rewrite (@bind_ok _ _ _ _ _ _ _ E0).
  destruct (checkEach_result uid gi m (chain done)
              (h ++ [EvLstat (rooted done ++ pathSeparator)]) Hch)
    as [[Hok _]|[(h' & e & He) _]].
  - left. rewrite Hok. cbn [map]. rewrite <- app_assoc. reflexivity.
  - right. eauto.
Qed.

(** The turn of the loop for a component that is not there, after
    components that are: the checks of the prefix, then the error of
    [Lstat]. *)
Lemma turn_missing (m : path -> FileInfo) volLen vol
    pre seps c tl done links m0 code h :
  Forall ordinary done -> ordinary c -> allSep seps -> atSep tl ->
  Stat env (rooted done ++ pathSeparator) m0 ->
  (forall q, In q (chain done) -> Stat env q (m q)) ->
  (forall h0, Lstat env h0 (rooted (done ++ [c])) = inl code) ->
  let st := mkWalk (pre ++ seps ++ c ++ tl) (length pre) (destOf done) links in
  (exists h' e, loopBody env uid gi volLen vol st h = (h', Err (EPermission e)))
  \/ (exists h', loopBody env uid gi volLen vol st h
                 = (h', Err (EExternal code))).
Proof.
  intros Hdone Hc Hs Hat H0 Hch HL st. subst st.
  rewrite (@loopBody_ordinary env uid gi volLen vol pre seps c tl
             (destOf done) links h Hs Hc Hat).
  rewrite (addSeparator_destOf Hdone).
  replace ((rooted done ++ pathSeparator) ++ c) with (rooted (done ++ [c]))
    by (rewrite rooted_snoc, <- app_assoc; reflexivity).
  destruct (@prefix_check_result m done m0 h (ordinary_noSep Hdone) H0 Hch)
    as [Hok|(h' & e & He)].
  - right. rewrite (@bind_ok _ _ _ _ _ _ _ Hok).
    unfold bind, lstat. rewrite HL. eexists. reflexivity.
  - left. rewrite (@bind_err _ _ _ _ _ _ _ He). eauto.
Qed.

(** The loop of the walk where a component is not there: it ends with a
    denial, or with the error of [Lstat] for a prefix of the path. *)
Lemma walk_partial volLen vol todo :
  forall done pre seps links budget fuel h,
    Forall ordinary (done ++ todo) -> allSep seps -> length todo < fuel ->
    linkFree env meta (done ++ todo) ->
    (exists fi, meta pathSeparator = inr fi) ->
    (forall k, k < length done ->
       exists fi, meta (rooted (firstn (S k) (done ++ todo))) = inr fi) ->
    (exists k code, k < length (done ++ todo)
       /\ meta (rooted (firstn (S k) (done ++ todo))) = inl code) ->
    let st := mkWalk (pre ++ seps ++ tailPath todo) (length pre)
                (destOf done) links in
    (exists h' e, walkLinks env uid gi volLen vol budget fuel st h
                  = (h', Err (EPermission e)))
    \/ (exists h' q code,
          In q (chain (done ++ todo)) /\ meta q = inl code
          /\ walkLinks env uid gi volLen vol budget fuel st h
             = (h', Err (EExternal code))).
Proof.
  induction todo as [|c t IH];
    intros done pre seps links budget fuel h Hord Hs Hfuel Htree Hroot Hav
      Hmiss st.
  - exfalso. destruct Hmiss as (k & code & Hk & Hm).
    rewrite app_nil_r in *. destruct (Hav k Hk) as (fi & Hfi). congruence.
  - destruct fuel as [|fuel]; [simpl in Hfuel; lia|].
    assert (Hdone : Forall ordinary done) by (apply Forall_app in Hord; tauto).
    assert (Hc : ordinary c).
    { apply Forall_app in Hord as [_ H]. inversion H; assumption. }
    assert (Hat : atSep (rooted t)) by (destruct t; [exact I|reflexivity]).
    pose proof (linkFree_slash _ _ _ Htree Hroot Hav) as H0.
    pose proof (fun q => @linkFree_chain done (c :: t) q Htree Hav) as Hch.
    assert (Hin : In (rooted (done ++ [c])) (chain (done ++ c :: t))).
    { apply in_chain. exists (length done). split.
      - rewrite length_app. simpl. lia.
      - rewrite firstn_snoc. reflexivity. }
    subst st. rewrite walkLinks_unfold. cbn [tailPath].
    destruct (meta (rooted (done ++ [c]))) as [code|fi] eqn:Hm.
    + (* the component is not there *)
      pose proof (linkFree_missing _ _ _ Htree Hm) as HL.
      destruct (@turn_missing (known meta) volLen vol pre seps c (rooted t) done
                  links (known meta (destOf done)) code h
                  Hdone Hc Hs Hat H0 Hch HL)
        as [(h' & e & Hturn)|(h' & Hturn)].
      * left. rewrite (@bind_err _ _ _ _ _ _ _ Hturn). eauto.
      * right. rewrite (@bind_err _ _ _ _ _ _ _ Hturn).
        exists h', (rooted (done ++ [c])), code. auto.
    + (* the component is there *)
      destruct (linkFree_next _ _ _ Htree Hm) as (H1 & Hsym & Hdir).
      destruct (@turn_plain env uid gi (known meta) volLen vol pre seps c t done
                  links (known meta (destOf done)) h Hdone Hc Hs H0 Hch H1
                  Hsym Hdir)
        as [(Hturn & _)|((h' & e & Hturn) & _)].
      2:{ left. rewrite (@bind_err _ _ _ _ _ _ _ Hturn). eauto. }
      set (pre' := pre ++ seps ++ c).
      set (seps' := match t with [] => [] | _ :: _ => pathSeparator end).
      assert (Hp : pre ++ seps ++ c ++ rooted t = pre' ++ seps' ++ tailPath t).
      { subst pre' seps'. rewrite <- !app_assoc. destruct t; reflexivity. }
      assert (Hl : length pre + length seps + length c = length pre').
      { subst pre'. rewrite !length_app. lia. }
      assert (Hcs : (done ++ [c]) ++ t = done ++ c :: t)
        by (rewrite <- app_assoc; reflexivity).
      specialize (IH (done ++ [c]) pre' seps' links budget fuel
                    (h ++ map EvLstat ((rooted done ++ pathSeparator)
                                       :: chain done ++ [rooted (done ++ [c])]))).
      rewrite Hcs in IH. rewrite destOf_snoc in IH.
      assert (Hs' : allSep seps').
      { subst seps'. destruct t; repeat constructor. }
      assert (Hav' : forall k, k < length (done ++ [c]) ->
                exists fi0, meta (rooted (firstn (S k) (done ++ c :: t)))
                            = inr fi0).
      { intros k Hk. rewrite length_app in Hk. simpl in Hk.
        destruct (Nat.eq_dec k (length done)) as [->|Hne].
        - rewrite firstn_snoc. eauto.
        - apply Hav. lia. }
      specialize (IH Hord Hs' ltac:(simpl in Hfuel; lia) Htree Hroot Hav' Hmiss).
      cbv zeta in IH. rewrite <- Hp, <- Hl in IH.
      rewrite (@bind_ok _ _ _ _ _ _ _ Hturn). exact IH.
Qed.

End Missing.

Section MissingAccess.

Variable env : Env.
Variable meta : path -> oserror + FileInfo.

(** The root and every prefix are there, or the first of them that is not
    can be named. *)
Lemma available_or_not cs :
  available meta cs
  \/ (exists code, meta pathSeparator = inl code)
  \/ ((exists fi, meta pathSeparator = inr fi)
      /\ exists k code, k < length cs
           /\ meta (rooted (firstn (S k) cs)) = inl code).
Proof.
  destruct (meta pathSeparator) as [code|fi0] eqn:H0; [right; left; eauto|].
  assert (H : forall n, n <= length cs ->
            (forall k, k < n ->
               exists fi, meta (rooted (firstn (S k) cs)) = inr fi)
            \/ exists k code, k < length cs
                 /\ meta (rooted (firstn (S k) cs)) = inl code).
  { induction n as [|n IH]; intros Hn; [left; intros k Hk; lia|].
    destruct (IH ltac:(lia)) as [Hall|Hex]; [|right; exact Hex].
    destruct (meta (rooted (firstn (S n) cs))) as [code|fi] eqn:Hm.
    - right. exists n, code. split; [lia|exact Hm].
    - left. intros k Hk. destruct (Nat.eq_dec k n) as [->|Hne]; [eauto|].
      apply Hall. lia. }
  destruct (H (length cs) (le_n _)) as [Hall|Hex].
  - left. split; [eauto|exact Hall].
  - right. right. split; [eauto|exact Hex].
Qed.

(** The root is not there: the first call of [Lstat] of the check is for
    the root, and its error is returned. *)
Lemma access_root_missing user uid gi mode cs code h :
  groupsOf env user gi ->
  Abs env (destOf cs) = inr (destOf cs) ->
  Forall ordinary cs ->
  (forall h0, Lstat env h0 pathSeparator = inl code) ->
  access env user uid mode (destOf cs) h
  = (h ++ [EvLstat pathSeparator], Err (EExternal code)).
Proof.
  intros Hg Habs Hord HL.
  rewrite (@access_start env user uid gi mode cs h Hg Habs).
  assert (Hchk : forall m,
            checkPath env uid gi m pathSeparator h
            = (h ++ [EvLstat pathSeparator], Err (EExternal code))).
  { intros m. rewrite checkPath_unfold by discriminate.
    unfold bind, lstat. rewrite HL. reflexivity. }
  destruct cs as [|c t].
  - assert (Hw : walkLinks env uid gi 1 pathSeparator 256
                   (S (length (destOf []))) (mkWalk (destOf []) 1 pathSeparator 0) h
                 = (h, Ok pathSeparator)).
    { rewrite walkLinks_unfold.
      erewrite bind_ok; [|apply loopBody_end; simpl; lia]. reflexivity. }
    rewrite (@bind_ok _ _ _ _ _ _ _ Hw). apply Hchk.
  - inversion Hord as [|? ? Hc Ht]; subst.
    assert (Hat : atSep (rooted t)) by (destruct t; [exact I|reflexivity]).
    erewrite bind_err; [reflexivity|].
    rewrite walkLinks_unfold.
    change (mkWalk (destOf (c :: t)) 1 pathSeparator 0)
      with (mkWalk (pathSeparator ++ [] ++ c ++ rooted t)
              (length pathSeparator) pathSeparator 0).
    erewrite bind_err; [reflexivity|].
    rewrite (@loopBody_ordinary env uid gi 1 pathSeparator pathSeparator []
               c (rooted t) pathSeparator 0 h (Forall_nil _) Hc Hat).
    rewrite addSeparator_root.
    erewrite bind_err; [reflexivity|]. apply Hchk.
Qed.

(** The whole check where the root or a prefix of the path is not there:
    a denial, or the error of [Lstat] for one of them. *)
Lemma access_missing user uid gi mode cs h :
  groupsOf env user gi ->
  Abs env (destOf cs) = inr (destOf cs) ->
  Forall ordinary cs -> linkFree env meta cs ->
  (exists code, meta pathSeparator = inl code)
  \/ ((exists fi, meta pathSeparator = inr fi)
      /\ exists k code, k < length cs
           /\ meta (rooted (firstn (S k) cs)) = inl code) ->
  (exists e, snd (access env user uid mode (destOf cs) h)
             = Err (EPermission e))
  \/ (exists q code,
        In q (pathSeparator :: chain cs) /\ meta q = inl code
        /\ snd (access env user uid mode (destOf cs) h)
           = Err (EExternal code)).
Proof.
  intros Hg Habs Hord Htree [(code & H0)|(Hroot & Hmiss)].
  - right. exists pathSeparator, code. split; [left; reflexivity|].
    split; [exact H0|].
    rewrite (@access_root_missing user uid gi mode cs code h Hg Habs Hord).
    + reflexivity.
    + intros h0. destruct Htree as [Hr _]. rewrite Hr. exact H0.
  - rewrite (@access_start env user uid gi mode cs h Hg Habs).
    assert (Hst : mkWalk (destOf cs) 1 pathSeparator 0
                  = mkWalk (pathSeparator ++ [] ++ tailPath cs)
                      (length pathSeparator) (destOf []) 0)
      by (rewrite <- destOf_root; reflexivity).
    rewrite Hst.
    destruct (@walk_partial env uid gi meta 1 pathSeparator cs [] pathSeparator
                [] 0 256 (S (length (destOf cs))) h)
      as [(h' & e & Hw)|(h' & q & code & Hq & Hm & Hw)]; try assumption.
    + constructor.
    + pose proof (length_rooted_ge Hord). destruct cs; simpl in *; lia.
    + intros k Hk. simpl in Hk. lia.
    + left. rewrite (@bind_err _ _ _ _ _ _ _ Hw). cbn [snd]. eauto.
    + right. rewrite (@bind_err _ _ _ _ _ _ _ Hw).
      exists q, code. split; [right; exact Hq|]. split; [exact Hm|reflexivity].
Qed.

End MissingAccess.

(** ** Paths without links (claim C1) *)

(** C1, as the code has it: for every principal with a uid in the range of
    uint32, every mode of Read, Write and Execute and every rooted path of
    ordinary components that filepath.Abs leaves as it is, in a tree where
    Lstat answers for the root and for every prefix of the path always the
    same, with metadata or with an error, and no prefix that is there is a
    link (one before the last is a directory, which answers the same with a
    separator after its name): the check returns nil iff the root and every
    prefix are there and the principal is the superuser, or has the mode
    asked on the path itself and Execute on the root and on every directory
    between; otherwise it returns a PermissionError, or the error of Lstat
    for the root or a prefix that is not there. *)
Theorem C1_access_plain_path :
  forall env user uid gi mode meta cs h,
    (0 <= uid < 2 ^ 32)%Z -> rwx mode ->
    groupsOf env user gi ->
    Abs env (destOf cs) = inr (destOf cs) ->
    Forall ordinary cs -> linkFree env meta cs ->
    (snd (access env user uid mode (destOf cs) h) = Ok tt
     <-> available meta cs
         /\ (uid = 0%Z \/ allowed uid gi mode (known meta) cs))
    /\ (snd (access env user uid mode (destOf cs) h) = Ok tt
        \/ (exists e, snd (access env user uid mode (destOf cs) h)
                      = Err (EPermission e))
        \/ (exists q code,
              In q (pathSeparator :: chain cs) /\ meta q = inl code
              /\ snd (access env user uid mode (destOf cs) h)
                 = Err (EExternal code))).
Proof.
  intros env user uid gi mode meta cs h Hu Hm Hg Habs Hord Htree.
  destruct (available_or_not meta cs) as [Hav|Hno].
  - pose proof (linkFree_plain Htree Hav) as Hplain.
    destruct (@access_plain env user uid gi mode (known meta) cs h Hg Habs Hord
                Hplain)
      as [(Ha & Hp)|((h' & e & Ha) & Hp)]; rewrite Ha; cbn [snd].
    + split; [|left; reflexivity]. split; [|reflexivity]. intros _.
      split; [exact Hav|].
      destruct (Z.eq_dec uid 0) as [H0|H0]; [left; assumption|].
      right. apply passes_allowed; [unfold plainUid; lia|assumption|assumption].
    + split; [|right; left; eauto]. split; [discriminate|].
      intros [_ [->|Hal]]; exfalso; apply Hp.
      * apply passes_root.
      * destruct (Z.eq_dec uid 0) as [->|H0]; [apply passes_root|].
        apply passes_allowed; [unfold plainUid; lia|assumption|assumption].
  - assert (Hnav : ~ available meta cs).
    { intros [(fi0 & H0) Hall].
      destruct Hno as [(code & Hc)|(_ & k & code & Hk & Hc)].
      - congruence.
      - destruct (Hall k Hk) as (fi & Hfi). congruence. }
    destruct (@access_missing env meta user uid gi mode cs h Hg Habs Hord Htree
                Hno)
      as [(e & Ha)|(q & code & Hq & Hmq & Ha)]; rewrite Ha.
    + split; [|right; left; eauto]. split; [discriminate|].
      intros [Hav _]. contradiction.
    + split; [|right; right; exists q, code; auto]. split; [discriminate|].
      intros [Hav _]. contradiction.
Qed.

Lemma home_plainTree :
  plainTree (Table.tableEnv Trees.home "/") (Trees.metaOf Trees.home)
    [str "a"; str "f"].
Proof.
  split; [intros h; reflexivity|].
  intros k Hk. destruct k as [|[|k]]; [| |simpl in Hk; lia]; cbv zeta.
  - split; [intros h; reflexivity|]. split; [reflexivity|]. intros _.
    split; [reflexivity|intros h; reflexivity].
  - split; [intros h; reflexivity|]. split; [reflexivity|].
    intros H. simpl in H. lia.
Defined.

Lemma alice_groups tbl : groupsOf (Table.tableEnv tbl "/") Trees.alice [1000%Z].
Proof.
  exists [str "1000"]. split; [reflexivity|].
  constructor; [reflexivity|constructor].
Defined.

Lemma home_linkFree :
  linkFree (Table.tableEnv Trees.home "/") (Table.tLstat Trees.home [])
    [str "a"; str "g"].
Proof.
  split; [intros h; reflexivity|].
  intros k Hk. destruct k as [|[|k]]; [| |simpl in Hk; lia]; cbv zeta.
  - split; [intros h; reflexivity|]. intros fi H. injection H as <-.
    split; [reflexivity|]. intros _. split; [reflexivity|].
    intros h; reflexivity.
  - split; [intros h; reflexivity|]. intros fi H. discriminate.
Defined.

Lemma C1_access_plain_path_witness :
  (snd (access (Table.tableEnv Trees.home "/") Trees.alice 1000 Read
          (destOf [str "a"; str "g"]) []) = Ok tt
   <-> available (Table.tLstat Trees.home []) [str "a"; str "g"]
       /\ (1000%Z = 0%Z
           \/ allowed 1000 [1000%Z] Read
                (known (Table.tLstat Trees.home [])) [str "a"; str "g"]))
  /\ (snd (access (Table.tableEnv Trees.home "/") Trees.alice 1000 Read
             (destOf [str "a"; str "g"]) []) = Ok tt
      \/ (exists e,
            snd (access (Table.tableEnv Trees.home "/") Trees.alice 1000 Read
                   (destOf [str "a"; str "g"]) [])
            = Err (EPermission e))
      \/ (exists q code,
            In q (pathSeparator :: chain [str "a"; str "g"])
            /\ Table.tLstat Trees.home [] q = inl code
            /\ snd (access (Table.tableEnv Trees.home "/") Trees.alice 1000 Read
                      (destOf [str "a"; str "g"]) [])
               = Err (EExternal code))).
Proof.
  apply C1_access_plain_path.
  - lia.
  - unfold rwx, Read. lia.
  - apply alice_groups.
  - reflexivity.
  - repeat constructor; discriminate.
  - apply home_linkFree.
Defined.

(** The file [/a/g] is not there: the check ends with the error of its
    [Lstat], after the checks of the root and of [/a]. *)
Example access_missing_file :
  access (Table.tableEnv Trees.home "/") Trees.alice 1000 Read (str "/a/g") []
  = (map EvLstat [str "/"; str "/a"; str "/a/"; str "/a"; str "/a/g"],
     Err (EExternal Table.ENOENT)).
Proof. vm_compute. reflexivity. Qed.

(** C1 as stated fails for the superuser: with no permission bit at all on
    the file, the check of uid 0 returns nil. *)
Lemma C1_counterexample :
  snd (access (Table.tableEnv Trees.sealed "/") Trees.root 0 Read (str "/f") [])
  = Ok tt
  /\ Lstat (Table.tableEnv Trees.sealed "/") [] (str "/f")
     = inr (mkFileInfo 0 1000 1000)
  /\ ~ granted 0 [0%Z] Read (mkFileInfo 0 1000 1000).
Proof.
  split; [vm_compute; reflexivity|]. split; [reflexivity|].
  intros [[H _]|[[H _]|H]]; vm_compute in H; discriminate.
Qed.

(** ** Examples for the check of one component *)

Lemma C4_component_check_witness :
  checkPath (Table.tableEnv Trees.home "/") 1000 [1000%Z] Read
    (rooted ([str "a"] ++ [str "f"])) []
  = checkPath (Table.tableEnv Trees.home "/") 1000 [1000%Z] Execute
      (rooted [str "a"]) ([] ++ [EvLstat (rooted ([str "a"] ++ [str "f"]))]).
Proof.
  refine (proj1 (@C4_component_check (Table.tableEnv Trees.home "/")
                   1000 [1000%Z] Read [str "a"] (str "f")
                   (mkFileInfo 420 1000 1000) [] _ _ _ _ _) _).
  - unfold plainUid. lia.
  - unfold rwx, Read. lia.
  - repeat constructor.
  - repeat constructor.
  - reflexivity.
  - left. split; reflexivity.
Defined.

(** C4 as stated fails for the superuser: the file has no permission bit,
    none of the three cases of the rule holds, and uid 0 is granted. *)
Lemma C4_counterexample :
  checkPath (Table.tableEnv Trees.sealed "/") 0 [0%Z] Execute (str "/f") []
  = ([EvLstat (str "/f")], Ok tt)
  /\ Lstat (Table.tableEnv Trees.sealed "/") [] (str "/f")
     = inr (mkFileInfo 0 1000 1000)
  /\ ~ granted 0 [0%Z] Execute (mkFileInfo 0 1000 1000).
Proof.
  split; [vm_compute; reflexivity|]. split; [reflexivity|].
  intros [[H _]|[[H _]|H]]; vm_compute in H; discriminate.
Qed.

Lemma C2_superuser_witness :
  checkPath (Table.tableEnv Trees.vault "/") 0 [0%Z] Write
    (rooted ([str "d"] ++ [str "f"])) []
  = ([] ++ map EvLstat (chain ([str "d"] ++ [str "f"])), Ok tt).
Proof.
  refine (proj1 (proj2 (@C2_superuser (Table.tableEnv Trees.vault "/")
                          [0%Z] Write)) [str "d"] (str "f") [] _ _ _).
  - repeat constructor.
  - repeat constructor.
  - intros h0 q [<-|[<-|[]]]; eexists; reflexivity.
Defined.

(** C2 as stated fails: the superuser is granted Write on a file and
    Execute on a directory whose bits give root nothing. *)
Lemma C2_counterexample :
  checkPath (Table.tableEnv Trees.vault "/") 0 [0%Z] Write (str "/d/f") []
  = ([EvLstat (str "/d/f"); EvLstat (str "/d")], Ok tt)
  /\ Lstat (Table.tableEnv Trees.vault "/") [] (str "/d/f")
     = inr (mkFileInfo 384 1000 1000)
  /\ ~ granted 0 [0%Z] Write (mkFileInfo 384 1000 1000).
Proof.
  split; [vm_compute; reflexivity|]. split; [reflexivity|].
  intros [[_ H]|[[_ H]|H]].
  - discriminate.
  - destruct H as [H|[]]. discriminate.
  - vm_compute in H. discriminate.
Qed.

(** ** Backing up in [dest] *)

Lemma lastSeparator_found c :
  noSep c ->
  forall a tl fuel volLen,
    volLen <= length a -> length c < fuel ->
    lastSeparator (a ++ PathSeparator :: c ++ tl) (Z.of_nat volLen)
      (Z.of_nat (length a + length c)) fuel
    = Z.of_nat (length a).
Proof.
  induction c as [|x c IH] using rev_ind; intros Hc a tl fuel volLen Hv Hf.
  - destruct fuel as [|fuel]; [simpl in Hf; lia|]. cbn [lastSeparator length].
    rewrite Nat.add_0_r, Nat2Z.id. cbn [app]. rewrite byteAt_app.
    replace (Z.of_nat volLen <=? Z.of_nat (length a))%Z with true
      by (symmetry; apply Z.leb_le; lia).
    reflexivity.
  - apply Forall_app in Hc as [Hc Hx]. inversion Hx as [|? ? Hx' _]; subst.
    destruct fuel as [|fuel]; [simpl in Hf; lia|]. cbn [lastSeparator].
    rewrite length_app in *. cbn [length] in *.
    replace (Z.of_nat volLen <=? Z.of_nat (length a + (length c + 1)))%Z with true
      by (symmetry; apply Z.leb_le; lia).
    rewrite Nat2Z.id.
    replace (a ++ PathSeparator :: (c ++ [x]) ++ tl)
      with ((a ++ PathSeparator :: c) ++ x :: tl)
      by (rewrite <- !app_assoc; reflexivity).
    replace (length a + (length c + 1)) with (length (a ++ PathSeparator :: c))
      by (rewrite length_app; simpl; lia).
    rewrite byteAt_app, Hx'.
    replace ((a ++ PathSeparator :: c) ++ x :: tl)
      with (a ++ PathSeparator :: c ++ x :: tl)
      by (rewrite <- !app_assoc; reflexivity).
    replace (Z.of_nat (length (a ++ PathSeparator :: c)) - 1)%Z
      with (Z.of_nat (length a + length c))
      by (rewrite length_app; simpl; lia).
    apply IH; [assumption|assumption|lia].
Qed.

Lemma lastSeparator_none c :
  noSep c ->
  forall a tl fuel,
    length c <= fuel ->
    lastSeparator (a ++ c ++ tl) (Z.of_nat (length a))
      (Z.of_nat (length a + length c) - 1) fuel
    = (Z.of_nat (length a) - 1)%Z.
Proof.
  induction c as [|x c IH] using rev_ind; intros Hc a tl fuel Hf.
  - cbn [length]. rewrite Nat.add_0_r.
    destruct fuel as [|fuel]; [reflexivity|]. cbn [lastSeparator].
    replace (Z.of_nat (length a) <=? Z.of_nat (length a) - 1)%Z with false
      by (symmetry; apply Z.leb_gt; lia).
    reflexivity.
  - apply Forall_app in Hc as [Hc Hx]. inversion Hx as [|? ? Hx' _]; subst.
    rewrite length_app in *. cbn [length] in *.
    destruct fuel as [|fuel]; [lia|]. cbn [lastSeparator].
    replace (Z.of_nat (length a) <=? Z.of_nat (length a + (length c + 1)) - 1)%Z
      with true by (symmetry; apply Z.leb_le; lia).
    replace (Z.to_nat (Z.of_nat (length a + (length c + 1)) - 1))
      with (length (a ++ c)) by (rewrite length_app; lia).
    replace (a ++ (c ++ [x]) ++ tl) with ((a ++ c) ++ x :: tl)
      by (rewrite <- !app_assoc; reflexivity).
    rewrite byteAt_app, Hx'.
    replace ((a ++ c) ++ x :: tl) with (a ++ c ++ x :: tl)
      by (rewrite <- !app_assoc; reflexivity).
    replace (Z.of_nat (length a + (length c + 1)) - 1 - 1)%Z
      with (Z.of_nat (length a + length c) - 1)%Z by lia.
    apply IH; [assumption|lia].
Qed.

Lemma scanBack_found a c volLen :
  noSep c -> volLen <= length a ->
  scanBack (a ++ PathSeparator :: c) volLen = Z.of_nat (length a).
Proof.
  intros Hc Hv. unfold scanBack.
  replace (Z.of_nat (length (a ++ PathSeparator :: c)) - 1)%Z
    with (Z.of_nat (length a + length c))
    by (rewrite length_app; simpl; lia).
  pose proof (@lastSeparator_found c Hc a [] (S (length (a ++ PathSeparator :: c)))
                volLen Hv) as H.
  rewrite app_nil_r in H. apply H. rewrite length_app. simpl. lia.
Qed.

Lemma scanBack_none a c :
  noSep c -> scanBack (a ++ c) (length a) = (Z.of_nat (length a) - 1)%Z.
Proof.
  intros Hc. unfold scanBack.
  replace (Z.of_nat (length (a ++ c)) - 1)%Z
    with (Z.of_nat (length a + length c) - 1)%Z
    by (rewrite length_app; lia).
  pose proof (@lastSeparator_none c Hc a [] (S (length (a ++ c)))) as H.
  rewrite app_nil_r in H. apply H. rewrite length_app. lia.
Qed.

(** [..] after a component that was appended behind a separator takes the
    component away again. *)
Lemma dotdot_cancel volLen a c :
  noSep c -> c <> str ".." -> volLen <= length a ->
  dotdot volLen (a ++ PathSeparator :: c) = a.
Proof.
  intros Hc Hdd Hv. unfold dotdot. rewrite (scanBack_found a Hc Hv).
  replace (Z.of_nat (length a) <? Z.of_nat volLen)%Z with false
    by (symmetry; apply Z.ltb_ge; lia).
  replace (Z.to_nat (Z.of_nat (length a) + 1)) with (length (a ++ [PathSeparator]))
    by (rewrite length_app; simpl; lia).
  replace (a ++ PathSeparator :: c) with ((a ++ [PathSeparator]) ++ c)
    by (rewrite <- app_assoc; reflexivity).
  rewrite from_app, (path_eqb_neq Hdd). cbn [orb].
  rewrite <- app_assoc, Nat2Z.id. apply upto_app.
Qed.

(** [..] where [dest] holds no separator after the volume is kept: at
    the root, and after one component under the root. *)
Lemma dotdot_kept a c :
  noSep c ->
  dotdot (length a) (a ++ c)
  = (if length a <? length (a ++ c) then (a ++ c) ++ pathSeparator else a ++ c)
    ++ str "..".
Proof.
  intros Hc. unfold dotdot. rewrite (scanBack_none a Hc).
  replace (Z.of_nat (length a) - 1 <? Z.of_nat (length a))%Z with true
    by (symmetry; apply Z.ltb_lt; lia).
  reflexivity.
Qed.

(** A relative link: [dest] goes back to what it was before the component
    was appended. *)
Lemma backUp_appended dest c :
  cleanDest dest -> noSep c ->
  backUp 1 pathSeparator (addSeparator dest ++ c) = dest.
Proof.
  intros [->|(a & x & -> & Hx)] Hc.
  - rewrite addSeparator_root. unfold backUp.
    change 1 with (length pathSeparator) at 1.
    rewrite (scanBack_none pathSeparator Hc). reflexivity.
  - assert (Ha : addSeparator (a ++ [x]) = (a ++ [x]) ++ pathSeparator).
    { unfold addSeparator. rewrite byteAt_last, Hx.
      replace (0 <? length (a ++ [x])) with true; [reflexivity|].
      symmetry. apply Nat.ltb_lt. rewrite length_app. simpl. lia. }
    rewrite Ha. unfold backUp. rewrite <- app_assoc. cbn [pathSeparator app].
    assert (Hv : 1 <= length (a ++ [x])) by (rewrite length_app; simpl; lia).
    rewrite (scanBack_found (a ++ [x]) Hc Hv).
    replace (Z.of_nat (length (a ++ [x])) <? Z.of_nat 1)%Z with false
      by (symmetry; apply Z.ltb_ge; lia).
    rewrite Nat2Z.id. apply upto_app.
Qed.

(** ** After the metadata of the appended path *)

Section Resolve.

Variable env : Env.
Variables (volLen : nat) (vol : path).

Lemma resolve_notdir p end_ dest links fi h :
  IsSymlink fi = false -> IsDir fi = false -> end_ < length p ->
  resolve env volLen vol p end_ dest links fi h = (h, Err ENOTDIR).
Proof.
  intros Hs Hd He. unfold resolve. unfold IsSymlink in Hs.
  apply negb_false_iff in Hs. rewrite Hs, Hd.
  replace (end_ <? length p) with true by (symmetry; apply Nat.ltb_lt; assumption).
  reflexivity.
Qed.

Lemma isAbsLink_upto link : isAbsLink link = true -> upto link 1 = pathSeparator.
Proof.
  unfold isAbsLink. destruct link as [|x l]; [discriminate|].
  cbn. intros H. apply Ascii.eqb_eq in H. subst. destruct l; reflexivity.
Qed.

Lemma resolve_link p end_ dest links fi link h :
  IsSymlink fi = true -> links < 255 ->
  Readlink env h dest = inr link ->
  resolve env volLen vol p end_ dest links fi h
  = (h ++ [EvReadlink dest],
     Ok (Followed
           (mkWalk (link ++ from p end_)
              (if isAbsLink link then 1 else 0)
              (if isAbsLink link then pathSeparator
               else backUp volLen vol dest)
              (S links)))).
Proof.
  intros Hs Hl Hr. unfold resolve. unfold IsSymlink in Hs.
  apply negb_true_iff in Hs. rewrite Hs. cbv zeta.
  replace (255 <? S links) with false by (symmetry; apply Nat.ltb_ge; lia).
  unfold bind, readlink. rewrite Hr. fold (isAbsLink link).
  destruct (isAbsLink link) eqn:E; [|reflexivity].
  rewrite (isAbsLink_upto _ E). reflexivity.
Qed.

Lemma resolve_too_many p end_ dest links fi h :
  IsSymlink fi = true -> 255 <= links ->
  resolve env volLen vol p end_ dest links fi h = (h, Err ETooManyLinks).
Proof.
  intros Hs Hl. unfold resolve. unfold IsSymlink in Hs.
  apply negb_true_iff in Hs. rewrite Hs. cbv zeta.
  replace (255 <? S links) with true by (symmetry; apply Nat.ltb_lt; lia).
  reflexivity.
Qed.

(** What follows [Lstat] never makes a denial. *)
Lemma resolve_no_denial p end_ dest links fi h h' e :
  resolve env volLen vol p end_ dest links fi h <> (h', Err (EPermission e)).
Proof.
  unfold resolve. destruct (Z.land (fiMode fi) ModeSymlink =? 0)%Z.
  - destruct (negb (IsDir fi) && (end_ <? length p)); discriminate.
  - cbv zeta. destruct (255 <? S links); [discriminate|].
    unfold bind, readlink. destruct (Readlink env h dest); [discriminate|].
    destruct ((0 <? length p0) && IsPathSeparator (byteAt p0 0)); discriminate.
Qed.

End Resolve.

(** ** Directories that the principal can pass *)

Lemma rooted_tail cs : cs <> [] -> rooted cs = pathSeparator ++ tailPath cs.
Proof. destruct cs; [contradiction|reflexivity]. Qed.

Lemma rooted_atSep cs : atSep (rooted cs).
Proof. destruct cs; [exact I|reflexivity]. Qed.

Section Traverse.

Variable env : Env.
Variables (uid : Z) (gi : list Z).
Variable meta : path -> FileInfo.

Lemma traversable_app a b :
  traversable env uid gi meta (a ++ b) -> traversable env uid gi meta a.
Proof.
  intros (H0 & Hr & H). split; [exact H0|]. split; [exact Hr|].
  intros k Hk. specialize (H k). rewrite firstn_app_le in H by lia.
  apply H. rewrite length_app. lia.
Qed.

Lemma traversable_chain ds q :
  traversable env uid gi meta ds -> In q (chain ds) ->
  Stat env q (meta q) /\ refused uid gi Execute (meta q) = false.
Proof.
  intros (_ & _ & H) Hq. apply in_chain in Hq as (k & Hk & ->).
  destruct (H k Hk) as (H1 & _ & _ & _ & H5). auto.
Qed.

Lemma traversable_slash ds :
  traversable env uid gi meta ds ->
  Stat env (rooted ds ++ pathSeparator) (meta (destOf ds))
  /\ refused uid gi Execute (meta (destOf ds)) = false.
Proof.
  intros (H0 & Hr & H). destruct ds as [|x d] using rev_ind.
  - split; assumption.
  - clear IHd. rewrite destOf_snoc.
    specialize (H (length d)).
    rewrite firstn_all2 in H by (rewrite length_app; simpl; lia).
    destruct H as (_ & _ & _ & H4 & H5); [rewrite length_app; simpl; lia|].
    auto.
Qed.

Lemma traversable_last done d :
  traversable env uid gi meta (done ++ [d]) ->
  Stat env (rooted (done ++ [d])) (meta (rooted (done ++ [d])))
  /\ IsSymlink (meta (rooted (done ++ [d]))) = false
  /\ IsDir (meta (rooted (done ++ [d]))) = true.
Proof.
  intros (_ & _ & H). specialize (H (length done)).
  rewrite firstn_all2 in H by (rewrite length_app; simpl; lia).
  destruct H as (H1 & H2 & H3 & _); [rewrite length_app; simpl; lia|].
  auto.
Qed.

(** The check of the prefix before a component passes, and asks for the
    prefix and for each of its ancestors above the root. *)
Lemma prefix_check_pass ds h :
  Forall ordinary ds -> traversable env uid gi meta ds ->
  checkPath env uid gi Execute (addSeparator (destOf ds)) h
  = (h ++ map EvLstat ((rooted ds ++ pathSeparator) :: chain ds), Ok tt).
Proof.
  intros Hord Ht. rewrite (addSeparator_destOf Hord).
  rewrite checkPath_slash by (apply ordinary_noSep; assumption).
  destruct (traversable_slash Ht) as [H0 Hr].
  pose proof (checkOne_Stat uid gi Execute h H0) as E0. rewrite Hr in E0.
  rewrite (@bind_ok _ _ _ _ _ _ _ E0).
  rewrite (@checkEach_pass env uid gi meta)
    by (intros q Hq; eapply traversable_chain; eassumption).
  cbn [map]. rewrite <- app_assoc. reflexivity.
Qed.

Variables (volLen : nat) (vol : path).

(** The turn of the loop for a directory on the way. *)
Lemma turn_dir pre seps d tl done links h :
  Forall ordinary (done ++ [d]) ->
  traversable env uid gi meta (done ++ [d]) ->
  allSep seps -> atSep tl ->
  loopBody env uid gi volLen vol
    (mkWalk (pre ++ seps ++ d ++ tl) (length pre) (destOf done) links) h
  = (h ++ map EvLstat ((rooted done ++ pathSeparator) :: chain done
                       ++ [rooted (done ++ [d])]),
     Ok (Continue (mkWalk (pre ++ seps ++ d ++ tl)
                     (length pre + length seps + length d)
                     (rooted (done ++ [d])) links))).
Proof.
  intros Hord Ht Hs Hat.
  apply Forall_app in Hord as [Hdone Hd]. inversion Hd as [|? ? Hd' _]; subst.
  rewrite (@loopBody_ordinary env uid gi volLen vol pre seps d tl (destOf done)
             links h Hs Hd' Hat).
  rewrite (@bind_ok _ _ _ _ _ _ _
             (prefix_check_pass h Hdone (traversable_app _ _ Ht))).
  rewrite (addSeparator_destOf Hdone).
  replace ((rooted done ++ pathSeparator) ++ d) with (rooted (done ++ [d]))
    by (rewrite rooted_snoc, <- app_assoc; reflexivity).
  destruct (traversable_last _ _ Ht) as (H1 & Hsym & Hdir).
  rewrite (@bind_ok _ _ _ _ _ _ _ (lstat_Stat _ H1)).
  rewrite resolve_plain.
  - f_equal. cbn [map]. rewrite map_app. cbn [map].
    rewrite <- !app_assoc. reflexivity.
  - assumption.
  - left. assumption.
Qed.

(** The loop of the walk through the directories [dirs] on the way to the
    component [c]: one turn for each, after which the walk stands before
    [c] with the directories as [dest]. *)
Lemma walk_dirs dirs :
  forall done c pre seps tl links budget fuel h,
    Forall ordinary (done ++ dirs) ->
    traversable env uid gi meta (done ++ dirs) ->
    allSep seps -> atSep tl ->
    exists pre' seps',
      pre' ++ seps' ++ c ++ tl = pre ++ seps ++ tailPath (dirs ++ [c]) ++ tl
      /\ allSep seps'
      /\ walkLinks env uid gi volLen vol budget (length dirs + fuel)
           (mkWalk (pre ++ seps ++ tailPath (dirs ++ [c]) ++ tl) (length pre)
              (destOf done) links) h
         = walkLinks env uid gi volLen vol budget fuel
             (mkWalk (pre' ++ seps' ++ c ++ tl) (length pre')
                (destOf (done ++ dirs)) links)
             (h ++ map EvLstat (walkTrace done dirs)).
Proof.
  induction dirs as [|d ds IH];
    intros done c pre seps tl links budget fuel h Hord Ht Hs Hat.
  - exists pre, seps. cbn [app tailPath rooted length walkTrace map Nat.add].
    rewrite !app_nil_r. split; [reflexivity|]. split; [assumption|reflexivity].
  - assert (Hcs : (done ++ [d]) ++ ds = done ++ d :: ds)
      by (rewrite <- app_assoc; reflexivity).
    assert (Hne : ds ++ [c] <> []) by (destruct ds; discriminate).
    assert (Hp : pre ++ seps ++ tailPath ((d :: ds) ++ [c]) ++ tl
                 = pre ++ seps ++ d ++ rooted (ds ++ [c]) ++ tl).
    { cbn [app tailPath]. rewrite <- !app_assoc. reflexivity. }
    assert (Hp2 : pre ++ seps ++ d ++ rooted (ds ++ [c]) ++ tl
                  = (pre ++ seps ++ d) ++ pathSeparator
                      ++ tailPath (ds ++ [c]) ++ tl).
    { rewrite (rooted_tail Hne). rewrite <- !app_assoc. reflexivity. }
    assert (Hat0 : atSep (rooted (ds ++ [c]) ++ tl)).
    { rewrite (rooted_tail Hne). reflexivity. }
    assert (Hord1 : Forall ordinary (done ++ [d])).
    { rewrite <- Hcs in Hord. apply Forall_app in Hord. tauto. }
    assert (Ht1 : traversable env uid gi meta (done ++ [d])).
    { rewrite <- Hcs in Ht. apply (traversable_app _ _ Ht). }
    pose proof (@turn_dir pre seps d (rooted (ds ++ [c]) ++ tl) done links h
                  Hord1 Ht1 Hs Hat0) as Hturn.
    rewrite <- Hcs in Hord, Ht.
    destruct (IH (done ++ [d]) c (pre ++ seps ++ d) pathSeparator tl links
                budget fuel
                (h ++ map EvLstat ((rooted done ++ pathSeparator) :: chain done
                                   ++ [rooted (done ++ [d])]))
                Hord Ht ltac:(repeat constructor) Hat)
      as (pre' & seps' & Hq & Hs' & Hw).
    exists pre', seps'. split; [rewrite Hq, Hp, Hp2; reflexivity|].
    split; [assumption|].
    rewrite Hp. cbn [length Nat.add]. rewrite walkLinks_unfold.
    rewrite (@bind_ok _ _ _ _ _ _ _ Hturn). cbv beta iota.
    rewrite Hp2.
    replace (length pre + length seps + length d)
      with (length (pre ++ seps ++ d)) by (rewrite !length_app; lia).
    rewrite destOf_snoc in Hw. rewrite Hw. rewrite Hcs.
    f_equal. cbn [walkTrace]. same_trace.
Qed.

End Traverse.

(** ** A component that is no directory *)

Lemma turn_notdir env uid gi volLen vol pre seps c tl dest links fi h h1 :
  allSep seps -> ordinary c -> atSep tl -> tl <> [] ->
  checkPath env uid gi Execute (addSeparator dest) h = (h1, Ok tt) ->
  Lstat env h1 (addSeparator dest ++ c) = inr fi ->
  IsSymlink fi = false -> IsDir fi = false ->
  loopBody env uid gi volLen vol
    (mkWalk (pre ++ seps ++ c ++ tl) (length pre) dest links) h
  = (h1 ++ [EvLstat (addSeparator dest ++ c)], Err ENOTDIR).
Proof.
  intros Hs Hc Hat Htl Hchk HL Hsym Hdir.
  rewrite (@loopBody_ordinary env uid gi volLen vol pre seps c tl dest links
             h Hs Hc Hat).
  rewrite (@bind_ok _ _ _ _ _ _ _ Hchk).
  unfold bind, lstat. rewrite HL.
  apply resolve_notdir; [assumption|assumption|].
  rewrite !length_app. destruct tl; [contradiction|]. simpl. lia.
Qed.

(** The whole check of a path that goes through a file: the directories
    before the file are passed, the metadata of the file says that it is
    no directory, and the check ends there. *)
Lemma access_notdir env user uid gi mode meta ds c rest fi h :
  groupsOf env user gi ->
  Abs env (rooted (ds ++ c :: rest)) = inr (rooted (ds ++ c :: rest)) ->
  Forall ordinary (ds ++ c :: rest) -> rest <> [] ->
  traversable env uid gi meta ds ->
  Stat env (rooted (ds ++ [c])) fi ->
  IsSymlink fi = false -> IsDir fi = false ->
  access env user uid mode (rooted (ds ++ c :: rest)) h
  = (h ++ map EvLstat (walkTrace [] ds
                       ++ (rooted ds ++ pathSeparator) :: chain ds
                       ++ [rooted (ds ++ [c])]),
     Err ENOTDIR).
Proof.
  intros Hg Habs Hord Hrest Ht HL Hsym Hdir.
  assert (Hd : rooted (ds ++ c :: rest) = destOf (ds ++ c :: rest))
    by (destruct ds; reflexivity).
  rewrite Hd in Habs |- *.
  rewrite (@access_start env user uid gi mode (ds ++ c :: rest) h Hg Habs).
  erewrite bind_err; [reflexivity|]. rewrite <- Hd.
  assert (Hds : Forall ordinary ds) by (apply Forall_app in Hord; tauto).
  assert (Hc : ordinary c).
  { apply Forall_app in Hord as [_ H]. inversion H; assumption. }
  assert (Hat : atSep (rooted rest)) by (destruct rest; [exact I|reflexivity]).
  assert (Hp : rooted (ds ++ c :: rest)
               = pathSeparator ++ [] ++ tailPath (ds ++ [c]) ++ rooted rest).
  { replace (ds ++ c :: rest) with ((ds ++ [c]) ++ rest)
      by (rewrite <- app_assoc; reflexivity).
    rewrite rooted_app, rooted_tail by (destruct ds; discriminate).
    rewrite <- !app_assoc. reflexivity. }
  assert (Hf : exists f, S (length (rooted (ds ++ c :: rest)))
                         = length ds + S f).
  { exists (length (rooted (ds ++ c :: rest)) - length ds).
    pose proof (length_rooted_ge Hord) as Hl. rewrite length_app in Hl. lia. }
  destruct Hf as (f & Hf). rewrite Hf, Hp.
  destruct (@walk_dirs env uid gi meta 1 pathSeparator ds [] c pathSeparator []
              (rooted rest) 0 256 (S f) h Hds Ht (Forall_nil _) Hat)
    as (pre' & seps' & Hq & Hs' & Hw).
  etransitivity; [exact Hw|]. rewrite walkLinks_unfold. cbn [app].
  assert (Hchk := prefix_check_pass (h ++ map EvLstat (walkTrace [] ds)) Hds Ht).
  assert (Happ : addSeparator (destOf ds) ++ c = rooted (ds ++ [c])).
  { rewrite (addSeparator_destOf Hds), rooted_snoc, <- app_assoc. reflexivity. }
  assert (Htl : rooted rest <> []) by (destruct rest; [contradiction|discriminate]).
  pose proof (HL (h ++ map EvLstat (walkTrace [] ds)
                    ++ map EvLstat ((rooted ds ++ pathSeparator) :: chain ds)))
    as HL1.
  rewrite <- Happ in HL1. rewrite app_assoc in HL1.
  rewrite (@bind_err _ _ _ _ _ _ _
             (@turn_notdir env uid gi 1 pathSeparator pre' seps' c (rooted rest)
                (destOf ds) 0 fi _ _ Hs' Hc Hat Htl Hchk HL1 Hsym Hdir)).
  rewrite Happ. f_equal. same_trace.
Qed.

(** ** Chains of links (claim C6) *)

Lemma bind_snd_ok {A B} (m : M A) (k : A -> M B) h a :
  snd (m h) = Ok a -> bind m k h = k a (fst (m h)).
Proof. unfold bind. destruct (m h) as [h1 r]. cbn. intros ->. reflexivity. Qed.

Lemma bind_snd_err {A B} (m : M A) (k : A -> M B) h e :
  snd (m h) = Err e -> snd (bind m k h) = Err e.
Proof. unfold bind. destruct (m h) as [h1 r]. cbn. intros ->. reflexivity. Qed.

Lemma destOf_clean ds : Forall ordinary ds -> cleanDest (destOf ds).
Proof.
  intros H. destruct ds as [|c d] using rev_ind; [left; reflexivity|].
  clear IHd. apply Forall_app in H as [_ Hc]. inversion Hc as [|? ? Hc' _]; subst.
  destruct (ordinary_last Hc') as (c' & x & -> & Hx).
  right. rewrite destOf_snoc, rooted_last. eauto.
Qed.

Lemma length_tailPath_ge es :
  Forall ordinary es -> length es <= length (tailPath es).
Proof.
  intros H. destruct es as [|e t]; [simpl; lia|].
  inversion H as [|? ? He Ht]; subst. cbn [tailPath]. rewrite length_app.
  pose proof (length_rooted_ge Ht). destruct He as (Hne & _).
  destruct e; [contradiction|]. simpl. lia.
Qed.

Lemma isAbsLink_rooted cs : cs <> [] -> isAbsLink (rooted cs) = true.
Proof. destruct cs; [contradiction|reflexivity]. Qed.

Lemma isAbsLink_tailPath es :
  Forall ordinary es -> isAbsLink (tailPath es) = false.
Proof.
  intros H. destruct es as [|e t]; [reflexivity|].
  inversion H as [|? ? He _]; subst. destruct He as (Hne & Hn & _).
  destruct e as [|x e]; [contradiction|]. inversion Hn as [|? ? Hx _]; subst.
  unfold isAbsLink. cbn. exact Hx.
Qed.

(** The turn of the loop that meets a symlink: the link is read, the path
    to walk becomes the target followed by what remained, the counter goes
    up by one, and [dest] is the root for a target that begins with a
    separator and what it was before the turn otherwise. *)
Lemma turn_link env uid gi pre seps c tl dest links fi link h h1 :
  allSep seps -> ordinary c -> atSep tl -> cleanDest dest ->
  checkPath env uid gi Execute (addSeparator dest) h = (h1, Ok tt) ->
  Lstat env h1 (addSeparator dest ++ c) = inr fi ->
  IsSymlink fi = true -> links < 255 ->
  Readlink env (h1 ++ [EvLstat (addSeparator dest ++ c)])
    (addSeparator dest ++ c) = inr link ->
  loopBody env uid gi 1 pathSeparator
    (mkWalk (pre ++ seps ++ c ++ tl) (length pre) dest links) h
  = ((h1 ++ [EvLstat (addSeparator dest ++ c)])
       ++ [EvReadlink (addSeparator dest ++ c)],
     Ok (Followed
           (mkWalk (link ++ tl) (if isAbsLink link then 1 else 0)
              (if isAbsLink link then pathSeparator else dest) (S links)))).
Proof.
  intros Hs Hc Hat Hd Hchk HL Hsym Hl HR.
  rewrite (@loopBody_ordinary env uid gi 1 pathSeparator pre seps c tl dest
             links h Hs Hc Hat).
  rewrite (@bind_ok _ _ _ _ _ _ _ Hchk).
  unfold bind, lstat. rewrite HL.
  rewrite (@resolve_link env 1 pathSeparator _ _ _ links _ link _ Hsym Hl HR).
  destruct Hc as (_ & Hn & _).
  rewrite (backUp_appended Hd Hn).
  replace (length pre + length seps + length c)
    with (length (pre ++ seps ++ c)) by (rewrite !length_app; lia).
  replace (pre ++ seps ++ c ++ tl) with ((pre ++ seps ++ c) ++ tl)
    by (rewrite <- !app_assoc; reflexivity).
  rewrite from_app. reflexivity.
Qed.

(** The turn that meets the 256th symlink. *)
Lemma turn_too_many env uid gi volLen vol pre seps c tl dest links fi h h1 :
  allSep seps -> ordinary c -> atSep tl ->
  checkPath env uid gi Execute (addSeparator dest) h = (h1, Ok tt) ->
  Lstat env h1 (addSeparator dest ++ c) = inr fi ->
  IsSymlink fi = true -> 255 <= links ->
  loopBody env uid gi volLen vol
    (mkWalk (pre ++ seps ++ c ++ tl) (length pre) dest links) h
  = (h1 ++ [EvLstat (addSeparator dest ++ c)], Err ETooManyLinks).
Proof.
  intros Hs Hc Hat Hchk HL Hsym Hl.
  rewrite (@loopBody_ordinary env uid gi volLen vol pre seps c tl dest
             links h Hs Hc Hat).
  rewrite (@bind_ok _ _ _ _ _ _ _ Hchk).
  unfold bind, lstat. rewrite HL.
  apply resolve_too_many; assumption.
Qed.

Section LinkChain.

Variable env : Env.
Variables (uid : Z) (gi : list Z).
Variable meta : path -> FileInfo.

Lemma appended ds c :
  Forall ordinary ds -> addSeparator (destOf ds) ++ c = rooted (ds ++ [c]).
Proof.
  intros H. rewrite (addSeparator_destOf H), rooted_snoc, <- app_assoc.
  reflexivity.
Qed.

(** The walk through the directories of a node, up to its last
    component. *)
Lemma walk_to_node dirs done c pre tl j budget fuel h :
  Forall ordinary (done ++ dirs) ->
  traversable env uid gi meta (done ++ dirs) ->
  atSep tl -> length dirs < fuel ->
  exists pre' seps' f,
    allSep seps' /\ fuel = length dirs + S f
    /\ walkLinks env uid gi 1 pathSeparator budget fuel
         (mkWalk (pre ++ tailPath (dirs ++ [c]) ++ tl) (length pre)
            (destOf done) j) h
       = walkLinks env uid gi 1 pathSeparator budget (S f)
           (mkWalk (pre' ++ seps' ++ c ++ tl) (length pre')
              (destOf (done ++ dirs)) j)
           (h ++ map EvLstat (walkTrace done dirs)).
Proof.
  intros Hord Ht Hat Hf.
  destruct (@walk_dirs env uid gi meta 1 pathSeparator dirs done c pre [] tl
              j budget (S (fuel - length dirs - 1)) h Hord Ht (Forall_nil _) Hat)
    as (pre' & seps' & Hq & Hs' & Hw).
  exists pre', seps', (fuel - length dirs - 1).
  split; [assumption|]. split; [lia|].
  replace fuel with (length dirs + S (fuel - length dirs - 1)) at 1 by lia.
  etransitivity; [|exact Hw]. reflexivity.
Qed.

(** The last turns of a walk that ends at a path that is no link. *)
Lemma walk_final pre seps ds c j budget fuel h :
  Forall ordinary (ds ++ [c]) -> traversable env uid gi meta ds ->
  allSep seps ->
  Stat env (rooted (ds ++ [c])) (meta (rooted (ds ++ [c]))) ->
  IsSymlink (meta (rooted (ds ++ [c]))) = false ->
  snd (walkLinks env uid gi 1 pathSeparator budget (S (S fuel))
         (mkWalk (pre ++ seps ++ c ++ []) (length pre) (destOf ds) j) h)
  = Ok (rooted (ds ++ [c])).
Proof.
  intros Hord Ht Hs HL Hsym.
  apply Forall_app in Hord as [Hds Hc]. inversion Hc as [|? ? Hc' _]; subst.
  rewrite walkLinks_unfold. erewrite bind_ok.
  2:{ rewrite (@loopBody_ordinary env uid gi 1 pathSeparator pre seps c []
                 (destOf ds) j h Hs Hc' I).
      rewrite (@bind_ok _ _ _ _ _ _ _ (prefix_check_pass _ Hds Ht)).
      rewrite (appended c Hds).
      rewrite (@bind_ok _ _ _ _ _ _ _ (lstat_Stat _ HL)).
      apply resolve_plain; [assumption|].
      right. rewrite !length_app. simpl. lia. }
  cbv beta iota. rewrite walkLinks_unfold. erewrite bind_ok.
  2:{ apply loopBody_end. rewrite !length_app. simpl. lia. }
  reflexivity.
Qed.

(** The walk of a path that begins at the head of a chain of [n] links,
    [j] links followed before, and goes on with [tl]: where
    [j + n <= 255] it ends at the end of the chain if nothing remains,
    and with ENOTDIR if more remains and the end of the chain is no
    directory; beyond, it ends with ETooManyLinks. *)
Lemma follow_walk n cs final :
  follows env uid gi meta n cs final ->
  forall done todo pre tl j budget fuel h,
    cs = done ++ todo -> todo <> [] -> atSep tl ->
    j <= 255 -> 256 <= j + budget -> length todo < fuel ->
    let r := snd (walkLinks env uid gi 1 pathSeparator budget fuel
                    (mkWalk (pre ++ tailPath todo ++ tl) (length pre)
                       (destOf done) j) h) in
    (j + n <= 255 -> target env uid gi meta final ->
     (tl = [] -> r = Ok (rooted final))
     /\ (tl <> [] -> IsDir (meta (rooted final)) = false -> r = Err ENOTDIR))
    /\ (255 < j + n -> r = Err ETooManyLinks).
Proof.
  induction 1 as [cs|n cs cs' cs'' Hlink Hf IH];
    intros done todo pre tl j budget fuel h Hcs Htodo Hat Hj Hb Hfuel r;
    subst r.
  - split; [|lia]. intros _ (ds & c & Hds & Hord & Ht & HL & Hsym).
    destruct (exists_last Htodo) as (dirs & c' & ->).
    rewrite Hds in Hcs. rewrite app_assoc in Hcs.
    apply app_inj_tail in Hcs as [-> ->].
    rewrite length_app in Hfuel. cbn [length] in Hfuel. subst cs.
    assert (Hdd : Forall ordinary (done ++ dirs)).
    { apply Forall_app in Hord. tauto. }
    assert (Hc : ordinary c').
    { apply Forall_app in Hord as [_ H]. inversion H; assumption. }
    destruct (@walk_to_node dirs done c' pre tl j budget fuel h Hdd Ht Hat)
      as (pre' & seps' & f & Hs' & Hfu & Hw); [lia|].
    rewrite Hw. split.
    + intros ->. destruct f as [|f]; [lia|]. apply walk_final; assumption.
    + intros Htl Hdir. rewrite walkLinks_unfold.
      pose proof (prefix_check_pass
                    (h ++ map EvLstat (walkTrace done dirs)) Hdd Ht) as Hchk.
      assert (HL1 : Lstat env
                      ((h ++ map EvLstat (walkTrace done dirs))
                         ++ map EvLstat ((rooted (done ++ dirs) ++ pathSeparator)
                                         :: chain (done ++ dirs)))
                      (addSeparator (destOf (done ++ dirs)) ++ c')
                    = inr (meta (rooted ((done ++ dirs) ++ [c'])))).
      { rewrite (appended c' Hdd). apply HL. }
      rewrite (@bind_err _ _ _ _ _ _ _
                 (@turn_notdir env uid gi 1 pathSeparator pre' seps' c' tl
                    (destOf (done ++ dirs)) j _ _ _ Hs' Hc Hat Htl Hchk HL1
                    Hsym Hdir)).
      reflexivity.
  - destruct Hlink as (ds & c & link & Hds & Hord & Hord' & Hne' & Ht & HL
                       & Hsym & HR & Htarget).
    destruct (exists_last Htodo) as (dirs & c' & ->).
    rewrite Hds in Hcs. rewrite app_assoc in Hcs.
    apply app_inj_tail in Hcs as [-> ->].
    rewrite length_app in Hfuel. cbn [length] in Hfuel. subst cs.
    assert (Hdd : Forall ordinary (done ++ dirs)).
    { apply Forall_app in Hord. tauto. }
    assert (Hc : ordinary c').
    { apply Forall_app in Hord as [_ H]. inversion H; assumption. }
    destruct (@walk_to_node dirs done c' pre tl j budget fuel h Hdd Ht Hat)
      as (pre' & seps' & f & Hs' & Hfu & Hw); [lia|].
    rewrite Hw. clear Hw. set (h0 := h ++ map EvLstat (walkTrace done dirs)).
    pose proof (prefix_check_pass h0 Hdd Ht) as Hchk.
    set (h1 := h0 ++ map EvLstat ((rooted (done ++ dirs) ++ pathSeparator)
                                  :: chain (done ++ dirs))) in *.
    assert (HL1 : Lstat env h1 (addSeparator (destOf (done ++ dirs)) ++ c')
                  = inr (meta (rooted ((done ++ dirs) ++ [c'])))).
    { rewrite (appended c' Hdd). apply HL. }
    rewrite walkLinks_unfold.
    destruct (Nat.ltb_spec j 255) as [Hlt|Hge].
    + (* one more link is followed *)
      assert (HR1 : Readlink env
                      (h1 ++ [EvLstat (addSeparator (destOf (done ++ dirs)) ++ c')])
                      (addSeparator (destOf (done ++ dirs)) ++ c') = inr link).
      { rewrite (appended c' Hdd). apply HR. }
      rewrite (@bind_ok _ _ _ _ _ _ _
                 (@turn_link env uid gi pre' seps' c' tl (destOf (done ++ dirs)) j
                    _ link h0 h1 Hs' Hc Hat (destOf_clean Hdd)
                    Hchk HL1 Hsym Hlt HR1)).
      cbv beta iota. destruct budget as [|budget]; [lia|]. cbn [wPath].
      destruct Htarget as [->|(es & Hes & -> & ->)].
      * rewrite (isAbsLink_rooted Hne').
        rewrite (rooted_tail Hne'). rewrite <- app_assoc.
        specialize (IH [] cs' pathSeparator tl (S j) budget
                      (S (length (pathSeparator ++ tailPath cs' ++ tl)))
                      ((h1 ++ [EvLstat (addSeparator (destOf (done ++ dirs)) ++ c')])
                         ++ [EvReadlink (addSeparator (destOf (done ++ dirs)) ++ c')])
                      eq_refl Hne' Hat ltac:(lia) ltac:(lia)).
        cbv zeta in IH. destruct IH as [IH1 IH2].
        { pose proof (length_rooted_ge Hord') as Hl.
          rewrite (rooted_tail Hne') in Hl. rewrite !length_app in *. lia. }
        split; intros H.
        -- intros Hfin. apply IH1; [lia|assumption].
        -- apply IH2. lia.
      * assert (Hes' : Forall ordinary es) by (apply Forall_app in Hord'; tauto).
        rewrite (isAbsLink_tailPath Hes').
        specialize (IH (done ++ dirs) es [] tl (S j) budget
                      (S (length (tailPath es ++ tl)))
                      ((h1 ++ [EvLstat (addSeparator (destOf (done ++ dirs)) ++ c')])
                         ++ [EvReadlink (addSeparator (destOf (done ++ dirs)) ++ c')])
                      eq_refl Hes Hat ltac:(lia) ltac:(lia)).
        cbv zeta in IH. destruct IH as [IH1 IH2].
        { pose proof (length_tailPath_ge Hes'). rewrite length_app. lia. }
        split; intros H.
        -- intros Hfin. apply IH1; [lia|assumption].
        -- apply IH2. lia.
    + (* the 256th link *)
      split; [lia|]. intros _.
      rewrite (@bind_err _ _ _ _ _ _ _
                 (@turn_too_many env uid gi 1 pathSeparator pre' seps' c' tl
                    (destOf (done ++ dirs)) j _ h0 h1 Hs' Hc Hat
                    Hchk HL1 Hsym Hge)).
      reflexivity.
Qed.

(** The last check of [access], on the end of a chain. *)
Lemma final_check mode ds c h :
  Forall ordinary (ds ++ [c]) -> traversable env uid gi meta ds ->
  Stat env (rooted (ds ++ [c])) (meta (rooted (ds ++ [c]))) ->
  snd (checkPath env uid gi mode (rooted (ds ++ [c])) h)
  = if refused uid gi mode (meta (rooted (ds ++ [c])))
    then Err (EPermission (denial uid gi mode (rooted (ds ++ [c]))
                             (meta (rooted (ds ++ [c])))))
    else Ok tt.
Proof.
  intros Hord Ht HL.
  apply ordinary_noSep in Hord. apply Forall_app in Hord as [Hds Hc].
  inversion Hc as [|? ? Hc' _]; subst.
  rewrite checkPath_chain by assumption. unfold bind.
  rewrite (checkOne_Stat uid gi mode h HL).
  destruct (refused uid gi mode (meta (rooted (ds ++ [c])))); [reflexivity|].
  rewrite (@checkEach_pass env uid gi meta)
    by (intros q Hq; eapply traversable_chain; eassumption).
  reflexivity.
Qed.

Lemma follows_head n cs final :
  follows env uid gi meta n cs final ->
  target env uid gi meta final \/ 0 < n ->
  Forall ordinary cs /\ cs <> [].
Proof.
  intros Hf Hor. destruct Hf as [cs|n cs cs' cs'' Hlink _].
  - destruct Hor as [(ds & c & -> & Hord & _)|H]; [|lia].
    split; [assumption|]. destruct ds; discriminate.
  - destruct Hlink as (ds & c & link & -> & Hord & _).
    split; [assumption|]. destruct ds; discriminate.
Qed.

(** The walk and the whole check from the head of a chain of [n] links. *)
Lemma chain_access user mode n cs final h :
  groupsOf env user gi ->
  Abs env (rooted cs) = inr (rooted cs) ->
  follows env uid gi meta n cs final ->
  (n <= 255 -> target env uid gi meta final ->
   snd (walkLinks env uid gi 1 pathSeparator 256 (S (length (rooted cs)))
          (mkWalk (rooted cs) 1 pathSeparator 0) h)
   = Ok (rooted final)
   /\ snd (access env user uid mode (rooted cs) h)
      = (if refused uid gi mode (meta (rooted final))
         then Err (EPermission (denial uid gi mode (rooted final)
                                  (meta (rooted final))))
         else Ok tt))
  /\ (255 < n ->
      snd (walkLinks env uid gi 1 pathSeparator 256 (S (length (rooted cs)))
             (mkWalk (rooted cs) 1 pathSeparator 0) h)
      = Err ETooManyLinks
      /\ snd (access env user uid mode (rooted cs) h) = Err ETooManyLinks).
Proof.
  intros Hg Habs Hf.
  assert (Hhead : target env uid gi meta final \/ 0 < n ->
                  Forall ordinary cs /\ cs <> [])
    by (apply follows_head; assumption).
  assert (Hwalk : forall Hne : cs <> [], Forall ordinary cs ->
            (0 + n <= 255 -> target env uid gi meta final ->
             snd (walkLinks env uid gi 1 pathSeparator 256
                    (S (length (rooted cs)))
                    (mkWalk (rooted cs) 1 pathSeparator 0) h)
             = Ok (rooted final))
            /\ (255 < 0 + n ->
                snd (walkLinks env uid gi 1 pathSeparator 256
                       (S (length (rooted cs)))
                       (mkWalk (rooted cs) 1 pathSeparator 0) h)
                = Err ETooManyLinks)).
  { intros Hne Hord.
    assert (Hp : rooted cs = pathSeparator ++ tailPath cs ++ [])
      by (rewrite app_nil_r; apply rooted_tail; assumption).
    rewrite Hp.
    destruct (@follow_walk n cs final Hf [] cs pathSeparator [] 0 256
                (S (length (pathSeparator ++ tailPath cs ++ []))) h eq_refl Hne I)
      as [H1 H2]; try lia.
    { rewrite <- Hp. pose proof (length_rooted_ge Hord). lia. }
    split; [|exact H2].
    intros Hn Hfin. apply (H1 Hn Hfin). reflexivity. }
  assert (Hacc : cs <> [] ->
            access env user uid mode (rooted cs) h
            = (dest <- walkLinks env uid gi 1 pathSeparator 256
                         (S (length (rooted cs)))
                         (mkWalk (rooted cs) 1 pathSeparator 0) ;;
               checkPath env uid gi mode dest) h).
  { intros Hne.
    assert (Hd : rooted cs = destOf cs) by (destruct cs; [contradiction|reflexivity]).
    rewrite Hd in Habs |- *. apply access_start; assumption. }
  split.
  - intros Hn Hfin. destruct (Hhead (or_introl Hfin)) as [Hord Hne].
    destruct (Hwalk Hne Hord) as [Hw _]. specialize (Hw ltac:(lia) Hfin).
    split; [exact Hw|].
    rewrite (Hacc Hne), (@bind_snd_ok _ _ _ _ _ _ Hw).
    destruct Hfin as (ds & c & -> & Hord' & Ht & HL & _).
    apply final_check; assumption.
  - intros Hn. assert (H0 : 0 < n) by lia.
    destruct (Hhead (or_intror H0)) as [Hord Hne].
    destruct (Hwalk Hne Hord) as [_ Hw]. specialize (Hw ltac:(lia)).
    split; [exact Hw|].
    rewrite (Hacc Hne). apply bind_snd_err. exact Hw.
Qed.

(** The whole check of a path that goes on after the head of a chain of
    links that ends in something that is no directory. *)
Lemma chain_notdir user mode n cs final rest h :
  groupsOf env user gi ->
  Abs env (rooted (cs ++ rest)) = inr (rooted (cs ++ rest)) ->
  follows env uid gi meta n cs final -> n <= 255 ->
  target env uid gi meta final ->
  IsDir (meta (rooted final)) = false ->
  rest <> [] -> Forall ordinary rest ->
  snd (access env user uid mode (rooted (cs ++ rest)) h) = Err ENOTDIR.
Proof.
  intros Hg Habs Hf Hn Hfin Hdir Hrest Hord'.
  destruct (follows_head Hf (or_introl Hfin)) as [Hord Hne].
  assert (Hd : rooted (cs ++ rest) = destOf (cs ++ rest))
    by (destruct cs; [contradiction|reflexivity]).
  rewrite Hd in Habs |- *.
  rewrite (@access_start env user uid gi mode (cs ++ rest) h Hg Habs).
  apply bind_snd_err. rewrite <- Hd.
  assert (Hp : rooted (cs ++ rest)
               = pathSeparator ++ tailPath cs ++ rooted rest).
  { rewrite rooted_app, (rooted_tail Hne), <- app_assoc. reflexivity. }
  rewrite Hp.
  destruct (@follow_walk n cs final Hf [] cs pathSeparator (rooted rest) 0 256
              (S (length (pathSeparator ++ tailPath cs ++ rooted rest))) h
              eq_refl Hne (rooted_atSep rest))
    as [H1 _]; try lia.
  { rewrite <- Hp. rewrite rooted_app, length_app.
    pose proof (length_rooted_ge Hord). lia. }
  apply (H1 ltac:(lia) Hfin); [|assumption].
  destruct rest; [contradiction|discriminate].
Qed.

End LinkChain.

(** C6: where the walk meets a symlink (fewer than 255 followed before),
    it reads the link, the counter goes up by one, and the walk goes on
    with the target followed by what remained of the path, from the root
    for a target that begins with a separator and otherwise from what
    [dest] was before the component was appended; at the 256th link
    the walk fails with ETooManyLinks, without reading the link.  So in
    every tree the walk from the head of a chain of n <= 255 links (each in
    directories that the principal can pass, with an absolute target or a
    relative one) ends with the path at the end of the chain as dest, and
    the check returns what the check of that path with the mode asked
    gives; for n > 255 the walk and the check return ETooManyLinks. *)
Theorem C6_symlinks :
  (forall env uid gi pre seps c tl dest links fi link h h1 budget fuel,
      allSep seps -> ordinary c -> atSep tl -> cleanDest dest ->
      checkPath env uid gi Execute (addSeparator dest) h = (h1, Ok tt) ->
      Lstat env h1 (addSeparator dest ++ c) = inr fi ->
      IsSymlink fi = true ->
      let st := mkWalk (pre ++ seps ++ c ++ tl) (length pre) dest links in
      let h2 := h1 ++ [EvLstat (addSeparator dest ++ c)] in
      (links < 255 ->
       Readlink env h2 (addSeparator dest ++ c) = inr link ->
       let st' := mkWalk (link ++ tl) (if isAbsLink link then 1 else 0)
                    (if isAbsLink link then pathSeparator else dest)
                    (S links) in
       loopBody env uid gi 1 pathSeparator st h
       = (h2 ++ [EvReadlink (addSeparator dest ++ c)], Ok (Followed st'))
       /\ walkLinks env uid gi 1 pathSeparator (S budget) (S fuel) st h
          = walkLinks env uid gi 1 pathSeparator budget
              (S (length (link ++ tl))) st'
              (h2 ++ [EvReadlink (addSeparator dest ++ c)]))
      /\ (255 <= links ->
          walkLinks env uid gi 1 pathSeparator budget (S fuel) st h
          = (h2, Err ETooManyLinks)))
  /\ (forall env user uid gi mode meta n cs final h,
        groupsOf env user gi ->
        Abs env (rooted cs) = inr (rooted cs) ->
        follows env uid gi meta n cs final ->
        (n <= 255 -> target env uid gi meta final ->
         snd (walkLinks env uid gi 1 pathSeparator 256 (S (length (rooted cs)))
                (mkWalk (rooted cs) 1 pathSeparator 0) h)
         = Ok (rooted final)
         /\ snd (access env user uid mode (rooted cs) h)
            = (if refused uid gi mode (meta (rooted final))
               then Err (EPermission (denial uid gi mode (rooted final)
                                        (meta (rooted final))))
               else Ok tt))
        /\ (255 < n ->
            snd (walkLinks env uid gi 1 pathSeparator 256
                   (S (length (rooted cs)))
                   (mkWalk (rooted cs) 1 pathSeparator 0) h)
            = Err ETooManyLinks
            /\ snd (access env user uid mode (rooted cs) h)
               = Err ETooManyLinks)).
Proof.
  split.
  - intros env uid gi pre seps c tl dest links fi link h h1 budget fuel
      Hs Hc Hat Hd Hchk HL Hsym st h2. split.
    + intros Hl HR st'.
      pose proof (@turn_link env uid gi pre seps c tl dest links fi link h h1
                    Hs Hc Hat Hd Hchk HL Hsym Hl HR) as Hturn.
      split; [exact Hturn|].
      rewrite walkLinks_unfold. subst st.
      rewrite (@bind_ok _ _ _ _ _ _ _ Hturn). reflexivity.
    + intros Hl. rewrite walkLinks_unfold. subst st.
      rewrite (@bind_err _ _ _ _ _ _ _
                 (@turn_too_many env uid gi 1 pathSeparator pre seps c tl dest
                    links fi h h1 Hs Hc Hat Hchk HL Hsym Hl)).
      reflexivity.
  - intros. apply chain_access; assumption.
Qed.

Lemma relay_follows :
  follows (Table.tableEnv Trees.relay "/") 1000 [1000%Z]
    (Trees.metaOf Trees.relay) 2 [str "s"] [str "a"; str "f"].
Proof.
  apply follows_link with (cs' := [str "a"; str "t"]).
  { exists [], (str "s"), (str "/a/t").
    split; [reflexivity|]. split; [repeat constructor; discriminate|].
    split; [repeat constructor; discriminate|]. split; [discriminate|].
    split; [split; [intros h; reflexivity|];
            split; [reflexivity|]; intros k Hk; simpl in Hk; lia|].
    split; [intros h; reflexivity|]. split; [reflexivity|].
    split; [intros h; reflexivity|]. left. reflexivity. }
  apply follows_link with (cs' := [str "a"; str "f"]); [|apply follows_here].
  exists [str "a"], (str "t"), (str "f").
  split; [reflexivity|]. split; [repeat constructor; discriminate|].
  split; [repeat constructor; discriminate|]. split; [discriminate|].
  split.
  { split; [intros h; reflexivity|]. split; [reflexivity|].
    intros k Hk. destruct k as [|k]; [|simpl in Hk; lia]. cbv zeta.
    split; [intros h; reflexivity|]. split; [reflexivity|].
    split; [reflexivity|]. split; [intros h; reflexivity|reflexivity]. }
  split; [intros h; reflexivity|]. split; [reflexivity|].
  split; [intros h; reflexivity|]. right.
  exists [str "f"]. split; [discriminate|]. split; reflexivity.
Defined.

Lemma relay_target :
  target (Table.tableEnv Trees.relay "/") 1000 [1000%Z]
    (Trees.metaOf Trees.relay) [str "a"; str "f"].
Proof.
  exists [str "a"], (str "f").
  split; [reflexivity|]. split; [repeat constructor; discriminate|].
  split.
  { split; [intros h; reflexivity|]. split; [reflexivity|].
    intros k Hk. destruct k as [|k]; [|simpl in Hk; lia]. cbv zeta.
    split; [intros h; reflexivity|]. split; [reflexivity|].
    split; [reflexivity|]. split; [intros h; reflexivity|reflexivity]. }
  split; [intros h; reflexivity|reflexivity].
Defined.

Lemma C6_symlinks_witness :
  snd (walkLinks (Table.tableEnv Trees.relay "/") 1000 [1000%Z] 1 pathSeparator
         256 (S (length (rooted [str "s"])))
         (mkWalk (rooted [str "s"]) 1 pathSeparator 0) [])
  = Ok (rooted [str "a"; str "f"])
  /\ snd (access (Table.tableEnv Trees.relay "/") Trees.alice 1000 Read
            (rooted [str "s"]) [])
     = (if refused 1000 [1000%Z] Read
             (Trees.metaOf Trees.relay (rooted [str "a"; str "f"]))
        then Err (EPermission
                    (denial 1000 [1000%Z] Read (rooted [str "a"; str "f"])
                       (Trees.metaOf Trees.relay (rooted [str "a"; str "f"]))))
        else Ok tt).
Proof.
  refine (proj1 (proj2 C6_symlinks (Table.tableEnv Trees.relay "/") Trees.alice
                   1000%Z [1000%Z] Read (Trees.metaOf Trees.relay) 2
                   [str "s"] [str "a"; str "f"] [] _ _ _) _ _).
  - apply alice_groups.
  - reflexivity.
  - apply relay_follows.
  - lia.
  - apply relay_target.
Defined.

(** The run of the check through the two links of that tree. *)
Example access_relay :
  access (Table.tableEnv Trees.relay "/") Trees.alice 1000 Read (str "/s") []
  = ([EvLstat (str "/"); EvLstat (str "/s"); EvReadlink (str "/s");
      EvLstat (str "/"); EvLstat (str "/a");
      EvLstat (str "/a/"); EvLstat (str "/a"); EvLstat (str "/a/t");
      EvReadlink (str "/a/t");
      EvLstat (str "/a/"); EvLstat (str "/a"); EvLstat (str "/a/f");
      EvLstat (str "/a/f"); EvLstat (str "/a")],
     Ok tt).
Proof. vm_compute. reflexivity. Qed.

(** A link to itself is the head of a chain of any length that never
    ends: the check ends with ETooManyLinks. *)
Lemma loop_follows uid n :
  follows (Table.tableEnv Trees.loop "/") uid [1000%Z]
    (Trees.metaOf Trees.loop) n [str "l"] [str "l"].
Proof.
  induction n as [|n IH]; [apply follows_here|].
  apply follows_link with (cs' := [str "l"]); [|exact IH].
  exists [], (str "l"), (str "l").
  split; [reflexivity|]. split; [repeat constructor; discriminate|].
  split; [repeat constructor; discriminate|]. split; [discriminate|].
  split.
  { split; [intros h; reflexivity|].
    split; [unfold refused; destruct (uid =? 0)%Z; reflexivity|].
    intros k Hk. simpl in Hk. lia. }
  split; [intros h; reflexivity|]. split; [reflexivity|].
  split; [intros h; reflexivity|]. right.
  exists [str "l"]. split; [discriminate|]. split; reflexivity.
Qed.

Lemma loop_too_many_links uid mode :
  snd (access (Table.tableEnv Trees.loop "/") Trees.alice uid mode (str "/l") [])
  = Err ETooManyLinks.
Proof.
  apply (@chain_access (Table.tableEnv Trees.loop "/") uid [1000%Z]
           (Trees.metaOf Trees.loop) Trees.alice mode 256 [str "l"] [str "l"] []
           (alice_groups _) eq_refl (loop_follows uid 256)).
  lia.
Qed.

(** ** A component that is no directory (claim C8) *)

(** C8: in every turn of the walk for an ordinary component whose metadata
    says neither symlink nor directory while more of the path remains after
    it, the turn, and with it the walk from there, fails with ENOTDIR; the
    whole check of a path that goes through such a component, behind
    directories that the principal can pass, returns ENOTDIR, after the
    calls for the directories and for the component; and so does the whole
    check of a path that goes on after a chain of at most 255 links that
    ends in something that is no directory. *)
Theorem C8_not_a_directory :
  (forall env uid gi volLen vol pre seps c tl dest links fi h h1 budget fuel,
      allSep seps -> ordinary c -> atSep tl -> tl <> [] ->
      checkPath env uid gi Execute (addSeparator dest) h = (h1, Ok tt) ->
      Lstat env h1 (addSeparator dest ++ c) = inr fi ->
      IsSymlink fi = false -> IsDir fi = false ->
      let st := mkWalk (pre ++ seps ++ c ++ tl) (length pre) dest links in
      loopBody env uid gi volLen vol st h
      = (h1 ++ [EvLstat (addSeparator dest ++ c)], Err ENOTDIR)
      /\ walkLinks env uid gi volLen vol budget (S fuel) st h
         = (h1 ++ [EvLstat (addSeparator dest ++ c)], Err ENOTDIR))
  /\ (forall env user uid gi mode meta ds c rest fi h,
        groupsOf env user gi ->
        Abs env (rooted (ds ++ c :: rest)) = inr (rooted (ds ++ c :: rest)) ->
        Forall ordinary (ds ++ c :: rest) -> rest <> [] ->
        traversable env uid gi meta ds ->
        Stat env (rooted (ds ++ [c])) fi ->
        IsSymlink fi = false -> IsDir fi = false ->
        access env user uid mode (rooted (ds ++ c :: rest)) h
        = (h ++ map EvLstat (walkTrace [] ds
                             ++ (rooted ds ++ pathSeparator) :: chain ds
                             ++ [rooted (ds ++ [c])]),
           Err ENOTDIR))
  /\ (forall env user uid gi mode meta n cs final rest h,
        groupsOf env user gi ->
        Abs env (rooted (cs ++ rest)) = inr (rooted (cs ++ rest)) ->
        follows env uid gi meta n cs final -> n <= 255 ->
        target env uid gi meta final ->
        IsDir (meta (rooted final)) = false ->
        rest <> [] -> Forall ordinary rest ->
        snd (access env user uid mode (rooted (cs ++ rest)) h) = Err ENOTDIR).
Proof.
  split; [|split].
  - intros env uid gi volLen vol pre seps c tl dest links fi h h1 budget fuel
      Hs Hc Hat Htl Hchk HL Hsym Hdir st.
    pose proof (@turn_notdir env uid gi volLen vol pre seps c tl dest links fi
                  h h1 Hs Hc Hat Htl Hchk HL Hsym Hdir) as Hb.
    split; [exact Hb|].
    rewrite walkLinks_unfold. subst st.
    rewrite (@bind_err _ _ _ _ _ _ _ Hb). reflexivity.
  - intros. eapply access_notdir; eassumption.
  - intros. eapply chain_notdir; eassumption.
Qed.

Lemma home_traversable uid :
  traversable (Table.tableEnv Trees.home "/") uid [1000%Z]
    (Trees.metaOf Trees.home) [str "a"].
Proof.
  split; [intros h; reflexivity|].
  split; [unfold refused; destruct (uid =? 0)%Z; reflexivity|].
  intros k Hk. destruct k as [|k]; [|simpl in Hk; lia]. cbv zeta.
  split; [intros h; reflexivity|]. split; [reflexivity|].
  split; [reflexivity|]. split; [intros h; reflexivity|].
  unfold refused; destruct (uid =? 0)%Z; reflexivity.
Defined.

Lemma C8_not_a_directory_witness :
  access (Table.tableEnv Trees.home "/") Trees.alice 1000 Read
    (rooted ([str "a"] ++ str "f" :: [str "x"])) []
  = ([] ++ map EvLstat (walkTrace [] [str "a"]
                        ++ (rooted [str "a"] ++ pathSeparator) :: chain [str "a"]
                        ++ [rooted ([str "a"] ++ [str "f"])]),
     Err ENOTDIR).
Proof.
  refine (proj1 (proj2 C8_not_a_directory) (Table.tableEnv Trees.home "/") Trees.alice
            1000%Z [1000%Z] Read (Trees.metaOf Trees.home) [str "a"] (str "f")
            [str "x"] (mkFileInfo 420 1000 1000) [] _ _ _ _ _ _ _ _).
  - apply alice_groups.
  - reflexivity.
  - repeat constructor; discriminate.
  - discriminate.
  - apply home_traversable.
  - intros h. reflexivity.
  - reflexivity.
  - reflexivity.
Defined.

(** A file directly under the root: [/f] is a file, [/f/x] is asked. *)
Example access_not_a_directory :
  access (Table.tableEnv Trees.flat "/") Trees.alice 1000 Read (str "/f/x") []
  = ([EvLstat (str "/"); EvLstat (str "/f")], Err ENOTDIR).
Proof. vm_compute. reflexivity. Qed.

(** Through two links: [/s] leads to the file [/a/f], and [/s/x] is
    asked. *)
Example access_not_a_directory_link :
  access (Table.tableEnv Trees.relay "/") Trees.alice 1000 Read (str "/s/x") []
  = ([EvLstat (str "/"); EvLstat (str "/s"); EvReadlink (str "/s");
      EvLstat (str "/"); EvLstat (str "/a");
      EvLstat (str "/a/"); EvLstat (str "/a"); EvLstat (str "/a/t");
      EvReadlink (str "/a/t");
      EvLstat (str "/a/"); EvLstat (str "/a"); EvLstat (str "/a/f")],
     Err ENOTDIR).
Proof. vm_compute. reflexivity. Qed.

(** ** [..] in the walk (claim C5) *)

Lemma addSeparator_clean a x :
  IsPathSeparator x = false ->
  addSeparator (a ++ [x]) = (a ++ [x]) ++ pathSeparator.
Proof.
  intros Hx. unfold addSeparator. rewrite byteAt_last, Hx.
  replace (0 <? length (a ++ [x])) with true; [reflexivity|].
  symmetry. apply Nat.ltb_lt. rewrite length_app. simpl. lia.
Qed.

(** The walk meets [..] only in the target of a link, since filepath.Abs
    cleans the path given.  There, where an ordinary component c that is a
    directory (no symlink) is followed by [..] and the resolved prefix is
    not the root, the walk checks the prefix, fetches the metadata of c
    once with Lstat, and the turn for [..] restores the prefix it had
    before c, with no further call; the permission bits of c are not
    looked at. *)
Lemma dotdot_after_directory :
  forall env uid gi volLen vol pre seps c seps2 tl a x links fi h h1,
    allSep seps -> ordinary c -> allSep seps2 -> seps2 <> [] -> atSep tl ->
    IsPathSeparator x = false -> volLen <= length (a ++ [x]) ->
    checkPath env uid gi Execute ((a ++ [x]) ++ pathSeparator) h = (h1, Ok tt) ->
    Lstat env h1 (((a ++ [x]) ++ pathSeparator) ++ c) = inr fi ->
    IsSymlink fi = false -> IsDir fi = true ->
    let p := pre ++ seps ++ c ++ seps2 ++ str ".." ++ tl in
    let h2 := h1 ++ [EvLstat (((a ++ [x]) ++ pathSeparator) ++ c)] in
    let st1 := mkWalk p (length pre + length seps + length c)
                 (((a ++ [x]) ++ pathSeparator) ++ c) links in
    loopBody env uid gi volLen vol (mkWalk p (length pre) (a ++ [x]) links) h
    = (h2, Ok (Continue st1))
    /\ loopBody env uid gi volLen vol st1 h2
       = (h2, Ok (Continue
                    (mkWalk p
                       (length (pre ++ seps ++ c) + length seps2 + 2)
                       (a ++ [x]) links))).
Proof.
  intros env uid gi volLen vol pre seps c seps2 tl a x links fi h h1
    Hs Hc Hs2 Hne Hat Hx Hv Hchk HL Hsym Hdir p h2 st1.
  assert (Hat2 : atSep (seps2 ++ str ".." ++ tl)).
  { destruct seps2 as [|s seps2]; [contradiction|]. inversion Hs2; assumption. }
  split.
  - subst p st1 h2.
    rewrite (@loopBody_ordinary env uid gi volLen vol pre seps c
               (seps2 ++ str ".." ++ tl) (a ++ [x]) links h Hs Hc Hat2).
    rewrite (@addSeparator_clean a x Hx).
    rewrite (@bind_ok _ _ _ _ _ _ _ Hchk).
    unfold bind, lstat. rewrite HL.
    apply resolve_plain; [assumption|left; assumption].
  - subst st1.
    assert (Hp : p = (pre ++ seps ++ c) ++ seps2 ++ str ".." ++ tl)
      by (subst p; rewrite <- !app_assoc; reflexivity).
    assert (Hl : length pre + length seps + length c = length (pre ++ seps ++ c))
      by (rewrite !length_app; lia).
    rewrite Hp, Hl.
    rewrite (@loopBody_dotdot env uid gi volLen vol (pre ++ seps ++ c) seps2 tl
               (((a ++ [x]) ++ pathSeparator) ++ c) links h2 Hs2 Hat).
    destruct Hc as (_ & Hn & _ & Hdd).
    replace (dotdot volLen (((a ++ [x]) ++ pathSeparator) ++ c)) with (a ++ [x]);
      [reflexivity|].
    symmetry. rewrite <- app_assoc. apply dotdot_cancel; assumption.
Qed.

(** In the target of a link the component that [..] cancels has its
    metadata fetched ([/d/x] in the trace); under the root [..] is kept
    (see below), and the directory before it is then checked, and
    refused. *)
Example dotdot_in_link_target :
  access (Table.tableEnv Trees.detour "/") Trees.alice 1000 Read (str "/l") []
  = (map EvLstat [str "/"; str "/l"] ++ [EvReadlink (str "/l")]
     ++ map EvLstat [str "/"; str "/d"; str "/d/"; str "/d"; str "/d/x";
                     str "/d/"; str "/d"; str "/d/f"; str "/d/f"; str "/d"],
     Ok tt)
  /\ access (Table.tableEnv Trees.shortcut "/") Trees.alice 1000 Read (str "/m") []
     = (map EvLstat [str "/"; str "/m"] ++ [EvReadlink (str "/m")]
        ++ map EvLstat [str "/"; str "/x"; str "/x/../"; str "/x/.."; str "/x"],
        Err (EPermission
               {| File := str "/x";
                  FileMode := ModeDir;
                  FileUid := 0;
                  FileGid := 0;
                  Uid := 1000;
                  Gid := [1000%Z];
                  WantMode := Execute |})).
Proof. split; vm_compute; reflexivity. Qed.

(** C5 fails on the code: [..] met while [dest] is the root makes [dest]
    the path [/..], and one component under the root [/a/..]; the last
    check of the walk through the link [/up] to [..] is made on the path
    [/..]. *)
Theorem C5_dotdot_at_root :
  dotdot 1 (str "/") = str "/.."
  /\ dotdot 1 (str "/a") = str "/a/.."
  /\ walkLinks (Table.tableEnv Trees.climb "/") 1000 [1000%Z] 1 pathSeparator
       256 4 (mkWalk (str "/up") 1 pathSeparator 0) []
     = ([EvLstat (str "/"); EvLstat (str "/up"); EvReadlink (str "/up")],
        Ok (str "/.."))
  /\ access (Table.tableEnv Trees.climb "/") Trees.alice 1000 Read (str "/up") []
     = ([EvLstat (str "/"); EvLstat (str "/up"); EvReadlink (str "/up");
         EvLstat (str "/..")],
        Ok tt).
Proof. repeat split; vm_compute; reflexivity. Qed.

(** ** A component followed by [..] in the path given (claim C7)

    [access] hands the path to filepath.Abs before the walk, and
    filepath.Abs cleans it: a component and the [..] after it go away
    together, so the walk never comes to the component. *)

Lemma components_noSep x :
  noSep x ->
  forall r cur, Table.components (x ++ r) cur = Table.components r (rev x ++ cur).
Proof.
  induction 1 as [|a x Ha _ IH]; intros r cur; [reflexivity|].
  cbn [app Table.components]. rewrite Ha, IH. cbn [rev].
  rewrite <- app_assoc. reflexivity.
Qed.

Lemma components_rooted xs :
  Forall noSep xs ->
  forall cur, Table.components (rooted xs) cur = rev cur :: xs.
Proof.
  induction 1 as [|x xs Hx _ IH]; intros cur; [reflexivity|].
  cbn [rooted Table.components].
  replace (IsPathSeparator PathSeparator) with true by reflexivity.
  rewrite (components_noSep Hx), IH, app_nil_r, rev_involutive. reflexivity.
Qed.

Lemma Clean_destOf xs :
  Forall noSep xs ->
  Table.Clean (destOf xs)
  = pathSeparator ++ Table.joinSep (Table.cleanStack xs []).
Proof.
  intros H. destruct xs as [|x xs]; [reflexivity|].
  unfold Table.Clean. cbn [destOf]. rewrite (components_rooted H). reflexivity.
Qed.

Lemma cleanStack_cancel c ys :
  ordinary c ->
  forall xs st,
    Table.cleanStack (xs ++ c :: str ".." :: ys) st
    = Table.cleanStack (xs ++ ys) st.
Proof.
  intros (Hne & _ & Hdot & Hdd). induction xs as [|x xs IH]; intros st.
  - cbn [app Table.cleanStack].
    rewrite (path_eqb_neq Hne), (path_eqb_neq Hdot), (path_eqb_neq Hdd).
    reflexivity.
  - cbn [app Table.cleanStack].
    destruct (path_eqb x [] || path_eqb x (str ".")); [apply IH|].
    destruct (path_eqb x (str "..")); apply IH.
Qed.

Lemma cleanStack_ordinary cs :
  Forall ordinary cs -> forall st, Table.cleanStack cs st = rev st ++ cs.
Proof.
  induction 1 as [|c cs (Hne & _ & Hdot & Hdd) _ IH]; intros st.
  - cbn. rewrite app_nil_r. reflexivity.
  - cbn [Table.cleanStack].
    rewrite (path_eqb_neq Hne), (path_eqb_neq Hdot), (path_eqb_neq Hdd).
    cbn [orb]. rewrite IH. cbn [rev]. rewrite <- app_assoc. reflexivity.
Qed.

Lemma joinSep_rooted cs :
  cs <> [] -> pathSeparator ++ Table.joinSep cs = rooted cs.
Proof.
  induction cs as [|c cs IH]; [contradiction|]. intros _.
  destruct cs as [|c' t].
  - cbn. rewrite app_nil_r. reflexivity.
  - cbn [Table.joinSep rooted]. specialize (IH ltac:(discriminate)).
    cbn [rooted] in IH. rewrite <- IH. reflexivity.
Qed.

(** filepath.Clean leaves a rooted path of ordinary components as it
    is. *)
Lemma Clean_ordinary cs :
  Forall ordinary cs -> Table.Clean (destOf cs) = destOf cs.
Proof.
  intros H. rewrite (Clean_destOf (ordinary_noSep H)).
  rewrite (cleanStack_ordinary H). cbn [rev app].
  destruct cs as [|c cs]; [reflexivity|]. apply joinSep_rooted. discriminate.
Qed.

(** filepath.Clean takes a component and the [..] after it away. *)
Lemma Clean_cancel xs c ys :
  Forall noSep xs -> ordinary c -> Forall noSep ys ->
  Table.Clean (rooted (xs ++ c :: str ".." :: ys))
  = Table.Clean (destOf (xs ++ ys)).
Proof.
  intros Hxs Hc Hys.
  assert (H1 : Forall noSep (xs ++ c :: str ".." :: ys)).
  { apply Forall_app. split; [assumption|].
    constructor; [apply Hc|]. constructor; [repeat constructor|assumption]. }
  assert (H2 : Forall noSep (xs ++ ys)) by (apply Forall_app; tauto).
  replace (rooted (xs ++ c :: str ".." :: ys))
    with (destOf (xs ++ c :: str ".." :: ys)) by (destruct xs; reflexivity).
  rewrite (Clean_destOf H1), (Clean_destOf H2), (cleanStack_cancel ys Hc).
  reflexivity.
Qed.

(** [access] looks at the path given only through filepath.Abs. *)
Lemma access_Abs env user uid mode p q h :
  Abs env p = Abs env q ->
  access env user uid mode p h = access env user uid mode q h.
Proof. intros H. unfold access. rewrite H. reflexivity. Qed.

(** Which paths a check that passes asks for. *)
Lemma split_at_sep x :
  noSep x ->
  forall y r r',
    noSep y -> atSep r -> atSep r' -> x ++ r = y ++ r' -> x = y /\ r = r'.
Proof.
  induction 1 as [|a x Ha _ IH]; intros y r r' Hy Hr Hr' Heq.
  - destruct y as [|b y]; [split; [reflexivity|exact Heq]|].
    exfalso. cbn [app] in Heq. subst r. cbn in Hr.
    inversion Hy as [|? ? Hb _]; subst. congruence.
  - destruct y as [|b y].
    + exfalso. cbn [app] in Heq. subst r'. cbn in Hr'. congruence.
    + cbn [app] in Heq. injection Heq as -> Heq.
      inversion Hy as [|? ? _ Hy']; subst.
      destruct (IH y r r' Hy' Hr Hr' Heq) as [-> ->]. split; reflexivity.
Qed.

Lemma rooted_inj a :
  Forall noSep a -> forall b, Forall noSep b -> rooted a = rooted b -> a = b.
Proof.
  induction 1 as [|x a Hx _ IH]; intros b Hb Heq.
  - destruct b; [reflexivity|discriminate].
  - destruct b as [|y b]; [discriminate|].
    inversion Hb as [|? ? Hy Hb']; subst.
    cbn [rooted] in Heq. injection Heq as Heq.
    destruct (@split_at_sep x Hx y (rooted a) (rooted b) Hy (rooted_atSep a)
                (rooted_atSep b) Heq)
      as [-> Hr].
    f_equal. apply IH; assumption.
Qed.

Lemma in_chain_app a b q : In q (chain a) -> In q (chain (a ++ b)).
Proof.
  intros H. apply in_chain in H as (k & Hk & ->). apply in_chain.
  exists k. split; [rewrite length_app; lia|].
  rewrite firstn_app_le by lia. reflexivity.
Qed.

Lemma in_walkTrace todo :
  forall done q,
    In q (walkTrace done todo) ->
    (exists m, m <= length (done ++ todo)
       /\ q = rooted (firstn m (done ++ todo)) ++ pathSeparator)
    \/ In q (chain (done ++ todo)).
Proof.
  induction todo as [|c t IH]; intros done q Hq; [contradiction|].
  assert (Hcs : (done ++ [c]) ++ t = done ++ c :: t)
    by (rewrite <- app_assoc; reflexivity).
  cbn [walkTrace] in Hq. apply in_app_or in Hq as [[<-|Hq]|Hq].
  - left. exists (length done). split; [rewrite length_app; lia|].
    rewrite firstn_app_le, firstn_all by lia. reflexivity.
  - right. apply in_chain_app. assumption.
  - apply in_app_or in Hq as [[<-|[]]|Hq].
    + right. rewrite <- Hcs. apply in_chain_app. rewrite chain_snoc.
      left. reflexivity.
    + apply IH in Hq. rewrite Hcs in Hq. exact Hq.
Qed.

Lemma in_accessTrace cs q :
  In q (accessTrace cs) ->
  (exists m, m <= length cs /\ q = rooted (firstn m cs) ++ pathSeparator)
  \/ In q (chain cs).
Proof.
  unfold accessTrace. intros Hq. apply in_app_or in Hq as [Hq|[<-|Hq]].
  - apply in_walkTrace in Hq. exact Hq.
  - destruct cs as [|c d] using rev_ind.
    + left. exists 0. split; [lia|reflexivity].
    + right. rewrite destOf_snoc, chain_snoc. left. reflexivity.
  - right. destruct cs as [|c d] using rev_ind; [contradiction|].
    rewrite removelast_snoc in Hq. apply in_chain_app. assumption.
Qed.

(** The path of a component that was cancelled is not asked for, unless
    the component that comes in its place has the same name. *)
Lemma cancelled_not_asked xs c ys :
  Forall ordinary (xs ++ ys) -> ordinary c ->
  (forall t, ys <> c :: t) ->
  ~ In (rooted (xs ++ [c])) (accessTrace (xs ++ ys)).
Proof.
  intros Hord Hc Hys Hin.
  apply in_accessTrace in Hin as [(m & Hm & Heq)|Hin].
  - destruct (ordinary_last Hc) as (c' & x & -> & Hx).
    rewrite rooted_last in Heq. apply app_inj_tail in Heq as [_ ->].
    discriminate.
  - apply in_chain in Hin as (k & Hk & Heq).
    assert (Hn1 : Forall noSep (xs ++ [c])).
    { apply Forall_app. split.
      - apply Forall_app in Hord as [H _]. apply ordinary_noSep. assumption.
      - constructor; [apply Hc|constructor]. }
    assert (Hn2 : Forall noSep (firstn (S k) (xs ++ ys))).
    { apply ordinary_noSep in Hord.
      rewrite <- (firstn_skipn (S k) (xs ++ ys)) in Hord.
      apply Forall_app in Hord. tauto. }
    pose proof (@rooted_inj _ Hn1 _ Hn2 Heq) as Hl.
    assert (Hlen : length xs < S k).
    { pose proof (f_equal (@length path) Hl) as H.
      rewrite length_app, length_firstn in H. cbn [length] in H. lia. }
    rewrite firstn_app, firstn_all2 in Hl by lia.
    apply app_inv_head in Hl.
    destruct ys as [|y t]; [destruct (S k - length xs); discriminate|].
    destruct (S k - length xs) as [|j]; [discriminate|].
    cbn [firstn] in Hl. injection Hl as <- _. apply (Hys t). reflexivity.
Qed.

(** filepath.Abs on a path that begins with a separator, and on a relative
    path of ordinary components. *)
Lemma tAbs_rooted cwd p :
  absolute p -> Table.tAbs cwd p = inr (Table.Clean p).
Proof.
  destruct p as [|x p]; [contradiction|]. cbn. intros ->. reflexivity.
Qed.

Lemma tAbs_relative cwd zs :
  Forall ordinary zs -> zs <> [] ->
  Table.tAbs cwd (tailPath zs)
  = inr (Table.Clean (str cwd ++ pathSeparator ++ tailPath zs)).
Proof.
  intros H Hne. destruct zs as [|z t]; [contradiction|].
  inversion H as [|? ? (Hz & Hn & _) _]; subst.
  destruct z as [|x z]; [contradiction|]. inversion Hn as [|? ? Hx _]; subst.
  cbn [tailPath app]. unfold Table.tAbs. rewrite Hx. reflexivity.
Qed.

(** The working directory by components, the root being one empty
    component, so that a relative path joined to it is a rooted path. *)
Lemma join_cwd cwd cw zs :
  str cwd = destOf cw -> zs <> [] ->
  str cwd ++ pathSeparator ++ tailPath zs
  = rooted (match cw with [] => [[]] | _ :: _ => cw end ++ zs).
Proof.
  intros Hcwd Hne. rewrite Hcwd. destruct cw as [|w cw].
  - cbn [destOf app rooted]. rewrite (rooted_tail Hne). reflexivity.
  - cbn [destOf]. rewrite rooted_app, (rooted_tail Hne). reflexivity.
Qed.

Lemma Abs_relative cwd cw zs :
  str cwd = destOf cw -> Forall ordinary zs ->
  Table.tAbs cwd (tailPath zs)
  = inr (Table.Clean
           (destOf (match cw with [] => [[]] | _ :: _ => cw end ++ zs))).
Proof.
  intros Hcwd Hzs. destruct zs as [|z t].
  - cbn [tailPath Table.tAbs]. rewrite Hcwd, app_nil_r.
    destruct cw; reflexivity.
  - rewrite (@tAbs_relative cwd _ Hzs) by discriminate.
    rewrite (@join_cwd cwd cw _ Hcwd) by discriminate.
    destruct cw; reflexivity.
Qed.

(** C7: for every path in which an ordinary component c is followed by
    [..], rooted or relative to the working directory, filepath.Abs
    cleans the two away before the walk: the check of the path is, call
    for call, the check of the path without them, whatever c is in the
    tree.  So where that path holds no link and passes, the check returns
    nil after the calls for its own prefixes only: there is no denial for
    c, and no call for the path of c (unless the component that takes its
    place has the same name). *)
Theorem C7_dotdot_after_component :
  forall env cwd cw user uid mode xs c ys h,
    (forall p, Abs env p = Table.tAbs cwd p) ->
    str cwd = destOf cw -> Forall noSep cw ->
    ordinary c ->
    (Forall noSep xs -> Forall noSep ys ->
     access env user uid mode (rooted (xs ++ c :: str ".." :: ys)) h
     = access env user uid mode (destOf (xs ++ ys)) h)
    /\ (Forall ordinary xs -> Forall ordinary ys ->
        access env user uid mode (tailPath (xs ++ c :: str ".." :: ys)) h
        = access env user uid mode (tailPath (xs ++ ys)) h)
    /\ (forall gi meta,
          groupsOf env user gi -> Forall ordinary (xs ++ ys) ->
          plainTree env meta (xs ++ ys) -> passes uid gi mode meta (xs ++ ys) ->
          access env user uid mode (rooted (xs ++ c :: str ".." :: ys)) h
          = (h ++ map EvLstat (accessTrace (xs ++ ys)), Ok tt)
          /\ ((forall t, ys <> c :: t) ->
              ~ In (rooted (xs ++ [c])) (accessTrace (xs ++ ys)))).
Proof.
  intros env cwd cw user uid mode xs c ys h HAbs Hcwd Hcw Hc.
  assert (Hrooted : Forall noSep xs -> Forall noSep ys ->
            access env user uid mode (rooted (xs ++ c :: str ".." :: ys)) h
            = access env user uid mode (destOf (xs ++ ys)) h).
  { intros Hxs Hys. apply access_Abs. rewrite !HAbs.
    rewrite !tAbs_rooted.
    - rewrite (Clean_cancel Hxs Hc Hys). reflexivity.
    - destruct (xs ++ ys); reflexivity.
    - destruct xs; reflexivity. }
  split; [exact Hrooted|]. split.
  - intros Hxs Hys. apply access_Abs. rewrite !HAbs.
    set (cw' := match cw with [] => [[]] | _ :: _ => cw end).
    assert (Hcw' : Forall noSep cw').
    { subst cw'. destruct cw; [repeat constructor|assumption]. }
    rewrite (@Abs_relative cwd cw (xs ++ ys) Hcwd) by (apply Forall_app; tauto).
    fold cw'.
    assert (HP : Table.tAbs cwd (tailPath (xs ++ c :: str ".." :: ys))
                 = inr (Table.Clean
                          (rooted ((cw' ++ xs) ++ c :: str ".." :: ys)))).
    { assert (Hrel : forall z t, ordinary z ->
                Table.tAbs cwd (tailPath (z :: t))
                = inr (Table.Clean (rooted (cw' ++ z :: t)))).
      { intros z t (Hne & Hn & _). destruct z as [|x z']; [contradiction|].
        inversion Hn as [|? ? Hx _]; subst.
        assert (Hj := @join_cwd cwd cw ((x :: z') :: t) Hcwd
                        ltac:(discriminate)).
        cbn [tailPath app] in Hj |- *. unfold Table.tAbs. rewrite Hx.
        f_equal. f_equal. exact Hj. }
      rewrite <- app_assoc. destruct xs as [|x0 xs0]; cbn [app].
      - apply Hrel. exact Hc.
      - apply Hrel. inversion Hxs; assumption. }
    rewrite HP. f_equal.
    etransitivity; [apply (@Clean_cancel (cw' ++ xs) c ys)|].
    + apply Forall_app. split; [assumption|apply ordinary_noSep; assumption].
    + assumption.
    + apply ordinary_noSep; assumption.
    + f_equal. f_equal. symmetry. apply app_assoc.
  - intros gi meta Hg Hord Htree Hpass. split.
    + rewrite Hrooted.
      * assert (Habs : Abs env (destOf (xs ++ ys)) = inr (destOf (xs ++ ys))).
        { rewrite HAbs, tAbs_rooted by (destruct (xs ++ ys); reflexivity).
          rewrite (Clean_ordinary Hord). reflexivity. }
        destruct (@access_plain env user uid gi mode meta (xs ++ ys) h Hg Habs
                    Hord Htree)
          as [(Ha & _)|(_ & Hn)]; [exact Ha|contradiction].
      * apply ordinary_noSep. apply Forall_app in Hord. tauto.
      * apply ordinary_noSep. apply Forall_app in Hord. tauto.
    + intros Hne. apply cancelled_not_asked; assumption.
Qed.

Lemma C7_dotdot_after_component_witness :
  access (Table.tableEnv Trees.closed "/") Trees.alice 1000 Read
    (rooted ([] ++ str "d" :: str ".." :: [str "f"])) []
  = access (Table.tableEnv Trees.closed "/") Trees.alice 1000 Read
      (destOf ([] ++ [str "f"])) [].
Proof.
  refine (proj1 (@C7_dotdot_after_component
                   (Table.tableEnv Trees.closed "/") "/" [] Trees.alice 1000%Z
                   Read [] (str "d") [str "f"] [] _ _ _ _) _ _).
  - intros p. reflexivity.
  - reflexivity.
  - constructor.
  - repeat split; try discriminate. repeat constructor.
  - constructor.
  - repeat constructor.
Defined.

(** The directory [/d] holds no permission bit; the check of [/d/../f],
    and of [d/../f] from the root as working directory, never asks for it
    and returns nil. *)
Example access_cancelled_directory :
  access (Table.tableEnv Trees.closed "/") Trees.alice 1000 Read
    (str "/d/../f") []
  = ([EvLstat (str "/"); EvLstat (str "/f"); EvLstat (str "/f")], Ok tt)
  /\ access (Table.tableEnv Trees.closed "/") Trees.alice 1000 Read
       (str "d/../f") []
     = ([EvLstat (str "/"); EvLstat (str "/f"); EvLstat (str "/f")], Ok tt).
Proof. split; vm_compute; reflexivity. Qed.

(** ** What the check of a turn is made on (claim C3) *)

Lemma checkPath_root_refused env uid gi fi h :
  Lstat env h pathSeparator = inr fi ->
  refused uid gi Execute fi = true ->
  checkPath env uid gi Execute pathSeparator h
  = (h ++ [EvLstat pathSeparator],
     Err (EPermission (denial uid gi Execute pathSeparator fi))).
Proof.
  intros HL Hr. rewrite checkPath_unfold by discriminate.
  unfold bind, lstat. rewrite HL, Hr. reflexivity.
Qed.

(** C3, as the code has it: the Execute check of a turn is made on the
    resolved prefix as it stood before the component was appended
    (with a separator after it) and on its ancestors, and only then is the
    metadata of the appended path fetched; every denial of a turn is
    a denial of that check, so the appended path itself, a symlink node
    included, is never permission-checked in its turn; for the very
    first component the prefix is the root, which is thereby checked: a
    root that refuses Execute ends the whole check with a denial for the
    root, before the component is looked at. *)
Theorem C3_execute_check_target :
  (forall env uid gi volLen vol pre seps c tl dest links h,
      allSep seps -> ordinary c -> atSep tl ->
      let st := mkWalk (pre ++ seps ++ c ++ tl) (length pre) dest links in
      loopBody env uid gi volLen vol st h
      = (checkPath env uid gi Execute (addSeparator dest) ;;;
         fi <- lstat env (addSeparator dest ++ c) ;;
         resolve env volLen vol (pre ++ seps ++ c ++ tl)
           (length pre + length seps + length c)
           (addSeparator dest ++ c) links fi) h
      /\ forall h' e,
           loopBody env uid gi volLen vol st h = (h', Err (EPermission e)) ->
           checkPath env uid gi Execute (addSeparator dest) h
           = (h', Err (EPermission e)))
  /\ (forall env user uid gi mode c t fi h,
        groupsOf env user gi ->
        Abs env (destOf (c :: t)) = inr (destOf (c :: t)) ->
        Forall ordinary (c :: t) ->
        Lstat env h pathSeparator = inr fi ->
        refused uid gi Execute fi = true ->
        access env user uid mode (destOf (c :: t)) h
        = (h ++ [EvLstat pathSeparator],
           Err (EPermission (denial uid gi Execute pathSeparator fi)))).
Proof.
  split.
  - intros env uid gi volLen vol pre seps c tl dest links h Hs Hc Hat st.
    assert (Hb := @loopBody_ordinary env uid gi volLen vol pre seps c tl dest
                    links h Hs Hc Hat).
    cbv zeta in Hb. split; [exact Hb|].
    intros h' e. subst st. rewrite Hb. unfold bind at 1.
    destruct (checkPath env uid gi Execute (addSeparator dest) h)
      as [h1 [[]|e1|]].
    + unfold bind, lstat.
      destruct (Lstat env h1 (addSeparator dest ++ c)) as [c0|fi].
      * discriminate.
      * intros H. exfalso.
        exact (@resolve_no_denial _ _ _ _ _ _ _ _ _ _ _ H).
    + intros H. injection H as -> ->. reflexivity.
    + discriminate.
  - intros env user uid gi mode c t fi h Hg Habs Hord HL Hr.
    rewrite (@access_start env user uid gi mode (c :: t) h Hg Habs).
    inversion Hord as [|? ? Hc Ht]; subst.
    assert (Hat : atSep (rooted t)) by (destruct t; [exact I|reflexivity]).
    assert (Hw : walkLinks env uid gi 1 pathSeparator 256
                   (S (length (destOf (c :: t))))
                   (mkWalk (destOf (c :: t)) 1 pathSeparator 0) h
                 = (h ++ [EvLstat pathSeparator],
                    Err (EPermission (denial uid gi Execute pathSeparator fi)))).
    { rewrite walkLinks_unfold.
      change (mkWalk (destOf (c :: t)) 1 pathSeparator 0)
        with (mkWalk (pathSeparator ++ [] ++ c ++ rooted t)
                (length pathSeparator) pathSeparator 0).
      erewrite bind_err; [reflexivity|].
      rewrite (@loopBody_ordinary env uid gi 1 pathSeparator pathSeparator []
                 c (rooted t) pathSeparator 0 h (Forall_nil _) Hc Hat).
      rewrite addSeparator_root.
      erewrite bind_err; [reflexivity|].
      apply checkPath_root_refused; assumption. }
    rewrite (@bind_err _ _ _ _ _ _ _ Hw). reflexivity.
Qed.

Lemma C3_execute_check_target_witness :
  access (Table.tableEnv Trees.locked "/") Trees.alice 1000 Read
    (destOf [str "f"]) []
  = ([] ++ [EvLstat pathSeparator],
     Err (EPermission
            (denial 1000 [1000%Z] Execute pathSeparator
               (mkFileInfo (ModeDir + 448) 0 0)))).
Proof.
  refine (proj2 C3_execute_check_target (Table.tableEnv Trees.locked "/")
            Trees.alice 1000%Z [1000%Z] Read (str "f") []
            (mkFileInfo (ModeDir + 448) 0 0) [] _ _ _ _ _).
  - apply alice_groups.
  - reflexivity.
  - repeat constructor; discriminate.
  - reflexivity.
  - reflexivity.
Defined.

(** C3 as stated fails: the check for the first component is made on the
    root, which is permission-checked (the denial is for [/], and [/f] is
    never asked for); and a symlink node without any permission bit is
    passed without a check. *)
Lemma C3_counterexample :
  access (Table.tableEnv Trees.locked "/") Trees.alice 1000 Read (str "/f") []
  = ([EvLstat (str "/")],
     Err (EPermission
            {| File := str "/";
               FileMode := ModeDir + 448;
               FileUid := 0;
               FileGid := 0;
               Uid := 1000;
               Gid := [1000%Z];
               WantMode := Execute |}))
  /\ Lstat (Table.tableEnv Trees.bare "/") [] (str "/s")
     = inr (mkFileInfo ModeSymlink 0 0)
  /\ access (Table.tableEnv Trees.bare "/") Trees.alice 1000 Read (str "/s") []
     = ([EvLstat (str "/"); EvLstat (str "/s"); EvReadlink (str "/s");
         EvLstat (str "/"); EvLstat (str "/f"); EvLstat (str "/f")],
        Ok tt).
Proof. repeat split; vm_compute; reflexivity. Qed.

(** ** How often an ancestor is asked for (claim C10) *)

Lemma rooted_firstn_len cs :
  Forall ordinary cs ->
  forall i m, i < m -> m <= length cs ->
    length (rooted (firstn i cs)) + 2 <= length (rooted (firstn m cs)).
Proof.
  induction 1 as [|c cs Hc _ IH]; intros i m Him Hm; [simpl in Hm; lia|].
  destruct m as [|m]; [lia|]. simpl in Hm.
  destruct Hc as (Hne & _). destruct c as [|x c]; [contradiction|].
  destruct i as [|i].
  - cbn [firstn rooted length]. rewrite length_app. cbn [length]. lia.
  - specialize (IH i m ltac:(lia) ltac:(lia)).
    cbn [firstn rooted length]. rewrite !length_app. cbn [length]. lia.
Qed.

Lemma rooted_firstn_inj cs i m :
  Forall ordinary cs -> i <= length cs -> m <= length cs ->
  rooted (firstn i cs) = rooted (firstn m cs) -> i = m.
Proof.
  intros Hord Hi Hm Heq.
  destruct (Nat.lt_trichotomy i m) as [Hlt|[->|Hgt]]; [|reflexivity|].
  - pose proof (rooted_firstn_len Hord Hlt Hm) as H. rewrite Heq in H. lia.
  - pose proof (rooted_firstn_len Hord Hgt Hi) as H. rewrite Heq in H. lia.
Qed.

Lemma rooted_firstn_slash cs i m :
  Forall ordinary cs -> i <= length cs -> m <= length cs ->
  rooted (firstn i cs) ++ pathSeparator <> rooted (firstn m cs).
Proof.
  intros Hord Hi Hm Heq.
  assert (Hl : length (rooted (firstn i cs)) + 1 = length (rooted (firstn m cs))).
  { rewrite <- Heq, length_app. reflexivity. }
  destruct (Nat.lt_trichotomy i m) as [Hlt|[->|Hgt]].
  - pose proof (rooted_firstn_len Hord Hlt Hm). lia.
  - lia.
  - pose proof (rooted_firstn_len Hord Hgt Hi). lia.
Qed.

Lemma occurrences_app q a b :
  occurrences q (a ++ b) = occurrences q a + occurrences q b.
Proof. apply count_occ_app. Qed.

Lemma occurrences_cons q x l :
  occurrences q (x :: l)
  = (if path_eq_dec x q then 1 else 0) + occurrences q l.
Proof.
  unfold occurrences. cbn [count_occ].
  destruct (path_eq_dec x q); reflexivity.
Qed.

Lemma occurrences_chain done :
  forall rest m,
    Forall ordinary (done ++ rest) ->
    1 <= m -> m <= length (done ++ rest) ->
    occurrences (rooted (firstn m (done ++ rest))) (chain done)
    = if m <=? length done then 1 else 0.
Proof.
  induction done as [|c d IH] using rev_ind; intros rest m Hord H1 Hm.
  - simpl. destruct (Nat.leb_spec m 0); [lia|reflexivity].
  - rewrite chain_snoc, occurrences_cons.
    assert (Hcs : (d ++ [c]) ++ rest = d ++ c :: rest)
      by (rewrite <- app_assoc; reflexivity).
    rewrite Hcs in *. rewrite (IH (c :: rest) m Hord H1 Hm).
    assert (Hd : rooted (d ++ [c]) = rooted (firstn (S (length d)) (d ++ c :: rest)))
      by (rewrite firstn_snoc; reflexivity).
    rewrite length_app in Hm. cbn [length] in Hm.
    rewrite length_app. cbn [length].
    destruct (path_eq_dec (rooted (d ++ [c])) (rooted (firstn m (d ++ c :: rest))))
      as [Heq|Hneq].
    + rewrite Hd in Heq.
      apply rooted_firstn_inj in Heq;
        [|assumption|rewrite length_app; simpl; lia|rewrite length_app; simpl; lia].
      subst m.
      destruct (Nat.leb_spec (S (length d)) (length d)); [lia|].
      destruct (Nat.leb_spec (S (length d)) (length d + 1)); [reflexivity|lia].
    + assert (m <> S (length d)).
      { intros ->. apply Hneq. exact Hd. }
      destruct (Nat.leb_spec m (length d));
        destruct (Nat.leb_spec m (length d + 1)); try reflexivity; lia.
Qed.

(** In the calls of the loop from the components [done] on, the prefix of
    [m] components is asked for once in the turn of every component after
    it, and once as the appended path in its own turn. *)
Lemma occurrences_walkTrace todo :
  forall done m,
    Forall ordinary (done ++ todo) ->
    1 <= m -> m <= length (done ++ todo) ->
    occurrences (rooted (firstn m (done ++ todo))) (walkTrace done todo)
    = (length (done ++ todo) - Nat.max (length done) m)
      + (if length done <? m then 1 else 0).
Proof.
  induction todo as [|c t IH]; intros done m Hord H1 Hm.
  - rewrite app_nil_r in *. simpl.
    destruct (Nat.ltb_spec (length done) m); lia.
  - assert (Hcs : (done ++ [c]) ++ t = done ++ c :: t)
      by (rewrite <- app_assoc; reflexivity).
    cbn [walkTrace]. rewrite occurrences_app, occurrences_cons.
    rewrite occurrences_app, occurrences_cons.
    specialize (IH (done ++ [c]) m). rewrite Hcs in IH.
    rewrite (IH Hord H1 Hm).
    rewrite (occurrences_chain done (c :: t) Hord H1 Hm).
    assert (Hn : length (done ++ c :: t) = length done + S (length t))
      by (rewrite length_app; reflexivity).
    assert (Hdl : length (done ++ [c]) = S (length done))
      by (rewrite length_app; simpl; lia).
    rewrite Hdl.
    assert (Hslash : rooted done ++ pathSeparator
                     <> rooted (firstn m (done ++ c :: t))).
    { replace (rooted done)
        with (rooted (firstn (length done) (done ++ c :: t)))
        by (rewrite firstn_app_le by lia; rewrite firstn_all; reflexivity).
      apply rooted_firstn_slash; [assumption|lia|assumption]. }
    destruct (path_eq_dec (rooted done ++ pathSeparator)
                (rooted (firstn m (done ++ c :: t)))) as [Heq|_];
      [contradiction|].
    assert (Hd : rooted (done ++ [c])
                 = rooted (firstn (S (length done)) (done ++ c :: t)))
      by (rewrite firstn_snoc; reflexivity).
    destruct (path_eq_dec (rooted (done ++ [c]))
                (rooted (firstn m (done ++ c :: t)))) as [Heq|Hneq].
    + rewrite Hd in Heq.
      apply rooted_firstn_inj in Heq; [|assumption|lia|assumption].
      subst m. cbn [occurrences count_occ].
      destruct (Nat.leb_spec (S (length done)) (length done)); [lia|].
      destruct (Nat.ltb_spec (S (length done)) (S (length done))); [lia|].
      destruct (Nat.ltb_spec (length done) (S (length done))); lia.
    + assert (m <> S (length done)).
      { intros ->. apply Hneq. exact Hd. }
      cbn [occurrences count_occ].
      destruct (Nat.leb_spec m (length done));
        destruct (Nat.ltb_spec (S (length done)) m);
        destruct (Nat.ltb_spec (length done) m); lia.
Qed.

(** In the calls of a whole check, an ancestor of [m] components of a path
    of [n] is asked for [n - m + 2] times: as the appended path, once for
    each of the [n - m] components after it, and once in the last check. *)
Lemma occurrences_accessTrace cs m :
  Forall ordinary cs -> 1 <= m -> m < length cs ->
  occurrences (rooted (firstn m cs)) (accessTrace cs) = length cs - m + 2.
Proof.
  intros Hord H1 Hm. unfold accessTrace.
  rewrite occurrences_app, occurrences_cons.
  pose proof (@occurrences_walkTrace cs [] m Hord H1 (Nat.lt_le_incl _ _ Hm))
    as Hw.
  cbn [app length] in Hw. rewrite Hw. clear Hw.
  destruct cs as [|c d] using rev_ind; [simpl in Hm; lia|]. clear IHd.
  rewrite removelast_snoc, destOf_snoc.
  rewrite length_app in *. cbn [length] in *.
  rewrite (@occurrences_chain d [c] m Hord H1);
    [|rewrite length_app; simpl; lia].
  destruct (path_eq_dec (rooted (d ++ [c])) (rooted (firstn m (d ++ [c]))))
    as [Heq|_].
  - rewrite <- (firstn_all (d ++ [c])) in Heq at 1.
    apply rooted_firstn_inj in Heq;
      [|assumption|lia|rewrite length_app; simpl; lia].
    rewrite length_app in Heq. simpl in Heq. lia.
  - destruct (Nat.leb_spec m (length d)); [|lia].
    destruct (Nat.ltb_spec 0 m); lia.
Qed.

(** C10: checkPath on a rooted path checks the mode asked on the path
    itself, then Execute on every ancestor above the root, nearest first,
    each check with a call of Lstat of its own; the walk calls checkPath
    once in the turn of every ordinary component, on the prefix before the
    component; so in a whole check that passes (a path of n components
    without links) the calls are those of accessTrace, where an ancestor of
    m components is asked for n - m + 2 times; and where the tree changes
    between the calls, the error of Lstat for an ancestor that answered
    before comes out during the check of a later component. *)
Theorem C10_ancestors_rechecked :
  (forall env uid gid mode cs c h,
      Forall noSep cs -> noSep c ->
      checkPath env uid gid mode (rooted (cs ++ [c])) h
      = (checkOne env uid gid mode (rooted (cs ++ [c])) ;;;
         checkEach env uid gid (chain cs)) h)
  /\ (forall env uid gid mode p h,
        fst (checkOne env uid gid mode p h) = h ++ [EvLstat p])
  /\ (forall env uid gi volLen vol pre seps c tl dest links h,
        allSep seps -> ordinary c -> atSep tl ->
        loopBody env uid gi volLen vol
          (mkWalk (pre ++ seps ++ c ++ tl) (length pre) dest links) h
        = (checkPath env uid gi Execute (addSeparator dest) ;;;
           fi <- lstat env (addSeparator dest ++ c) ;;
           resolve env volLen vol (pre ++ seps ++ c ++ tl)
             (length pre + length seps + length c)
             (addSeparator dest ++ c) links fi) h)
  /\ (forall env user uid gi mode meta cs h,
        groupsOf env user gi ->
        Abs env (destOf cs) = inr (destOf cs) ->
        Forall ordinary cs -> plainTree env meta cs ->
        passes uid gi mode meta cs ->
        access env user uid mode (destOf cs) h
        = (h ++ map EvLstat (accessTrace cs), Ok tt)
        /\ forall m, 1 <= m -> m < length cs ->
             occurrences (rooted (firstn m cs)) (accessTrace cs)
             = length cs - m + 2)
  /\ (Lstat Flaky.env [EvLstat (str "/")] (str "/a")
      = inr (mkFileInfo (ModeDir + 493) 0 0)
      /\ access Flaky.env Trees.alice 1000 Read (str "/a/b") []
         = (map EvLstat [str "/"; str "/a"; str "/a/"; str "/a"],
            Err (EExternal 5))).
Proof.
  split; [|split; [|split; [|split]]].
  - intros. apply checkPath_chain; assumption.
  - intros. apply checkOne_fst.
  - intros. apply loopBody_ordinary; assumption.
  - intros env user uid gi mode meta cs h Hg Habs Hord Htree Hpass. split.
    + destruct (@access_plain env user uid gi mode meta cs h Hg Habs Hord Htree)
        as [(Ha & _)|(_ & Hn)]; [exact Ha|contradiction].
    + intros m H1 Hm. apply occurrences_accessTrace; assumption.
  - split; vm_compute; reflexivity.
Qed.

Lemma C10_ancestors_rechecked_witness :
  access (Table.tableEnv Trees.home "/") Trees.alice 1000 Read
    (destOf [str "a"; str "f"]) []
  = ([] ++ map EvLstat (accessTrace [str "a"; str "f"]), Ok tt)
  /\ forall m, 1 <= m -> m < length [str "a"; str "f"] ->
       occurrences (rooted (firstn m [str "a"; str "f"]))
         (accessTrace [str "a"; str "f"])
       = length [str "a"; str "f"] - m + 2.
Proof.
  refine (proj1 (proj2 (proj2 (proj2 C10_ancestors_rechecked)))
            (Table.tableEnv Trees.home "/") Trees.alice 1000%Z [1000%Z] Read
            (Trees.metaOf Trees.home) [str "a"; str "f"] [] _ _ _ _ _).
  - apply alice_groups.
  - reflexivity.
  - repeat constructor; discriminate.
  - apply home_plainTree.
  - split; [reflexivity|]. split; [intros _; reflexivity|].
    intros k Hk. destruct k as [|k]; [reflexivity|simpl in Hk; lia].
Defined.

(* ================================================================== *)
(** * Further properties of the code *)
(* ================================================================== *)

(** ** What [checkPath] asks, and on which paths it can succeed *)

Section CheckPathMore.

Variable env : Env.

Lemma upto_upto p i k : k <= i -> upto (upto p i) k = upto p k.
Proof.
  intros H. unfold upto. rewrite firstn_firstn.
  replace (Nat.min k i) with k by lia. reflexivity.
Qed.

(** [checkPath] only calls [Lstat], on non-empty prefixes of its path, at
    most [len(path)] times. *)
Lemma checkPath_calls uid gid mode p h :
  exists qs,
    fst (checkPath env uid gid mode p h) = h ++ map EvLstat qs
    /\ Forall (fun q => q <> [] /\ exists k, k <= length p /\ q = upto p k) qs
    /\ length qs <= length p.
Proof.
  remember (length p) as n eqn:Hn. revert mode p h Hn.
  induction n as [n IH] using lt_wf_ind. intros mode p h Hn. subst n.
  destruct p as [|x p].
  - exists []. split; [simpl; rewrite app_nil_r; reflexivity|].
    split; [constructor|simpl; lia].
  - assert (Hself : (x :: p) <> [] /\
                    exists k, k <= length (x :: p) /\ x :: p = upto (x :: p) k).
    { split; [discriminate|]. exists (length (x :: p)). split; [lia|].
      unfold upto. rewrite firstn_all. reflexivity. }
    assert (Hone : exists qs,
               h ++ [EvLstat (x :: p)] = h ++ map EvLstat qs
               /\ Forall (fun q => q <> [] /\
                            exists k, k <= length (x :: p) /\ q = upto (x :: p) k) qs
               /\ length qs <= length (x :: p)).
    { exists [x :: p]. split; [reflexivity|].
      split; [constructor; [exact Hself|constructor]|]. simpl. lia. }
    rewrite checkPath_unfold by discriminate.
    unfold bind, lstat. destruct (Lstat env h (x :: p)) as [c|fi]; [exact Hone|].
    destruct (refused uid gid mode fi); [exact Hone|].
    destruct (LastIndexSep (x :: p) <? 0)%Z eqn:E; [exact Hone|].
    apply Z.ltb_ge in E. pose proof (LastIndexSep_bound (x :: p)) as Hb.
    set (i := Z.to_nat (LastIndexSep (x :: p))) in *.
    assert (Hi : i < length (x :: p)) by (subst i; lia).
    assert (Hlen : length (upto (x :: p) i) = i).
    { unfold upto. rewrite length_firstn. lia. }
    destruct (IH i ltac:(lia) 1%Z (upto (x :: p) i) (h ++ [EvLstat (x :: p)])
                (eq_sym Hlen)) as (qs & Hq & Hall & Hl).
    exists ((x :: p) :: qs). split; [|split].
    + rewrite Hq. cbn [map]. rewrite <- app_assoc. reflexivity.
    + constructor; [exact Hself|].
      eapply Forall_impl; [|exact Hall].
      intros q (Hne & k & Hk & ->). split; [assumption|].
      exists k. split; [lia|]. apply upto_upto. lia.
    + cbn [length] in *. lia.
Qed.

Lemma LastIndexSep_absolute p : absolute p -> (0 <= LastIndexSep p)%Z.
Proof.
  destruct p as [|c q]; [contradiction|]. simpl. intros ->.
  destruct (0 <=? LastIndexSep q)%Z eqn:E; [apply Z.leb_le in E; lia|lia].
Qed.

Lemma absolute_upto p k : absolute p -> 1 <= k -> absolute (upto p k).
Proof.
  destruct p as [|c q]; [contradiction|]. destruct k as [|k]; [lia|].
  intros H _. exact H.
Qed.

Lemma absolute_app p q : absolute p -> absolute (p ++ q).
Proof. destruct p; [contradiction|]. intros H. exact H. Qed.

(** On a path that begins with a separator [checkPath] never comes to the
    error for a path without any separator. *)
Lemma checkPath_noSlashFree uid gid mode p h :
  absolute p -> noSlashFree (snd (checkPath env uid gid mode p h)).
Proof.
  remember (length p) as n eqn:Hn. revert mode p h Hn.
  induction n as [n IH] using lt_wf_ind. intros mode p h Hn Habs.
  destruct p as [|x p]; [contradiction|].
  rewrite checkPath_unfold by discriminate.
  unfold bind, lstat. destruct (Lstat env h (x :: p)) as [c|fi]; [exact I|].
  destruct (refused uid gid mode fi); [exact I|].
  pose proof (LastIndexSep_absolute _ Habs) as H0.
  replace (LastIndexSep (x :: p) <? 0)%Z with false
    by (symmetry; apply Z.ltb_ge; assumption).
  pose proof (LastIndexSep_bound (x :: p)) as Hb.
  destruct (Z.to_nat (LastIndexSep (x :: p))) as [|i] eqn:Ei.
  - exact I.
  - eapply IH; [|reflexivity|].
    + unfold upto. rewrite length_firstn. subst n. lia.
    + apply absolute_upto; [assumption|lia].
Qed.

(** [checkPath] returns nil only for the empty path and for paths that
    begin with a separator. *)
Lemma checkPath_ok_absolute uid gid mode p h :
  snd (checkPath env uid gid mode p h) = Ok tt -> p = [] \/ absolute p.
Proof.
  remember (length p) as n eqn:Hn. revert mode p h Hn.
  induction n as [n IH] using lt_wf_ind. intros mode p h Hn.
  destruct p as [|x p]; [left; reflexivity|]. right.
  rewrite checkPath_unfold in H by discriminate.
  unfold bind, lstat in H. destruct (Lstat env h (x :: p)) as [c|fi]; [discriminate|].
  destruct (refused uid gid mode fi); [discriminate|].
  destruct (LastIndexSep (x :: p) <? 0)%Z eqn:E; [discriminate|].
  apply Z.ltb_ge in E. pose proof (LastIndexSep_bound (x :: p)) as Hb.
  destruct (Z.to_nat (LastIndexSep (x :: p))) as [|i] eqn:Ei.
  - (* the last separator is the first byte *)
    assert (H0 : LastIndexSep (x :: p) = 0%Z) by lia.
    simpl in H0. destruct (0 <=? LastIndexSep p)%Z eqn:E2.
    + apply Z.leb_le in E2. lia.
    + simpl. destruct (IsPathSeparator x); [reflexivity|lia].
  - destruct (IH (length (upto (x :: p) (S i)))
                ltac:(unfold upto; rewrite length_firstn; subst n; lia)
                1%Z (upto (x :: p) (S i)) _ eq_refl H) as [H0|H0].
    + discriminate.
    + exact H0.
Qed.

End CheckPathMore.

(** ** [dest] stays absolute *)

Section Absolute.

Variable env : Env.
Variables (uid : Z) (gi : list Z).

Lemma absolute_addSeparator dest : absolute dest -> absolute (addSeparator dest).
Proof.
  intros H. unfold addSeparator.
  destruct ((0 <? length dest)
            && negb (IsPathSeparator (byteAt dest (length dest - 1))));
    [apply absolute_app|]; assumption.
Qed.

Lemma absolute_dotdot dest : absolute dest -> absolute (dotdot 1 dest).
Proof.
  intros H. unfold dotdot.
  destruct (scanBack dest 1 <? Z.of_nat 1)%Z eqn:E.
  - cbn [orb]. apply absolute_app.
    destruct (1 <? length dest); [apply absolute_app|]; assumption.
  - cbn [orb]. apply Z.ltb_ge in E.
    destruct (path_eqb (from dest (Z.to_nat (scanBack dest 1 + 1))) (str "..")).
    + apply absolute_app.
      destruct (1 <? length dest); [apply absolute_app|]; assumption.
    + apply absolute_upto; [assumption|lia].
Qed.

Lemma absolute_backUp dest : absolute dest -> absolute (backUp 1 pathSeparator dest).
Proof.
  intros H. unfold backUp.
  destruct (scanBack dest 1 <? Z.of_nat 1)%Z eqn:E; [reflexivity|].
  apply Z.ltb_ge in E. apply absolute_upto; [assumption|lia].
Qed.

Lemma resolve_absolute p end_ dest links fi h :
  absolute dest ->
  keepsAbsolute (snd (resolve env 1 pathSeparator p end_ dest links fi h)).
Proof.
  intros H. unfold resolve.
  destruct (Z.land (fiMode fi) ModeSymlink =? 0)%Z.
  - destruct (negb (IsDir fi) && (end_ <? length p)); [exact I|exact H].
  - cbv zeta. destruct (255 <? S links); [exact I|].
    unfold bind, readlink. destruct (Readlink env h dest) as [c|link]; [exact I|].
    destruct ((0 <? length link) && IsPathSeparator (byteAt link 0)) eqn:E.
    + cbn. destruct link as [|x l]; [discriminate|]. cbn in E. exact E.
    + cbn. apply absolute_backUp. assumption.
Qed.

(** Every turn of the loop keeps [dest] absolute. *)
Lemma loopBody_absolute st h :
  absolute (wDest st) ->
  keepsAbsolute (snd (loopBody env uid gi 1 pathSeparator st h)).
Proof.
  intros H. unfold loopBody.
  destruct (negb (wStart st <? length (wPath st))); [exact H|]. cbv zeta.
  set (start := skipSeparators (wPath st) (wStart st) (length (wPath st))).
  set (end_ := skipComponent (wPath st) start (length (wPath st))).
  destruct (end_ =? start); [exact H|].
  destruct (path_eqb (slice (wPath st) start end_) (str ".")); [exact H|].
  destruct (path_eqb (slice (wPath st) start end_) (str ".."));
    [apply absolute_dotdot; exact H|].
  rewrite upto_app.
  pose proof (@checkPath_noSlashFree env uid gi 1 (addSeparator (wDest st)) h
                (absolute_addSeparator _ H)) as Hc.
  unfold bind at 1.
  destruct (checkPath env uid gi 1 (addSeparator (wDest st)) h) as [h1 [[]|e|]];
    [|exact Hc|exact I].
  unfold bind, lstat.
  destruct (Lstat env h1 (addSeparator (wDest st) ++ slice (wPath st) start end_))
    as [c|fi]; [exact I|].
  apply resolve_absolute. apply absolute_app, absolute_addSeparator, H.
Qed.

Lemma walkLinks_absolute budget :
  forall fuel st h,
    absolute (wDest st) ->
    endsAbsolute (snd (walkLinks env uid gi 1 pathSeparator budget fuel st h)).
Proof.
  induction budget as [|budget IHb].
  - induction fuel as [|fuel IHf]; intros st h H; [exact I|].
    rewrite walkLinks_unfold. unfold bind.
    pose proof (loopBody_absolute st h H) as Hk.
    destruct (loopBody env uid gi 1 pathSeparator st h) as [h1 [[st'|st'|st']|e|]];
      cbn in Hk |- *; try exact Hk; try exact I.
    apply IHf. exact Hk.
  - induction fuel as [|fuel IHf]; intros st h H; [exact I|].
    rewrite walkLinks_unfold. unfold bind.
    pose proof (loopBody_absolute st h H) as Hk.
    destruct (loopBody env uid gi 1 pathSeparator st h) as [h1 [[st'|st'|st']|e|]];
      cbn in Hk |- *; try exact Hk; try exact I.
    + apply IHf. exact Hk.
    + apply IHb. exact Hk.
Qed.

End Absolute.

(** ** The links read in a check *)

Section Readlinks.

Variable env : Env.

Lemma readlinks_app a b : readlinks (a ++ b) = readlinks a + readlinks b.
Proof.
  induction a as [|e a IH]; [reflexivity|].
  destruct e; simpl; rewrite IH; reflexivity.
Qed.

Lemma readlinks_lstats qs : readlinks (map EvLstat qs) = 0.
Proof. induction qs; [reflexivity|assumption]. Qed.

Lemma checkPath_readlinks uid gid mode p h :
  readlinks (fst (checkPath env uid gid mode p h)) = readlinks h.
Proof.
  destruct (checkPath_calls env uid gid mode p h) as (qs & -> & _).
  rewrite readlinks_app, readlinks_lstats. lia.
Qed.

Lemma atoiAll_fst gs h : fst (atoiAll env gs h) = h.
Proof.
  revert h. induction gs as [|g gs IH]; intros h; [reflexivity|].
  cbn [atoiAll]. unfold bind, lift. destruct (Atoi env g) as [e|i]; [reflexivity|].
  cbn [ret]. specialize (IH h).
  destruct (atoiAll env gs h) as [h1 [l|e|]]; exact IH.
Qed.

Variables (uid : Z) (gi : list Z).
Variables (volLen : nat) (vol : path).

Lemma resolve_links p end_ dest links fi h :
  linksKept h links (resolve env volLen vol p end_ dest links fi h).
Proof.
  unfold resolve, linksKept.
  destruct (Z.land (fiMode fi) ModeSymlink =? 0)%Z.
  - destruct (negb (IsDir fi) && (end_ <? length p));
      cbn [fst snd ret fail wLinks]; lia.
  - cbv zeta. destruct (255 <? S links) eqn:E;
      [cbn [fst snd ret fail wLinks]; lia|].
    apply Nat.ltb_ge in E.
    unfold bind, readlink. destruct (Readlink env h dest) as [c|link].
    + cbn [fst snd]. rewrite readlinks_app. cbn [readlinks]. lia.
    + destruct ((0 <? length link) && IsPathSeparator (byteAt link 0));
        cbn [fst snd ret wLinks]; rewrite readlinks_app; cbn [readlinks]; lia.
Qed.

Lemma loopBody_links st h :
  linksKept h (wLinks st) (loopBody env uid gi volLen vol st h).
Proof.
  unfold loopBody.
  destruct (negb (wStart st <? length (wPath st))); [unfold linksKept; cbn [fst snd ret fail wLinks]; lia|].
  cbv zeta.
  set (start := skipSeparators (wPath st) (wStart st) (length (wPath st))).
  set (end_ := skipComponent (wPath st) start (length (wPath st))).
  destruct (end_ =? start); [unfold linksKept; cbn [fst snd ret fail wLinks]; lia|].
  destruct (path_eqb (slice (wPath st) start end_) (str "."));
    [unfold linksKept; cbn [fst snd ret fail wLinks]; lia|].
  destruct (path_eqb (slice (wPath st) start end_) (str ".."));
    [unfold linksKept; cbn [fst snd ret fail wLinks]; lia|].
  pose proof (checkPath_readlinks uid gi 1
                (upto (addSeparator (wDest st) ++ slice (wPath st) start end_)
                   (length (addSeparator (wDest st)))) h) as Hc.
  unfold bind at 1.
  destruct (checkPath env uid gi 1 _ h) as [h1 [[]|e|]]; cbn [fst] in Hc;
    [|unfold linksKept; cbn [fst snd]; lia|unfold linksKept; cbn [fst snd]; lia].
  unfold bind, lstat.
  destruct (Lstat env h1 (addSeparator (wDest st) ++ slice (wPath st) start end_))
    as [c|fi].
  - unfold linksKept. cbn [fst snd]. rewrite readlinks_app. cbn [readlinks]. lia.
  - pose proof (resolve_links (wPath st) end_
                  (addSeparator (wDest st) ++ slice (wPath st) start end_)
                  (wLinks st) fi
                  (h1 ++ [EvLstat (addSeparator (wDest st)
                                   ++ slice (wPath st) start end_)])) as Hr.
    unfold linksKept in *. rewrite readlinks_app in Hr. cbn [readlinks] in Hr.
    destruct (resolve env volLen vol (wPath st) end_ _ (wLinks st) fi _)
      as [h2 [[st'|st'|st']|e|]]; cbn [fst snd] in Hr |- *; lia.
Qed.

Lemma walkLinks_links budget :
  forall fuel st h,
    readlinks (fst (walkLinks env uid gi volLen vol budget fuel st h))
    <= readlinks h + (255 - wLinks st).
Proof.
  induction budget as [|budget IHb].
  - induction fuel as [|fuel IHf]; intros st h;
      [cbn [walkLinks outOfFuel fst]; lia|].
    rewrite walkLinks_unfold. unfold bind.
    pose proof (loopBody_links st h) as Hk. unfold linksKept in Hk.
    destruct (loopBody env uid gi volLen vol st h) as [h1 [[st'|st'|st']|e|]];
      cbn [fst snd ret outOfFuel] in Hk |- *; try lia.
    specialize (IHf st' h1). lia.
  - induction fuel as [|fuel IHf]; intros st h;
      [cbn [walkLinks outOfFuel fst]; lia|].
    rewrite walkLinks_unfold. unfold bind.
    pose proof (loopBody_links st h) as Hk. unfold linksKept in Hk.
    destruct (loopBody env uid gi volLen vol st h) as [h1 [[st'|st'|st']|e|]];
      cbn [fst snd ret outOfFuel] in Hk |- *; try lia.
    + specialize (IHf st' h1). lia.
    + specialize (IHb (S (length (wPath st'))) st' h1). lia.
Qed.

End Readlinks.

(** ** The whole check: errors before the walk, and what never comes out *)

Section AccessMore.

Variable env : Env.

Lemma atoiAll_first_error pre zs g post e h :
  Forall2 (fun g z => Atoi env g = inr z) pre zs ->
  Atoi env g = inl e ->
  atoiAll env (pre ++ g :: post) h = (h, Err (EExternal e)).
Proof.
  intros Hpre Hg. induction Hpre as [|g0 z pre zs H0 _ IH].
  - cbn [app atoiAll]. unfold bind, lift. rewrite Hg. reflexivity.
  - cbn [app atoiAll]. unfold bind at 1. unfold lift. rewrite H0. cbn [ret].
    unfold bind. rewrite IH. reflexivity.
Qed.

Lemma atoiAll_noSlashFree gs h : noSlashFree (snd (atoiAll env gs h)).
Proof.
  revert h. induction gs as [|g gs IH]; intros h; [exact I|].
  cbn [atoiAll]. unfold bind, lift. destruct (Atoi env g) as [e|i]; [exact I|].
  cbn [ret]. specialize (IH h).
  destruct (atoiAll env gs h) as [h1 [l|e|]]; [exact I|exact IH|exact I].
Qed.

Lemma atoiAll_noDenial gs h : noDenial (snd (atoiAll env gs h)).
Proof.
  revert h. induction gs as [|g gs IH]; intros h; [exact I|].
  cbn [atoiAll]. unfold bind, lift. destruct (Atoi env g) as [e|i]; [exact I|].
  cbn [ret]. specialize (IH h).
  destruct (atoiAll env gs h) as [h1 [l|e|]]; [exact I|exact IH|exact I].
Qed.

(** The start of the walk for a path that begins with a separator. *)
Lemma start_absolute q :
  absolute q ->
  (if (0 <? length q) && IsPathSeparator (byteAt q 0) then 1 else 0) = 1
  /\ upto q 1 = pathSeparator.
Proof.
  destruct q as [|x q]; [contradiction|]. cbn. intros H. rewrite H.
  apply Ascii.eqb_eq in H. subst. split; reflexivity.
Qed.

Lemma access_noSlashFree user uid mode p h :
  (forall q, Abs env p = inr q -> absolute q) ->
  noSlashFree (snd (access env user uid mode p h)).
Proof.
  intros Habs. unfold access, bind.
  destruct (GroupIds user) as [e|gs]; cbn [lift fail ret]; [exact I|].
  pose proof (atoiAll_noSlashFree gs h) as Ha.
  destruct (atoiAll env gs h) as [h1 [gi|e|]]; cbn [snd] in *; [|exact Ha|exact I].
  destruct (Abs env p) as [e|q] eqn:Eq; cbn [lift fail ret]; [exact I|].
  destruct (start_absolute q (Habs q eq_refl)) as [Hv Hvol]. rewrite Hv, Hvol.
  pose proof (@walkLinks_absolute env uid gi 256 (S (length q))
                (mkWalk q 1 pathSeparator 0) h1 eq_refl) as Hw.
  destruct (walkLinks env uid gi 1 pathSeparator 256 (S (length q))
              (mkWalk q 1 pathSeparator 0) h1) as [h2 [d|e|]]; cbn [snd] in *.
  - apply checkPath_noSlashFree. exact Hw.
  - exact Hw.
  - exact I.
Qed.

Lemma access_readlinks user uid mode p h :
  readlinks (fst (access env user uid mode p h)) <= readlinks h + 255.
Proof.
  unfold access, bind.
  destruct (GroupIds user) as [e|gs]; cbn [lift fail ret fst]; [lia|].
  pose proof (atoiAll_fst env gs h) as Ha.
  destruct (atoiAll env gs h) as [h1 [gi|e|]]; cbn [fst] in *; subst h1; [|lia|lia].
  destruct (Abs env p) as [e|q]; cbn [lift fail ret fst]; [lia|].
  match goal with
  | |- context [walkLinks env uid gi ?vl ?v 256 ?f ?st h] =>
      pose proof (@walkLinks_links env uid gi vl v 256 f st h) as Hw;
      destruct (walkLinks env uid gi vl v 256 f st h) as [h2 [d|e|]]
  end; cbn [fst wLinks] in *.
  - rewrite checkPath_readlinks. lia.
  - lia.
  - lia.
Qed.

(** The superuser: no turn of the loop, and no check, ends in a denial. *)
Lemma loopBody_root_noDenial gi volLen vol st h :
  noDenial (snd (loopBody env 0 gi volLen vol st h)).
Proof.
  unfold loopBody.
  destruct (negb (wStart st <? length (wPath st))); [exact I|]. cbv zeta.
  set (start := skipSeparators (wPath st) (wStart st) (length (wPath st))).
  set (end_ := skipComponent (wPath st) start (length (wPath st))).
  destruct (end_ =? start); [exact I|].
  destruct (path_eqb (slice (wPath st) start end_) (str ".")); [exact I|].
  destruct (path_eqb (slice (wPath st) start end_) (str "..")); [exact I|].
  unfold bind at 1.
  destruct (checkPath env 0 gi 1
              (upto (addSeparator (wDest st) ++ slice (wPath st) start end_)
                 (length (addSeparator (wDest st)))) h)
    as [h1 [[]|e|]] eqn:Ec.
  - unfold bind, lstat.
    destruct (Lstat env h1 (addSeparator (wDest st) ++ slice (wPath st) start end_))
      as [c|fi]; [exact I|].
    match goal with
    | |- noDenial (snd ?r) => destruct r as [h2 [c|e|]] eqn:Er
    end; try exact I.
    destruct e; try exact I.
    exfalso. exact (@resolve_no_denial _ _ _ _ _ _ _ _ _ _ _ Er).
  - destruct e; try exact I.
    exfalso. exact (@checkPath_root_no_denial _ _ _ _ _ _ _ Ec).
  - exact I.
Qed.

Lemma walkLinks_root_noDenial gi volLen vol budget :
  forall fuel st h,
    noDenial (snd (walkLinks env 0 gi volLen vol budget fuel st h)).
Proof.
  induction budget as [|budget IHb].
  - induction fuel as [|fuel IHf]; intros st h; [exact I|].
    rewrite walkLinks_unfold. unfold bind.
    pose proof (loopBody_root_noDenial gi volLen vol st h) as Hk.
    destruct (loopBody env 0 gi volLen vol st h) as [h1 [[st'|st'|st']|e|]];
      cbn [snd] in Hk |- *; try exact Hk; try exact I.
    apply IHf.
  - induction fuel as [|fuel IHf]; intros st h; [exact I|].
    rewrite walkLinks_unfold. unfold bind.
    pose proof (loopBody_root_noDenial gi volLen vol st h) as Hk.
    destruct (loopBody env 0 gi volLen vol st h) as [h1 [[st'|st'|st']|e|]];
      cbn [snd] in Hk |- *; try exact Hk; try exact I.
    + apply IHf.
    + apply IHb.
Qed.

Lemma access_root_noDenial user mode p h :
  noDenial (snd (access env user 0 mode p h)).
Proof.
  unfold access, bind.
  destruct (GroupIds user) as [e|gs]; cbn [lift fail ret]; [exact I|].
  pose proof (atoiAll_noDenial gs h) as Ha.
  destruct (atoiAll env gs h) as [h1 [gi|e|]]; cbn [snd] in *; [|exact Ha|exact I].
  destruct (Abs env p) as [e|q]; cbn [lift fail ret]; [exact I|].
  match goal with
  | |- context [walkLinks env 0 gi ?vl ?v 256 ?f ?st h1] =>
      pose proof (@walkLinks_root_noDenial gi vl v 256 f st h1) as Hw;
      destruct (walkLinks env 0 gi vl v 256 f st h1) as [h2 [d|e|]] eqn:Ew
  end; cbn [snd] in *.
  - destruct (checkPath env 0 gi mode d h2) as [h3 [[]|e|]] eqn:Ec; try exact I.
    destruct e; try exact I.
    exfalso. exact (@checkPath_root_no_denial _ _ _ _ _ _ _ Ec).
  - exact Hw.
  - exact I.
Qed.

End AccessMore.

(** ** Separators and [.] at the end of the path *)

Section Idle.

Variable env : Env.
Variables (uid : Z) (gi : list Z).
Variables (volLen : nat) (vol : path).

(** Where only separators remain, the loop is left with [dest] as it is
    and no call. *)
Lemma loopBody_trailing pre seps dest links h :
  allSep seps ->
  exists st',
    loopBody env uid gi volLen vol (mkWalk (pre ++ seps) (length pre) dest links) h
    = (h, Ok (Break st'))
    /\ wDest st' = dest.
Proof.
  intros Hs. destruct seps as [|s seps].
  - eexists. split; [apply loopBody_end; rewrite app_nil_r; lia|reflexivity].
  - unfold loopBody. cbn [wPath wStart wDest wLinks].
    replace (length pre <? length (pre ++ s :: seps)) with true
      by (symmetry; apply Nat.ltb_lt; rewrite length_app; simpl; lia).
    cbn [negb]. cbv zeta.
    assert (H1 : skipSeparators (pre ++ s :: seps) (length pre)
                   (length (pre ++ s :: seps))
                 = length pre + length (s :: seps)).
    { pose proof (@skipSeparators_spec (s :: seps) pre []
                    (length (pre ++ s :: seps)) Hs I) as H.
      rewrite app_nil_r in H. apply H. rewrite length_app. lia. }
    rewrite H1.
    assert (H2 : skipComponent (pre ++ s :: seps) (length pre + length (s :: seps))
                   (length (pre ++ s :: seps))
                 = length pre + length (s :: seps)).
    { pose proof (@skipComponent_spec [] (pre ++ s :: seps) []
                    (length (pre ++ s :: seps)) (Forall_nil _) I) as H.
      cbn [app length] in H. rewrite app_nil_r, Nat.add_0_r, length_app in H.
      rewrite length_app. apply H. lia. }
    rewrite H2, Nat.eqb_refl. eexists. split; reflexivity.
Qed.

(** A rest of the path made of separators and [.] components only: the
    loop ends with [dest] as it is, and no call is made. *)
Lemma walk_dots runs :
  forall pre seps dest links budget fuel h,
    allSep seps -> dotRuns runs -> length runs < fuel ->
    walkLinks env uid gi volLen vol budget fuel
      (mkWalk (pre ++ seps ++ dots runs) (length pre) dest links) h
    = (h, Ok dest).
Proof.
  induction runs as [|s rs IH];
    intros pre seps dest links budget fuel h Hs Hr Hf.
  - destruct fuel as [|fuel]; [simpl in Hf; lia|].
    rewrite walkLinks_unfold. cbn [dots]. rewrite app_nil_r.
    destruct (loopBody_trailing pre dest links h Hs) as (st' & Hb & Hd).
    rewrite (@bind_ok _ _ _ _ _ _ _ Hb). cbn [ret]. rewrite Hd. reflexivity.
  - destruct fuel as [|fuel]; [simpl in Hf; lia|].
    destruct Hr as (Hs1 & Hne & Hr).
    assert (Hat : atSep (s ++ dots rs)).
    { destruct s as [|x s].
      - destruct rs as [|r rs]; [exact I|]. exfalso. apply Hne; [discriminate|reflexivity].
      - inversion Hs1; assumption. }
    rewrite walkLinks_unfold. cbn [dots].
    rewrite (@bind_ok _ _ _ _ _ _ _
               (@loopBody_dot env uid gi volLen vol pre seps (s ++ dots rs)
                  dest links h Hs Hat)).
    cbv beta iota.
    replace (pre ++ seps ++ str "." ++ s ++ dots rs)
      with ((pre ++ seps ++ str ".") ++ s ++ dots rs)
      by (rewrite <- !app_assoc; reflexivity).
    replace (length pre + length seps + 1) with (length (pre ++ seps ++ str "."))
      by (rewrite !length_app; simpl; lia).
    apply IH; [assumption|assumption|simpl in Hf; lia].
Qed.

End Idle.

(** ** Edges of the bit test *)

Lemma refused_zero uid gid fi : refused uid gid 0 fi = false.
Proof.
  unfold refused. cbv zeta. rewrite Z.land_0_r. cbn [Z.eqb negb].
  rewrite andb_false_r. reflexivity.
Qed.

Lemma refused_wrap uid gid mode fi :
  uid <> 0%Z -> wrap32 uid <> 0%Z ->
  refused uid gid mode fi = refused (wrap32 uid) gid mode fi.
Proof.
  intros H0 Hw. unfold refused. cbv zeta.
  replace (uid =? 0)%Z with false by (symmetry; apply Z.eqb_neq; assumption).
  replace (wrap32 uid =? 0)%Z with false by (symmetry; apply Z.eqb_neq; assumption).
  replace (wrap32 (wrap32 uid)) with (wrap32 uid)
    by (unfold wrap32; rewrite Z.mod_mod; [reflexivity|discriminate]).
  reflexivity.
Qed.

(** ** Further properties, stated *)

(** [contains] is membership in the list. *)
Theorem contains_membership :
  forall a i, contains a i = true <-> In i a.
Proof. intros. apply contains_In. Qed.

(** [checkPath] only calls Lstat, only on non-empty prefixes of the path
    it is given, and at most len(path) times, whatever the environment
    answers. *)
Theorem checkPath_asks_only_prefixes :
  forall env uid gid mode p h,
  exists qs,
    fst (checkPath env uid gid mode p h) = h ++ map EvLstat qs
    /\ Forall (fun q => q <> [] /\ exists k, k <= length p /\ q = upto p k) qs
    /\ length qs <= length p.
Proof. intros. apply checkPath_calls. Qed.

(** [checkPath] returns nil only for the empty path or a path that begins
    with a separator: on a path that is not empty and begins with another
    byte it comes to an end with an error. *)
Theorem checkPath_nil_needs_absolute :
  forall env uid gid mode p h,
    (snd (checkPath env uid gid mode p h) = Ok tt -> p = [] \/ absolute p)
    /\ (p <> [] -> ~ absolute p ->
        exists e, snd (checkPath env uid gid mode p h) = Err e).
Proof.
  intros env uid gid mode p h.
  pose proof (@checkPath_ok_absolute env uid gid mode p h) as Hok.
  split; [exact Hok|]. intros Hne Hrel.
  pose proof (@checkPath_returned env uid gid mode p h) as Hret.
  destruct (snd (checkPath env uid gid mode p h)) as [[]|e|].
  - exfalso. destruct (Hok eq_refl); contradiction.
  - exists e. reflexivity.
  - contradiction.
Qed.

Lemma checkPath_nil_needs_absolute_witness :
  exists e,
    snd (checkPath (Table.tableEnv Trees.home "/") 1000 [1000%Z] Read
           (str "a/f") [])
    = Err e.
Proof.
  apply (proj2 (@checkPath_nil_needs_absolute (Table.tableEnv Trees.home "/")
                  1000 [1000%Z] Read (str "a/f") [])).
  - discriminate.
  - intros H. cbn in H. discriminate.
Defined.

(** On a path that begins with a separator [checkPath] never returns the
    error "absolute path not containing any slash". *)
Theorem checkPath_absolute_finds_slash :
  forall env uid gid mode p h,
    absolute p ->
    forall h' q, checkPath env uid gid mode p h <> (h', Err (ENoSlash q)).
Proof.
  intros env uid gid mode p h Ha h' q Heq.
  pose proof (@checkPath_noSlashFree env uid gid mode p h Ha) as H.
  rewrite Heq in H. exact H.
Qed.

Lemma checkPath_absolute_finds_slash_witness :
  checkPath (Table.tableEnv Trees.home "/") 1000 [1000%Z] Read (str "/a/f") []
  <> ([EvLstat (str "/a/f")], Err (ENoSlash (str "/a/f"))).
Proof.
  apply (@checkPath_absolute_finds_slash (Table.tableEnv Trees.home "/")
           1000 [1000%Z] Read (str "/a/f") []).
  reflexivity.
Defined.

(** Where dest begins with a separator, every turn of the loop of the
    walk, and the loop as a whole, keeps dest beginning with a separator
    (dest never becomes empty or relative, though it can become a path
    such as [/..]), and never ends in the error for a path without any
    separator. *)
Theorem dest_stays_absolute :
  forall env uid gi st h budget fuel,
    absolute (wDest st) ->
    keepsAbsolute (snd (loopBody env uid gi 1 pathSeparator st h))
    /\ endsAbsolute (snd (walkLinks env uid gi 1 pathSeparator budget fuel st h)).
Proof.
  intros env uid gi st h budget fuel H. split.
  - apply loopBody_absolute. exact H.
  - apply walkLinks_absolute. exact H.
Qed.

Lemma dest_stays_absolute_witness :
  keepsAbsolute
    (snd (loopBody (Table.tableEnv Trees.climb "/") 1000 [1000%Z] 1 pathSeparator
            (mkWalk (str "..") 0 pathSeparator 1) []))
  /\ endsAbsolute
       (snd (walkLinks (Table.tableEnv Trees.climb "/") 1000 [1000%Z] 1
               pathSeparator 256 4 (mkWalk (str "..") 0 pathSeparator 1) [])).
Proof.
  apply dest_stays_absolute. reflexivity.
Defined.

Lemma tAbs_absolute cwd p q : Table.tAbs cwd p = inr q -> absolute q.
Proof.
  unfold Table.tAbs. destruct p as [|c p].
  - intros H. injection H as <-. reflexivity.
  - destruct (IsPathSeparator c); intros H; injection H as <-; reflexivity.
Qed.

(** Where filepath.Abs gives a path that begins with a separator, the
    whole check never returns the error "absolute path not containing any
    slash": the branch marked "should never happen" is not reached. *)
Theorem access_never_misses_slash :
  forall env user uid mode p h,
    (forall q, Abs env p = inr q -> absolute q) ->
    forall h' q, access env user uid mode p h <> (h', Err (ENoSlash q)).
Proof.
  intros env user uid mode p h Ha h' q Heq.
  pose proof (@access_noSlashFree env user uid mode p h Ha) as H.
  rewrite Heq in H. exact H.
Qed.

Lemma access_never_misses_slash_witness :
  access (Table.tableEnv Trees.climb "/") Trees.alice 1000 Read (str "up/../x") []
  <> ([EvLstat (str "/")], Err (ENoSlash (str "x"))).
Proof.
  apply (@access_never_misses_slash (Table.tableEnv Trees.climb "/")
           Trees.alice 1000 Read (str "up/../x") []).
  intros q H. exact (tAbs_absolute _ _ H).
Defined.

(** A check reads at most 255 links, whatever the environment answers. *)
Theorem access_reads_at_most_255_links :
  forall env user uid mode p h,
    readlinks (fst (access env user uid mode p h)) <= readlinks h + 255.
Proof. intros. apply access_readlinks. Qed.

(** The superuser is never denied: for uid 0 neither [access] nor the
    exported check by uid returns a PermissionError. *)
Theorem superuser_never_denied :
  forall env user mode p h,
    noDenial (snd (access env user 0 mode p h))
    /\ noDenial (snd (AccessUid env 0 mode p h)).
Proof.
  intros env user mode p h. split; [apply access_root_noDenial|].
  unfold AccessUid, bind.
  destruct (LookupId env (Itoa env 0)) as [e|u]; cbn [lift fail ret]; [exact I|].
  apply access_root_noDenial.
Qed.

(** [access] returns the error of the first step that fails before the
    walk (the list of groups cannot be read, a group id is no number,
    filepath.Abs fails), and then makes no call of Lstat or Readlink. *)
Theorem access_errors_before_walk :
  forall env user uid mode p h,
    (forall e, GroupIds user = inl e ->
       access env user uid mode p h = (h, Err (EExternal e)))
    /\ (forall pre zs g post e,
          GroupIds user = inr (pre ++ g :: post) ->
          Forall2 (fun g z => Atoi env g = inr z) pre zs ->
          Atoi env g = inl e ->
          access env user uid mode p h = (h, Err (EExternal e)))
    /\ (forall gi e,
          groupsOf env user gi -> Abs env p = inl e ->
          access env user uid mode p h = (h, Err (EExternal e))).
Proof.
  intros env user uid mode p h. split; [|split].
  - intros e He. unfold access. rewrite He. reflexivity.
  - intros pre zs g post e Hg Hpre Hbad. unfold access. rewrite Hg.
    cbn [lift]. rewrite bind_ret_l.
    rewrite (@bind_err _ _ _ _ _ _ _
               (@atoiAll_first_error env pre zs g post e h Hpre Hbad)).
    reflexivity.
  - intros gi e (gs & Hgs & Hgi) Habs. unfold access. rewrite Hgs.
    cbn [lift]. rewrite bind_ret_l.
    rewrite (@bind_ok _ _ _ _ _ _ _ (atoiAll_ok env h Hgi)).
    rewrite Habs. reflexivity.
Qed.

Lemma access_errors_before_walk_witness :
  access (Table.tableEnv Trees.home "/") People.mallory 1001 Read (str "/a/f") []
  = ([], Err (EExternal Table.EINVAL)).
Proof.
  refine (proj1 (proj2 (@access_errors_before_walk
                          (Table.tableEnv Trees.home "/") People.mallory
                          1001 Read (str "/a/f") []))
            [str "1001"] [1001%Z] (str "wheel") [] Table.EINVAL _ _ _).
  - reflexivity.
  - constructor; [reflexivity|constructor].
  - reflexivity.
Defined.

(** The two exported checks agree: where the name is found, the uid of
    the user found is a number, and the lookup by that number finds the same
    user, the check by name is the check by uid; a lookup that fails is
    returned as it is, with no call of Lstat or Readlink. *)
Theorem Uid_Username_agree :
  forall env name uid u mode p h,
    (Lookup env name = inr u ->
     Atoi env (userUid u) = inr uid ->
     LookupId env (Itoa env uid) = inr u ->
     AccessUsername env name mode p h = AccessUid env uid mode p h)
    /\ (forall e, LookupId env (Itoa env uid) = inl e ->
          AccessUid env uid mode p h = (h, Err (EExternal e)))
    /\ (forall e, Lookup env name = inl e ->
          AccessUsername env name mode p h = (h, Err (EExternal e)))
    /\ (forall e, Lookup env name = inr u -> Atoi env (userUid u) = inl e ->
          AccessUsername env name mode p h = (h, Err (EExternal e))).
Proof.
  intros env name uid u mode p h. repeat split.
  - intros H1 H2 H3. unfold AccessUsername, AccessUid.
    rewrite H1, H3. cbn [lift]. rewrite !bind_ret_l. rewrite H2.
    cbn [lift]. rewrite bind_ret_l. reflexivity.
  - intros e H. unfold AccessUid. rewrite H. reflexivity.
  - intros e H. unfold AccessUsername. rewrite H. reflexivity.
  - intros e H1 H2. unfold AccessUsername. rewrite H1. cbn [lift].
    rewrite bind_ret_l. rewrite H2. reflexivity.
Qed.

Lemma Uid_Username_agree_witness :
  AccessUsername (People.env Trees.home) (str "alice") Read (str "/a/f") []
  = AccessUid (People.env Trees.home) 1000 Read (str "/a/f") [].
Proof.
  refine (proj1 (@Uid_Username_agree (People.env Trees.home) (str "alice")
                   1000 Trees.alice Read (str "/a/f") []) _ _ _);
    reflexivity.
Defined.

(** A rest of the path that holds only separators and [.] components is
    passed over: the loop ends with dest as it was, with no call of the
    environment. *)
Theorem dots_and_separators_are_skipped :
  forall env uid gi volLen vol runs pre seps dest links budget fuel h,
    allSep seps -> dotRuns runs -> length runs < fuel ->
    walkLinks env uid gi volLen vol budget fuel
      (mkWalk (pre ++ seps ++ dots runs) (length pre) dest links) h
    = (h, Ok dest).
Proof. intros. apply walk_dots; assumption. Qed.

Lemma dots_and_separators_are_skipped_witness :
  walkLinks (Table.tableEnv Trees.home "/") 1000 [1000%Z] 1 pathSeparator 256 9
    (mkWalk (str "/a" ++ str "//" ++ dots [str "/"; str "//"]) (length (str "/a"))
       (str "/a") 0) []
  = ([], Ok (str "/a")).
Proof.
  apply dots_and_separators_are_skipped.
  - repeat constructor.
  - repeat split; try (repeat constructor); discriminate.
  - simpl. lia.
Defined.

(** The owner test compares the principal's uid modulo 2^32 (the code
    converts it to uint32): a principal whose uid is neither 0 nor a
    multiple of 2^32 is refused exactly where the principal with the uid
    reduced modulo 2^32 is. *)
Theorem uid_is_compared_modulo_uint32 :
  forall uid gid mode fi,
    uid <> 0%Z -> wrap32 uid <> 0%Z ->
    refused uid gid mode fi = refused (wrap32 uid) gid mode fi.
Proof. intros. apply refused_wrap; assumption. Qed.

Lemma uid_is_compared_modulo_uint32_witness :
  refused (2 ^ 32 + 1000) [] Write (mkFileInfo 384 1000 1000)
  = refused (wrap32 (2 ^ 32 + 1000)) [] Write (mkFileInfo 384 1000 1000).
Proof.
  apply uid_is_compared_modulo_uint32; vm_compute; discriminate.
Defined.

(** The mode 0 asks for nothing on the path itself: along a path without
    links (in a tree that answers for every component) the check with mode
    0 returns nil iff the Execute tests on the root and on every directory
    between pass; the bits of the last component play no part. *)
Theorem access_mode_zero :
  forall env user uid gi meta cs h,
    groupsOf env user gi ->
    Abs env (destOf cs) = inr (destOf cs) ->
    Forall ordinary cs -> plainTree env meta cs ->
    (snd (access env user uid 0 (destOf cs) h) = Ok tt
     <-> (cs <> [] -> refused uid gi Execute (meta pathSeparator) = false)
         /\ forall k, S k < length cs ->
              refused uid gi Execute (meta (rooted (firstn (S k) cs))) = false).
Proof.
  intros env user uid gi meta cs h Hg Habs Hord Htree.
  destruct (@access_plain env user uid gi 0%Z meta cs h Hg Habs Hord Htree)
    as [(Ha & Hp)|((h' & e & Ha) & Hp)]; rewrite Ha; cbn [snd].
  - split; [intros _|reflexivity]. destruct Hp as (_ & H1 & H2). split; assumption.
  - split; [discriminate|]. intros (H1 & H2). exfalso. apply Hp.
    split; [apply refused_zero|]. split; assumption.
Qed.

Lemma access_mode_zero_witness :
  snd (access (Table.tableEnv Trees.sealed "/") Trees.alice 1000 0
         (destOf [str "f"]) []) = Ok tt
  <-> ([str "f"] <> [] ->
       refused 1000 [1000%Z] Execute (Trees.metaOf Trees.sealed pathSeparator) = false)
      /\ forall k, S k < length [str "f"] ->
           refused 1000 [1000%Z] Execute
             (Trees.metaOf Trees.sealed (rooted (firstn (S k) [str "f"]))) = false.
Proof.
  apply access_mode_zero.
  - apply alice_groups.
  - reflexivity.
  - repeat constructor; discriminate.
  - split; [intros h; reflexivity|].
    intros k Hk. destruct k as [|k]; [|simpl in Hk; lia]. cbv zeta.
    split; [intros h; reflexivity|]. split; [reflexivity|].
    intros H. simpl in H. lia.
Defined.

(** Round trip: for a rooted path of ordinary components that holds no
    link, whose directories pass the Execute tests, the loop of the walk
    ends with the path it was given as dest, after the calls of
    walkTrace. *)
Theorem walk_returns_plain_path :
  forall env uid gi meta cs h,
    Forall ordinary cs -> plainTree env meta cs ->
    walkPasses uid gi meta [] cs ->
    walkLinks env uid gi 1 pathSeparator 256 (S (length (destOf cs)))
      (mkWalk (destOf cs) 1 pathSeparator 0) h
    = (h ++ map EvLstat (walkTrace [] cs), Ok (destOf cs)).
Proof.
  intros env uid gi meta cs h Hord Htree Hpass.
  assert (Hst : mkWalk (destOf cs) 1 pathSeparator 0
                = mkWalk (pathSeparator ++ [] ++ tailPath cs)
                    (length pathSeparator) (destOf []) 0)
    by (rewrite <- destOf_root; reflexivity).
  rewrite Hst.
  destruct (@walk_plain env uid gi meta 1 pathSeparator cs [] pathSeparator []
              0 256 (S (length (destOf cs))) h)
    as [(Hw & _)|(_ & Hfail)]; try assumption.
  - constructor.
  - reflexivity.
  - pose proof (length_rooted_ge Hord). destruct cs; simpl in *; lia.
  - exfalso. destruct Hfail as (Hne & Hf). destruct (Hpass Hne) as (H1 & H2).
    destruct Hf as [Hf|(k & Hk & Hf)].
    + congruence.
    + specialize (H2 k Hk). congruence.
Qed.

Lemma walk_returns_plain_path_witness :
  walkLinks (Table.tableEnv Trees.home "/") 1000 [1000%Z] 1 pathSeparator 256
    (S (length (destOf [str "a"; str "f"])))
    (mkWalk (destOf [str "a"; str "f"]) 1 pathSeparator 0) []
  = ([] ++ map EvLstat (walkTrace [] [str "a"; str "f"]),
     Ok (destOf [str "a"; str "f"])).
Proof.
  apply (@walk_returns_plain_path (Table.tableEnv Trees.home "/") 1000 [1000%Z]
           (Trees.metaOf Trees.home)).
  - repeat constructor; discriminate.
  - apply home_plainTree.
  - intros _. split; [reflexivity|].
    intros k Hk. destruct k as [|k]; [reflexivity|simpl in Hk; lia].
Defined.

(** ** Nothing is asked after a denial *)

Section DenialLast.

Variable env : Env.

Lemma checkPath_denial_last uid gid mode p h h' e :
  checkPath env uid gid mode p h = (h', Err (EPermission e)) ->
  exists t, h' = h ++ t ++ [EvLstat (File e)].
Proof.
  remember (length p) as n eqn:Hn. revert mode p h Hn.
  induction n as [n IH] using lt_wf_ind. intros mode p h Hn. subst n.
  destruct p as [|x p]; [discriminate|].
  rewrite checkPath_unfold by discriminate.
  unfold bind, lstat. destruct (Lstat env h (x :: p)) as [c|fi]; [discriminate|].
  destruct (refused uid gid mode fi).
  - unfold fail. intros H. injection H as <- <-. exists []. reflexivity.
  - destruct (LastIndexSep (x :: p) <? 0)%Z eqn:E; [discriminate|].
    apply Z.ltb_ge in E. pose proof (LastIndexSep_bound (x :: p)) as Hb.
    set (i := Z.to_nat (LastIndexSep (x :: p))) in *.
    assert (Hlen : length (upto (x :: p) i) = i).
    { unfold upto. rewrite length_firstn. lia. }
    intros H.
    apply (IH i ltac:(lia) 1%Z (upto (x :: p) i) (h ++ [EvLstat (x :: p)])
             (eq_sym Hlen)) in H.
    destruct H as (t & ->). exists (EvLstat (x :: p) :: t).
    rewrite <- app_assoc. reflexivity.
Qed.

Variables (uid : Z) (gi : list Z).
Variables (volLen : nat) (vol : path).

Lemma resolve_extends p end_ dest links fi h :
  exists t, fst (resolve env volLen vol p end_ dest links fi h) = h ++ t.
Proof.
  unfold resolve. destruct (Z.land (fiMode fi) ModeSymlink =? 0)%Z.
  - exists []. rewrite app_nil_r.
    destruct (negb (IsDir fi) && (end_ <? length p)); reflexivity.
  - cbv zeta. destruct (255 <? S links); [exists []; rewrite app_nil_r; reflexivity|].
    exists [EvReadlink dest]. unfold bind, readlink.
    destruct (Readlink env h dest) as [c|link]; [reflexivity|].
    destruct ((0 <? length link) && IsPathSeparator (byteAt link 0)); reflexivity.
Qed.

(** A turn of the loop only adds calls to the trace, and a denial of the
    turn comes right after the call for the path that is denied. *)
Lemma loopBody_trace st h :
  (exists t, fst (loopBody env uid gi volLen vol st h) = h ++ t)
  /\ forall h' e,
       loopBody env uid gi volLen vol st h = (h', Err (EPermission e)) ->
       exists t, h' = h ++ t ++ [EvLstat (File e)].
Proof.
  unfold loopBody.
  destruct (negb (wStart st <? length (wPath st)));
    [split; [exists []; rewrite app_nil_r; reflexivity|discriminate]|].
  cbv zeta.
  set (start := skipSeparators (wPath st) (wStart st) (length (wPath st))).
  set (end_ := skipComponent (wPath st) start (length (wPath st))).
  destruct (end_ =? start);
    [split; [exists []; rewrite app_nil_r; reflexivity|discriminate]|].
  destruct (path_eqb (slice (wPath st) start end_) (str "."));
    [split; [exists []; rewrite app_nil_r; reflexivity|discriminate]|].
  destruct (path_eqb (slice (wPath st) start end_) (str ".."));
    [split; [exists []; rewrite app_nil_r; reflexivity|discriminate]|].
  set (q := upto (addSeparator (wDest st) ++ slice (wPath st) start end_)
              (length (addSeparator (wDest st)))).
  set (d := addSeparator (wDest st) ++ slice (wPath st) start end_).
  destruct (checkPath_calls env uid gi 1 q h) as (qs & Hq & _).
  unfold bind at 1 3.
  destruct (checkPath env uid gi 1 q h) as [h1 [[]|e1|]] eqn:Ec;
    cbn [fst] in Hq; subst h1.
  - unfold bind, lstat. destruct (Lstat env (h ++ map EvLstat qs) d) as [c|fi].
    + split; [|discriminate]. exists (map EvLstat qs ++ [EvLstat d]).
      cbn [fst]. rewrite <- app_assoc. reflexivity.
    + destruct (resolve_extends (wPath st) end_ d (wLinks st) fi
                  ((h ++ map EvLstat qs) ++ [EvLstat d])) as (t & Ht).
      split.
      * exists (map EvLstat qs ++ [EvLstat d] ++ t). rewrite Ht.
        rewrite <- !app_assoc. reflexivity.
      * intros h' e H. exfalso.
        exact (@resolve_no_denial _ _ _ _ _ _ _ _ _ _ _ H).
  - split; [exists (map EvLstat qs); reflexivity|].
    intros h' e H. injection H as <- ->.
    exact (checkPath_denial_last _ _ _ _ _ Ec).
  - split; [exists (map EvLstat qs); reflexivity|discriminate].
Qed.

Lemma walkLinks_denial_last budget :
  forall fuel st h h' e,
    walkLinks env uid gi volLen vol budget fuel st h = (h', Err (EPermission e)) ->
    exists t, h' = h ++ t ++ [EvLstat (File e)].
Proof.
  induction budget as [|budget IHb].
  - induction fuel as [|fuel IHf]; intros st h h' e; [discriminate|].
    rewrite walkLinks_unfold. unfold bind.
    destruct (loopBody_trace st h) as ((t1 & Ht1) & Hden).
    destruct (loopBody env uid gi volLen vol st h) as [h1 [[st'|st'|st']|e1|]];
      cbn [fst] in Ht1; subst h1; try discriminate.
    + intros H. apply IHf in H as (t & ->). exists (t1 ++ t).
      rewrite <- !app_assoc. reflexivity.
    + intros H. injection H as <- ->. apply Hden. reflexivity.
  - induction fuel as [|fuel IHf]; intros st h h' e; [discriminate|].
    rewrite walkLinks_unfold. unfold bind.
    destruct (loopBody_trace st h) as ((t1 & Ht1) & Hden).
    destruct (loopBody env uid gi volLen vol st h) as [h1 [[st'|st'|st']|e1|]];
      cbn [fst] in Ht1; subst h1; try discriminate.
    + intros H. apply IHf in H as (t & ->). exists (t1 ++ t).
      rewrite <- !app_assoc. reflexivity.
    + intros H. apply IHb in H as (t & ->). exists (t1 ++ t).
      rewrite <- !app_assoc. reflexivity.
    + intros H. injection H as <- ->. apply Hden. reflexivity.
Qed.

End DenialLast.

Lemma walkLinks_extends env uid gi volLen vol budget :
  forall fuel st h,
    exists t, fst (walkLinks env uid gi volLen vol budget fuel st h) = h ++ t.
Proof.
  induction budget as [|budget IHb].
  - induction fuel as [|fuel IHf]; intros st h;
      [exists []; rewrite app_nil_r; reflexivity|].
    rewrite walkLinks_unfold. unfold bind.
    destruct (@loopBody_trace env uid gi volLen vol st h) as ((t1 & Ht1) & _).
    destruct (loopBody env uid gi volLen vol st h) as [h1 [[st'|st'|st']|e1|]];
      cbn [fst] in Ht1; subst h1; try (exists t1; reflexivity).
    destruct (IHf st' (h ++ t1)) as (t & Ht). exists (t1 ++ t).
    rewrite Ht, <- app_assoc. reflexivity.
  - induction fuel as [|fuel IHf]; intros st h;
      [exists []; rewrite app_nil_r; reflexivity|].
    rewrite walkLinks_unfold. unfold bind.
    destruct (@loopBody_trace env uid gi volLen vol st h) as ((t1 & Ht1) & _).
    destruct (loopBody env uid gi volLen vol st h) as [h1 [[st'|st'|st']|e1|]];
      cbn [fst] in Ht1; subst h1; try (exists t1; reflexivity).
    + destruct (IHf st' (h ++ t1)) as (t & Ht). exists (t1 ++ t).
      rewrite Ht, <- app_assoc. reflexivity.
    + destruct (IHb (S (length (wPath st'))) st' (h ++ t1)) as (t & Ht).
      exists (t1 ++ t). rewrite Ht, <- app_assoc. reflexivity.
Qed.

(** No partial work after a refusal: when the check returns a
    PermissionError, the last call of the environment is the Lstat of the
    path named in the error. *)
Theorem denial_is_the_last_call :
  forall env user uid mode p h h' e,
    access env user uid mode p h = (h', Err (EPermission e)) ->
    exists t, h' = h ++ t ++ [EvLstat (File e)].
Proof.
  intros env user uid mode p h h' e. unfold access, bind.
  destruct (GroupIds user) as [c|gs]; cbn [lift fail ret]; [discriminate|].
  pose proof (atoiAll_fst env gs h) as Ha.
  pose proof (atoiAll_noDenial env gs h) as Hn.
  destruct (atoiAll env gs h) as [h1 [gi|e1|]]; cbn [fst snd] in *; subst h1.
  2:{ intros H. injection H as _ ->. contradiction. }
  2:{ discriminate. }
  destruct (Abs env p) as [c|q]; cbn [lift fail ret]; [discriminate|].
  match goal with
  | |- context [walkLinks env uid gi ?vl ?v 256 ?f ?st h] =>
      destruct (@walkLinks_extends env uid gi vl v 256 f st h) as (t1 & Ht1);
      pose proof (@walkLinks_denial_last env uid gi vl v 256 f st h) as Hd;
      destruct (walkLinks env uid gi vl v 256 f st h) as [h2 [d|e2|]]
  end; cbn [fst] in Ht1; subst h2.
  - intros H. apply checkPath_denial_last in H as (t & ->).
    exists (t1 ++ t). rewrite <- !app_assoc. reflexivity.
  - intros H. injection H as <- ->. apply Hd. reflexivity.
  - discriminate.
Qed.

Lemma denial_is_the_last_call_witness :
  exists t,
    [EvLstat (str "/"); EvLstat (str "/d"); EvLstat (str "/d/")]
    = [] ++ t ++ [EvLstat (File (denial 1001 [1001%Z] Execute (str "/d/")
                                   (mkFileInfo (ModeDir + 448) 1000 1000)))].
Proof.
  apply (@denial_is_the_last_call (Table.tableEnv Trees.vault "/")
           (Table.userOf "1001" ["1001"%string]) 1001 Read (str "/d/f") []).
  vm_compute. reflexivity.
Defined.
